(** * Key resolution and translation store engine of the i18n integration tool

    A shallow embedding of the TypeScript sources (key validator, key
    generator, duplicate detectors, key manager, JSON manager, backup system)
    and the properties of the specification that concern them. *)

From Stdlib Require Import ZArith NArith List Ascii String Lia Bool DecimalN Floats.
From Stdlib Require Import Sorted Permutation.
From stdpp Require Import gmap.

#[local] Set Warnings "-inexact-float".
Import ListNotations.

Local Open Scope Z_scope.

(** * JavaScript strings

    A string is its sequence of UTF-16 code units. [lit] reads an ASCII
    literal of the source. *)

Abbreviation jsstring := (list N).

Definition lit (s : string) : jsstring :=
  List.map N_of_ascii (list_ascii_of_string s).

Arguments lit : simpl never.

(** [s.length] as a JavaScript number. *)
Definition len (s : jsstring) : Z := Z.of_nat (length s).

(** Truthiness of a string: [!s] holds exactly for the empty string. *)
Definition truthy (s : jsstring) : bool :=
  match s with [] => false | _ :: _ => true end.

Definition underscore : N := 95.

Definition is_lower (c : N) : bool := ((97 <=? c) && (c <=? 122))%N.
Definition is_upper (c : N) : bool := ((65 <=? c) && (c <=? 90))%N.
Definition is_digit (c : N) : bool := ((48 <=? c) && (c <=? 57))%N.
Definition is_underscore (c : N) : bool := (c =? underscore)%N.

(** The class [[a-z0-9_]]. *)
Definition key_char (c : N) : bool := is_lower c || is_digit c || is_underscore c.

(** [String.prototype.toLowerCase], code unit by code unit: A-Z and the
    Latin-1 capitals (U+00C0..U+00DE without U+00D7) move down by 32. Code
    units above U+00FF are returned unchanged, which is what JavaScript does
    on the Arabic-script blocks the tool works on. *)
Definition lower_unit (c : N) : N :=
  if is_upper c then (c + 32)%N
  else if ((192 <=? c) && (c <=? 222) && negb (c =? 215))%N then (c + 32)%N
  else c.

Definition toLowerCase (s : jsstring) : jsstring := List.map lower_unit s.

(** [s.substring(0, n)]: a negative [n] counts as 0, a large one as the length. *)
Definition substring0 (s : jsstring) (n : Z) : jsstring := firstn (Z.to_nat n) s.

(** [s.split(sep)] for a separator that is one code unit of the class [P]:
    always at least one part. *)
Fixpoint split_on (P : N -> bool) (s : jsstring) : list jsstring :=
  match s with
  | [] => [[]]
  | c :: t =>
      if P c then [] :: split_on P t
      else match split_on P t with
           | [] => [[c]]
           | p :: ps => (c :: p) :: ps
           end
  end.

(** [s.split('_')]. *)
Definition split_underscore (s : jsstring) : list jsstring :=
  split_on is_underscore s.

Fixpoint prefixb (p s : jsstring) : bool :=
  match p, s with
  | [], _ => true
  | _ :: _, [] => false
  | a :: p', b :: s' => (a =? b)%N && prefixb p' s'
  end.

(** [s.startsWith(p)] and [s.endsWith(p)]. *)
Definition startsWith (s p : jsstring) : bool := prefixb p s.
Definition endsWith (s p : jsstring) : bool := prefixb (rev p) (rev s).

(** [s.includes(p)]. *)
Fixpoint includes (s p : jsstring) : bool :=
  prefixb p s || match s with [] => false | _ :: t => includes t p end.

(** Decimal rendering of a counter, as in the template [`${counter}`]. *)
Fixpoint uint_units (d : Decimal.uint) : jsstring :=
  match d with
  | Decimal.Nil => []
  | Decimal.D0 d => 48%N :: uint_units d
  | Decimal.D1 d => 49%N :: uint_units d
  | Decimal.D2 d => 50%N :: uint_units d
  | Decimal.D3 d => 51%N :: uint_units d
  | Decimal.D4 d => 52%N :: uint_units d
  | Decimal.D5 d => 53%N :: uint_units d
  | Decimal.D6 d => 54%N :: uint_units d
  | Decimal.D7 d => 55%N :: uint_units d
  | Decimal.D8 d => 56%N :: uint_units d
  | Decimal.D9 d => 57%N :: uint_units d
  end.

Definition decimal (n : N) : jsstring := uint_units (N.to_uint n).

(** [`${key}_${counter}`]. *)
Definition numbered (key : jsstring) (counter : N) : jsstring :=
  key ++ underscore :: decimal counter.

(** ** Regular-expression replacements used on keys *)

(** [.replace(/[^a-z0-9_]/g, '_')]. *)
Definition replace_invalid (s : jsstring) : jsstring :=
  List.map (fun c => if key_char c then c else underscore) s.

(** Every maximal run of code units of the class [P] becomes the one code
    unit [rep]: a member of the class is kept, as [rep], only where its run
    ends. *)
Fixpoint squeeze (P : N -> bool) (rep : N) (s : jsstring) : jsstring :=
  match s with
  | [] => []
  | c :: t =>
      if P c then
        match t with
        | c' :: _ => if P c' then squeeze P rep t else rep :: squeeze P rep t
        | [] => [rep]
        end
      else c :: squeeze P rep t
  end.

(** [.replace(/_{2,}/g, '_')] and [.replace(/__+/g, '_')]: every run of
    underscores shrinks to one. *)
Definition collapse_underscores (s : jsstring) : jsstring :=
  squeeze is_underscore underscore s.

Fixpoint drop_leading (P : N -> bool) (s : jsstring) : jsstring :=
  match s with
  | c :: t => if P c then drop_leading P t else s
  | [] => []
  end.

Fixpoint drop_trailing (P : N -> bool) (s : jsstring) : jsstring :=
  match s with
  | [] => []
  | c :: t =>
      match drop_trailing P t with
      | [] => if P c then [] else [c]
      | t' => c :: t'
      end
  end.

(** [.replace(/^_+|_+$/g, '')]: the leading and the trailing run go. *)
Definition trim_underscores (s : jsstring) : jsstring :=
  drop_trailing is_underscore (drop_leading is_underscore s).

Definition drop_first_underscore (s : jsstring) : jsstring :=
  match s with
  | c :: t => if is_underscore c then t else s
  | [] => []
  end.

Fixpoint drop_last_underscore (s : jsstring) : jsstring :=
  match s with
  | [] => []
  | c :: t =>
      match t with
      | [] => if is_underscore c then [] else [c]
      | _ :: _ => c :: drop_last_underscore t
      end
  end.

(** [.replace(/^_|_$/g, '')]: one leading and one trailing underscore go. *)
Definition trim_one_underscore (s : jsstring) : jsstring :=
  drop_last_underscore (drop_first_underscore s).

(** [/^_/.test(s)] and [/_$/.test(s)]. *)
Definition starts_underscore (s : jsstring) : bool :=
  match s with c :: _ => is_underscore c | [] => false end.

Fixpoint ends_underscore (s : jsstring) : bool :=
  match s with
  | [] => false
  | c :: t => match t with [] => is_underscore c | _ :: _ => ends_underscore t end
  end.

(** ** Character classes of the text normalisers *)

(** The class [\s]: white space and line terminators. [trim] strips the
    same code units. *)
Definition is_space (c : N) : bool :=
  (((9 <=? c) && (c <=? 13)) || (c =? 32) || (c =? 160) || (c =? 5760)
   || ((8192 <=? c) && (c <=? 8202)) || (c =? 8232) || (c =? 8233)
   || (c =? 8239) || (c =? 8287) || (c =? 12288) || (c =? 65279))%N.

(** The class [\w]. *)
Definition is_word (c : N) : bool :=
  is_lower c || is_upper c || is_digit c || is_underscore c.

(** [\u0600-\u06FF \u0750-\u077F \u08A0-\u08FF \uFB50-\uFDFF \uFE70-\uFEFF]. *)
Definition is_arabic_script (c : N) : bool :=
  (((1536 <=? c) && (c <=? 1791)) || ((1872 <=? c) && (c <=? 1919))
   || ((2208 <=? c) && (c <=? 2303)) || ((64336 <=? c) && (c <=? 65023))
   || ((65136 <=? c) && (c <=? 65279)))%N.

(** What [.replace(/[^...\s\w]/g, '')] keeps, in [normalizeText] and
    [normalizeValue]. *)
Definition is_text_unit (c : N) : bool :=
  is_arabic_script c || is_space c || is_word c.

(** [s.trim()]. *)
Definition trim (s : jsstring) : jsstring :=
  drop_trailing is_space (drop_leading is_space s).

(** [.replace(/\s+/g, rep)]. *)
Definition squeeze_spaces (rep : N) (s : jsstring) : jsstring :=
  squeeze is_space rep s.

(** [s.replace(new RegExp(pat, 'g'), rep)] for a non-empty [pat] without
    special characters: the occurrences are taken from left to right and do
    not overlap. [skip] counts the code units of a match still to pass. *)
Fixpoint replace_all_from (pat rep s : jsstring) (skip : nat) : jsstring :=
  match s with
  | [] => []
  | c :: t =>
      match skip with
      | S k => replace_all_from pat rep t k
      | O =>
          if prefixb pat s
          then rep ++ replace_all_from pat rep t (length pat - 1)
          else c :: replace_all_from pat rep t O
      end
  end.

Definition replace_all (pat rep s : jsstring) : jsstring :=
  replace_all_from pat rep s O.

(** * A state monad for the objects of the tool

    A method of an object with mutable fields is a function from the object's
    state to its result and the state it leaves behind. *)

Definition State (St A : Type) : Type := St -> A * St.

Definition ret {St A} (a : A) : State St A := fun s => (a, s).
Definition bind {St A B} (m : State St A) (f : A -> State St B) : State St B :=
  fun s => let (a, s') := m s in f a s'.
Definition gets {St A} (f : St -> A) : State St A := fun s => (f s, s).
Definition modify {St} (f : St -> St) : State St unit := fun s => (tt, f s).

Notation "'let*' x ':=' m 'in' k" := (bind m (fun x => k))
  (at level 10, x pattern, m at level 100, k at level 200).

(** A list of one element when [b] holds, the empty list otherwise: a
    conditional [push]. *)
Definition push_if {A} (b : bool) (a : A) : list A := if b then [a] else [].

Definition evalState {St A} (m : State St A) (s : St) : A := fst (m s).
Definition execState {St A} (m : State St A) (s : St) : St := snd (m s).

(** ** What the numbering loops compute

    The loops that look for an unused key go through the candidates
    [uniqueKey], [key_counter], [key_(counter+1)], ... and stop at the first
    one outside the set of used keys. [first_unused] is that search on a
    fixed set, looking at [fuel] candidates at most. *)
Fixpoint first_unused (used : gset jsstring) (fuel : nat)
    (key uniqueKey : jsstring) (counter : N) : option jsstring :=
  match fuel with
  | O => None
  | S fuel' =>
      if bool_decide (uniqueKey ∈ used)
      then first_unused used fuel' key (numbered key counter) (counter + 1)%N
      else Some uniqueKey
  end.

Module Validator.

(** * The key validator ([KeyValidator]) *)

(** A forbidden pattern. [fixForbiddenPattern] switches on the source text of
    the regular expression: the four patterns of the default rules have a
    repair of their own, any other one is replaced by an underscore where it
    first matches. Such a pattern is given by its [test] and by what
    [key.replace(pattern, '_')] returns. *)
Inductive ForbiddenPattern : Type :=
  | OnlyUnderscores                     (* /^_+$/ *)
  | OnlyDigits                          (* /^[0-9]+$/ *)
  | RepeatedUnderscores                 (* /__+/ *)
  | EdgeUnderscore                      (* /^_|_$/ *)
  | OtherPattern (test : jsstring -> bool) (replace_first : jsstring -> jsstring).

Record KeyValidationRules : Type := {
  maxLength : Z;
  minLength : Z;
  allowedCharacters : jsstring -> bool;   (* the regular expression's [test] *)
  forbiddenPatterns : list ForbiddenPattern;
  reservedWords : list jsstring;
  requirePrefix : option jsstring;
  requireSuffix : option jsstring;
  caseSensitive : bool
}.

(** [/^[a-z0-9_]+$/.test(key)]. *)
Definition only_key_chars (key : jsstring) : bool :=
  truthy key && forallb key_char key.

Definition DEFAULT_RESERVED_WORDS : list jsstring := Eval cbv in
  List.map lit
    ["undefined"; "null"; "true"; "false"; "function"; "var"; "let"; "const";
     "if"; "else"; "for"; "while"; "do"; "switch"; "case"; "default"; "break";
     "continue"; "return"; "try"; "catch"; "finally"; "throw"; "new"; "this";
     "super"; "class"; "extends"; "import"; "export"; "from"; "as"; "default"]%string.

Definition DEFAULT_KEY_RULES : KeyValidationRules := {|
  maxLength := 100;
  minLength := 2;
  allowedCharacters := only_key_chars;
  forbiddenPatterns :=
    [OnlyUnderscores; OnlyDigits; RepeatedUnderscores; EdgeUnderscore];
  reservedWords := DEFAULT_RESERVED_WORDS;
  requirePrefix := None;
  requireSuffix := None;
  caseSensitive := false
|}.

Record KeyValidator : Type := {
  rules : KeyValidationRules;
  usedKeys : gset jsstring
}.

(** [new KeyValidator(rules)]. *)
Definition newKeyValidator (r : KeyValidationRules) : KeyValidator :=
  {| rules := r; usedKeys := ∅ |}.

Fixpoint has_double_underscore (s : jsstring) : bool :=
  match s with
  | c :: t =>
      match t with
      | c' :: _ => (is_underscore c && is_underscore c') || has_double_underscore t
      | [] => false
      end
  | [] => false
  end.

(** [pattern.test(key)]. *)
Definition pattern_test (p : ForbiddenPattern) (key : jsstring) : bool :=
  match p with
  | OnlyUnderscores => truthy key && forallb is_underscore key
  | OnlyDigits => truthy key && forallb is_digit key
  | RepeatedUnderscores => has_double_underscore key
  | EdgeUnderscore => starts_underscore key || ends_underscore key
  | OtherPattern test _ => test key
  end.

(** [sanitizeKey]. *)
Definition sanitizeKey (key : jsstring) : jsstring :=
  trim_underscores (collapse_underscores (replace_invalid key)).

(** [fixForbiddenPattern]. *)
Definition fixForbiddenPattern (key : jsstring) (p : ForbiddenPattern) : jsstring :=
  match p with
  | OnlyUnderscores => lit "unnamed_key"
  | OnlyDigits => lit "key_" ++ key
  | RepeatedUnderscores => collapse_underscores key
  | EdgeUnderscore => trim_underscores key
  | OtherPattern _ replace_first => replace_first key
  end.

(** [result += (result ? '_' : '') + part]. *)
Definition append_part (result part : jsstring) : jsstring :=
  result ++ (if truthy result then [underscore] else []) ++ part.

(** The [for (const part of parts)] loop of the validator's [truncateKey],
    with its [break]. *)
Fixpoint truncate_parts (maxLen : Z) (parts : list jsstring) (result : jsstring)
  : jsstring :=
  match parts with
  | [] => result
  | part :: rest =>
      if len result + len part + 1 <=? maxLen
      then truncate_parts maxLen rest (append_part result part)
      else
        let remaining := maxLen - len result - 1 in
        if 0 <? remaining
        then append_part result (substring0 part remaining)
        else result
  end.

(** [truncateKey] of the validator. *)
Definition truncateKey (r : KeyValidationRules) (key : jsstring) : jsstring :=
  if len key <=? maxLength r then key
  else
    let parts := split_underscore key in
    if (length parts =? 1)%nat then substring0 key (maxLength r)
    else
      let result := truncate_parts (maxLength r) parts [] in
      if truthy result then result else substring0 key (maxLength r).

(** The fallback loop of [padKey]:
    [while (key.length < minLength) { key += `_${counter}`; counter++ }].
    Every round makes the key longer by at least two, so [fuel] rounds with
    [fuel >= minLength] are never used up. *)
Fixpoint pad_loop (fuel : nat) (minLen : Z) (key : jsstring) (counter : N)
  : jsstring :=
  match fuel with
  | O => key
  | S fuel' =>
      if len key <? minLen
      then pad_loop fuel' minLen (numbered key counter) (counter + 1)%N
      else key
  end.

(** [padKey]. *)
Definition padKey (r : KeyValidationRules) (key : jsstring) : jsstring :=
  if minLength r <=? len key then key
  else
    let padded suffix := key ++ underscore :: lit suffix in
    if minLength r <=? len (padded "key"%string) then padded "key"%string
    else if minLength r <=? len (padded "text"%string) then padded "text"%string
    else if minLength r <=? len (padded "label"%string) then padded "label"%string
    else if minLength r <=? len (padded "msg"%string) then padded "msg"%string
    else pad_loop (Z.to_nat (minLength r)) (minLength r) key 1%N.

(** [this.usedKeys.has(key)]. *)
Definition isKeyUsed (key : jsstring) : State KeyValidator bool :=
  gets (fun v => bool_decide (key ∈ usedKeys v)).

(** [this.usedKeys.add(key)]. *)
Definition markKeyAsUsed (key : jsstring) : State KeyValidator unit :=
  modify (fun v => {| rules := rules v; usedKeys := {[key]} ∪ usedKeys v |}).

(** [addExistingKeys]. *)
Definition addExistingKeys (keys : list jsstring) : State KeyValidator unit :=
  modify (fun v =>
    {| rules := rules v; usedKeys := list_to_set keys ∪ usedKeys v |}).

(** [clearUsedKeys]. *)
Definition clearUsedKeys : State KeyValidator unit :=
  modify (fun v => {| rules := rules v; usedKeys := ∅ |}).

(** The loop of [ensureUniqueness]:
    [while (this.usedKeys.has(uniqueKey)) { uniqueKey = `${key}_${counter}`; counter++ }].
    It returns [None] when the fuel is used up before the loop ends. *)
Fixpoint unique_loop (fuel : nat) (key uniqueKey : jsstring) (counter : N)
  : State KeyValidator (option jsstring) :=
  match fuel with
  | O => ret None
  | S fuel' =>
      let* used := isKeyUsed uniqueKey in
      if used : bool
      then unique_loop fuel' key (numbered key counter) (counter + 1)%N
      else ret (Some uniqueKey)
  end.

(** [ensureUniqueness]. The candidates [key], [key_1], [key_2], ... are
    pairwise different, so one of the first [size usedKeys + 1] is unused
    ([ensureUniqueness_runs] below): the default is never taken. *)
Definition ensureUniqueness (key : jsstring) : State KeyValidator jsstring :=
  let* n := gets (fun v => size (usedKeys v)) in
  let* r := unique_loop (S n) key key 1%N in
  ret (default key r).

(** What [validateKey] reports. The error and warning messages of the source
    are kept as tags. The [suggestions] of the source's result, texts offered
    to the user that do not enter [isValid], are not part of the model. *)
Inductive KeyError : Type :=
  | NotANonEmptyString
  | TooShort
  | TooLong
  | InvalidCharacters
  | MatchesForbidden (p : ForbiddenPattern)
  | ReservedWord
  | AlreadyInUse.

Inductive KeyWarning : Type :=
  | MissingPrefix
  | MissingSuffix
  | VeryShort
  | Generic
  | ShortParts.

Record ValidationResult : Type := {
  isValid : bool;
  errors : list KeyError;
  warnings : list KeyWarning
}.

(** [this.rules.requirePrefix && !key.startsWith(this.rules.requirePrefix)]. *)
Definition lacks_prefix (r : KeyValidationRules) (key : jsstring) : bool :=
  match requirePrefix r with
  | Some p => truthy p && negb (startsWith key p)
  | None => false
  end.

Definition lacks_suffix (r : KeyValidationRules) (key : jsstring) : bool :=
  match requireSuffix r with
  | Some p => truthy p && negb (endsWith key p)
  | None => false
  end.

(** [this.rules.reservedWords.includes(keyToCheck)]. *)
Definition is_reserved (r : KeyValidationRules) (key : jsstring) : bool :=
  let keyToCheck := if caseSensitive r then key else toLowerCase key in
  bool_decide (keyToCheck ∈ reservedWords r).

(** The warnings of [addSemanticWarnings]. *)
Definition semanticWarnings (key : jsstring) : list KeyWarning :=
  push_if (len key <? 4) VeryShort
  ++ push_if (existsb (fun p => includes key (lit p))
             ["text"; "label"; "msg"; "str"; "val"]%string) Generic
  ++ push_if (includes key [underscore]
           && existsb (fun part => len part <=? 2) (split_underscore key)) ShortParts.

(** [validateKey]. *)
Definition validateKey (key : jsstring) : State KeyValidator ValidationResult :=
  if negb (truthy key)
  then ret {| isValid := false; errors := [NotANonEmptyString]; warnings := [] |}
  else
    let* r := gets rules in
    let* used := isKeyUsed key in
    let errs :=
      push_if (len key <? minLength r) TooShort
      ++ push_if (maxLength r <? len key) TooLong
      ++ push_if (negb (allowedCharacters r key)) InvalidCharacters
      ++ List.map MatchesForbidden
           (List.filter (fun p => pattern_test p key) (forbiddenPatterns r))
      ++ push_if (is_reserved r key) ReservedWord
      ++ push_if used AlreadyInUse in
    let warns :=
      push_if (lacks_prefix r key) MissingPrefix
      ++ push_if (lacks_suffix r key) MissingSuffix
      ++ semanticWarnings key in
    ret {| isValid := (length errs =? 0)%nat; errors := errs; warnings := warns |}.

(** The [for (const pattern of this.rules.forbiddenPatterns)] loop of
    [normalizeKey]. *)
Definition fix_forbidden (ps : list ForbiddenPattern) (key : jsstring) : jsstring :=
  fold_left
    (fun normalized p =>
       if pattern_test p normalized then fixForbiddenPattern normalized p
       else normalized)
    ps key.

(** [normalizeKey] up to its last step, the uniqueness loop. *)
Definition normalize_shape (r : KeyValidationRules) (key : jsstring) : jsstring :=
  let normalized := toLowerCase key in
  let normalized := sanitizeKey normalized in
  let normalized := fix_forbidden (forbiddenPatterns r) normalized in
  let normalized :=
    if maxLength r <? len normalized then truncateKey r normalized
    else normalized in
  let normalized :=
    if len normalized <? minLength r then padKey r normalized
    else normalized in
  let normalized :=
    if is_reserved r normalized then normalized ++ lit "_key" else normalized in
  let normalized :=
    if lacks_prefix r normalized
    then default [] (requirePrefix r) ++ underscore :: normalized
    else normalized in
  let normalized :=
    if lacks_suffix r normalized
    then normalized ++ underscore :: default [] (requireSuffix r)
    else normalized in
  normalized.

(** [normalizeKey]. *)
Definition normalizeKey (key : jsstring) : State KeyValidator jsstring :=
  if negb (truthy key) then ret (lit "invalid_key")
  else
    let* r := gets rules in
    ensureUniqueness (normalize_shape r key).

(** [validate(normalize(s))] and [normalize(normalize(s))] on one validator
    state. *)
Definition normalized (v : KeyValidator) (s : jsstring) : jsstring :=
  evalState (normalizeKey s) v.

Definition validated (v : KeyValidator) (key : jsstring) : ValidationResult :=
  evalState (validateKey key) v.

(** The loop of [generateUniqueKey]:
    [while (this.usedKeys.has(uniqueKey)) { counter++; uniqueKey = `${baseKey}_${counter}` }],
    entered with [counter = 1] and [uniqueKey = `${baseKey}_1`]. [None] when
    the fuel is used up. *)
Fixpoint numbering_loop (fuel : nat) (baseKey : jsstring) (counter : N)
  : State KeyValidator (option jsstring) :=
  match fuel with
  | O => ret None
  | S fuel' =>
      let* used := isKeyUsed (numbered baseKey counter) in
      if used : bool
      then numbering_loop fuel' baseKey (counter + 1)%N
      else ret (Some (numbered baseKey counter))
  end.

(** [generateUniqueKey]: the numbered candidates are pairwise different, so
    [size usedKeys + 1] rounds are enough. *)
Definition generateUniqueKey (baseKey : jsstring) : State KeyValidator jsstring :=
  let* n := gets (fun v => size (usedKeys v)) in
  let* r := numbering_loop (S n) baseKey 1%N in
  ret (default (numbered baseKey 1%N) r).

End Validator.

(** * The key generator ([KeyGenerator]) *)

Module Generator.

(** [TRANSLITERATION_MAP], in the order of the source: the Persian or Arabic
    text as code units, and its English rendering. *)
Definition TRANSLITERATION_MAP : list (jsstring * jsstring) := Eval cbv in
  List.map (fun e : list N * string => (fst e, lit (snd e))) [
    ([1575%N], "a"%string);
    ([1570%N], "aa"%string);
    ([1576%N], "b"%string);
    ([1662%N], "p"%string);
    ([1578%N], "t"%string);
    ([1579%N], "s"%string);
    ([1580%N], "j"%string);
    ([1670%N], "ch"%string);
    ([1581%N], "h"%string);
    ([1582%N], "kh"%string);
    ([1583%N], "d"%string);
    ([1584%N], "z"%string);
    ([1585%N], "r"%string);
    ([1586%N], "z"%string);
    ([1688%N], "zh"%string);
    ([1587%N], "s"%string);
    ([1588%N], "sh"%string);
    ([1589%N], "s"%string);
    ([1590%N], "z"%string);
    ([1591%N], "t"%string);
    ([1592%N], "z"%string);
    ([1593%N], "a"%string);
    ([1594%N], "gh"%string);
    ([1601%N], "f"%string);
    ([1602%N], "gh"%string);
    ([1705%N], "k"%string);
    ([1711%N], "g"%string);
    ([1604%N], "l"%string);
    ([1605%N], "m"%string);
    ([1606%N], "n"%string);
    ([1608%N], "v"%string);
    ([1607%N], "h"%string);
    ([1740%N], "i"%string);
    ([1569%N], ""%string);
    ([1574%N], "y"%string);
    ([1572%N], "v"%string);
    ([1603%N], "k"%string);
    ([1610%N], "y"%string);
    ([1577%N], "h"%string);
    ([1587%N; 1604%N; 1575%N; 1605%N], "hello"%string);
    ([1582%N; 1608%N; 1588%N; 32%N; 1570%N; 1605%N; 1583%N; 1740%N; 1583%N], "welcome"%string);
    ([1608%N; 1585%N; 1608%N; 1583%N], "login"%string);
    ([1582%N; 1585%N; 1608%N; 1580%N], "logout"%string);
    ([1579%N; 1576%N; 1578%N; 32%N; 1606%N; 1575%N; 1605%N], "register"%string);
    ([1585%N; 1605%N; 1586%N; 32%N; 1593%N; 1576%N; 1608%N; 1585%N], "password"%string);
    ([1606%N; 1575%N; 1605%N; 32%N; 1705%N; 1575%N; 1585%N; 1576%N; 1585%N; 1740%N], "username"%string);
    ([1578%N; 1575%N; 1740%N; 1740%N; 1583%N], "confirm"%string);
    ([1604%N; 1594%N; 1608%N], "cancel"%string);
    ([1584%N; 1582%N; 1740%N; 1585%N; 1607%N], "save"%string);
    ([1581%N; 1584%N; 1601%N], "delete"%string);
    ([1608%N; 1740%N; 1585%N; 1575%N; 1740%N; 1588%N], "edit"%string);
    ([1580%N; 1583%N; 1740%N; 1583%N], "new"%string);
    ([1602%N; 1583%N; 1740%N; 1605%N; 1740%N], "old"%string);
    ([1576%N; 1593%N; 1583%N; 1740%N], "next"%string);
    ([1602%N; 1576%N; 1604%N; 1740%N], "previous"%string);
    ([1589%N; 1601%N; 1581%N; 1607%N], "page"%string);
    ([1601%N; 1607%N; 1585%N; 1587%N; 1578%N], "list"%string);
    ([1580%N; 1587%N; 1578%N; 1580%N; 1608%N], "search"%string);
    ([1601%N; 1740%N; 1604%N; 1578%N; 1585%N], "filter"%string);
    ([1578%N; 1606%N; 1592%N; 1740%N; 1605%N; 1575%N; 1578%N], "settings"%string);
    ([1662%N; 1585%N; 1608%N; 1601%N; 1575%N; 1740%N; 1604%N], "profile"%string);
    ([1581%N; 1587%N; 1575%N; 1576%N; 32%N; 1705%N; 1575%N; 1585%N; 1576%N; 1585%N; 1740%N], "account"%string);
    ([1575%N; 1591%N; 1604%N; 1575%N; 1593%N; 1575%N; 1578%N], "information"%string);
    ([1580%N; 1586%N; 1574%N; 1740%N; 1575%N; 1578%N], "details"%string);
    ([1578%N; 1608%N; 1590%N; 1740%N; 1581%N; 1575%N; 1578%N], "description"%string);
    ([1606%N; 1575%N; 1605%N], "name"%string);
    ([1606%N; 1575%N; 1605%N; 32%N; 1582%N; 1575%N; 1606%N; 1608%N; 1575%N; 1583%N; 1711%N; 1740%N], "lastname"%string);
    ([1575%N; 1740%N; 1605%N; 1740%N; 1604%N], "email"%string);
    ([1578%N; 1604%N; 1601%N; 1606%N], "phone"%string);
    ([1570%N; 1583%N; 1585%N; 1587%N], "address"%string);
    ([1588%N; 1607%N; 1585%N], "city"%string);
    ([1705%N; 1588%N; 1608%N; 1585%N], "country"%string);
    ([1578%N; 1575%N; 1585%N; 1740%N; 1582%N], "date"%string);
    ([1586%N; 1605%N; 1575%N; 1606%N], "time"%string);
    ([1587%N; 1575%N; 1593%N; 1578%N], "hour"%string);
    ([1583%N; 1602%N; 1740%N; 1602%N; 1607%N], "minute"%string);
    ([1585%N; 1608%N; 1586%N], "day"%string);
    ([1605%N; 1575%N; 1607%N], "month"%string);
    ([1587%N; 1575%N; 1604%N], "year"%string);
    ([1575%N; 1605%N; 1585%N; 1608%N; 1586%N], "today"%string);
    ([1583%N; 1740%N; 1585%N; 1608%N; 1586%N], "yesterday"%string);
    ([1601%N; 1585%N; 1583%N; 1575%N], "tomorrow"%string);
    ([1582%N; 1591%N; 1575%N], "error"%string);
    ([1605%N; 1608%N; 1601%N; 1602%N; 1740%N; 1578%N], "success"%string);
    ([1607%N; 1588%N; 1583%N; 1575%N; 1585%N], "warning"%string);
    ([1575%N; 1591%N; 1604%N; 1575%N; 1593%N], "info"%string);
    ([1576%N; 1604%N; 1607%N], "yes"%string);
    ([1582%N; 1740%N; 1585%N], "no"%string);
    ([1576%N; 1575%N; 1588%N; 1607%N], "ok"%string);
    ([1576%N; 1575%N; 1591%N; 1604%N], "cancel"%string) ].

Record KeyGenerationOptions : Type := {
  maxLength : Z;
  useContext : bool;
  prefix : option jsstring
}.

Record KeyGenerator : Type := {
  options : KeyGenerationOptions;
  usedKeys : gset jsstring
}.

Definition newKeyGenerator (o : KeyGenerationOptions) : KeyGenerator :=
  {| options := o; usedKeys := ∅ |}.

Record GeneratedKey : Type := {
  key : jsstring;
  originalText : jsstring;
  confidence : float;
  suggestions : list jsstring
}.

(** Persian digits U+06F0..U+06F9 and Arabic digits U+0660..U+0669 become
    ASCII digits. *)
Definition ascii_digit (c : N) : N :=
  if ((1776 <=? c) && (c <=? 1785))%N then (c - 1776 + 48)%N
  else if ((1632 <=? c) && (c <=? 1641))%N then (c - 1632 + 48)%N
  else c.

(** [normalizeText]. *)
Definition normalizeText (text : jsstring) : jsstring :=
  List.filter is_text_unit
    (List.map ascii_digit (squeeze_spaces 32 (trim text))).

(** The first loop of [transliterateText]: the whole text is an entry of the
    table. *)
Fixpoint whole_match (table : list (jsstring * jsstring)) (lowerText : jsstring)
  : option jsstring :=
  match table with
  | [] => None
  | (persian, english) :: rest =>
      if bool_decide (lowerText = toLowerCase persian) then Some english
      else whole_match rest lowerText
  end.

(** [TRANSLITERATION_MAP[char] || char]: an entry with an empty rendering
    leaves the character as it is. *)
Definition map_char (c : N) : jsstring :=
  match List.find (fun e => bool_decide (fst e = [c])) TRANSLITERATION_MAP with
  | Some (_, english) => if truthy english then english else [c]
  | None => [c]
  end.

(** [transliterateText]. *)
Definition transliterateText (text : jsstring) : jsstring :=
  match whole_match TRANSLITERATION_MAP (toLowerCase text) with
  | Some english => english
  | None =>
      let result :=
        fold_left
          (fun result e =>
             if 1 <? len (fst e) then replace_all (fst e) (snd e) result
             else result)
          TRANSLITERATION_MAP text in
      List.concat (List.map map_char result)
  end.

(** The [for (const part of parts)] loop of the generator's [truncateKey],
    with its [break]. *)
Fixpoint truncate_parts (maxLen : Z) (parts : list jsstring) (result : jsstring)
  : jsstring :=
  match parts with
  | [] => result
  | part :: rest =>
      if len result + len part + 1 <=? maxLen
      then truncate_parts maxLen rest (Validator.append_part result part)
      else
        let abbreviated :=
          substring0 part (Z.max 1 (maxLen - len result - 1)) in
        if 0 <? len abbreviated
        then Validator.append_part result abbreviated
        else result
  end.

(** [truncateKey] of the generator. *)
Definition truncateKey (o : KeyGenerationOptions) (key : jsstring) : jsstring :=
  if len key <=? maxLength o then key
  else
    let parts := split_underscore key in
    if (length parts =? 1)%nat then substring0 key (maxLength o)
    else
      let result := truncate_parts (maxLength o) parts [] in
      if truthy result then result else substring0 key (maxLength o).

(** [context.toLowerCase().replace(/[^a-z0-9]/g, '')]. *)
Definition context_key (context : jsstring) : jsstring :=
  List.filter (fun c => is_lower c || is_digit c) (toLowerCase context).

(** [createSemanticKey]. *)
Definition createSemanticKey (o : KeyGenerationOptions)
    (transliteratedText : jsstring) (context : option jsstring) : jsstring :=
  let key :=
    trim_one_underscore
      (collapse_underscores
         (squeeze_spaces underscore
            (List.filter (fun c => is_lower c || is_digit c || is_space c)
               (toLowerCase transliteratedText)))) in
  let key :=
    match context with
    | Some ctx =>
        if useContext o && truthy ctx && truthy (context_key ctx)
        then context_key ctx ++ underscore :: key
        else key
    | None => key
    end in
  let key :=
    match prefix o with
    | Some p => if truthy p then p ++ underscore :: key else key
    | None => key
    end in
  let key := if truthy key then key else lit "untranslated_text" in
  if maxLength o <? len key then truncateKey o key else key.

(** The loop of [ensureUniqueness], as in the validator. *)
Fixpoint unique_loop (fuel : nat) (key uniqueKey : jsstring) (counter : N)
  : State KeyGenerator (option jsstring) :=
  match fuel with
  | O => ret None
  | S fuel' =>
      let* used := gets (fun g => bool_decide (uniqueKey ∈ usedKeys g)) in
      if used : bool
      then unique_loop fuel' key (numbered key counter) (counter + 1)%N
      else ret (Some uniqueKey)
  end.

(** [ensureUniqueness] of the generator: it also records the key it returns. *)
Definition ensureUniqueness (key : jsstring) : State KeyGenerator jsstring :=
  let* n := gets (fun g => size (usedKeys g)) in
  let* r := unique_loop (S n) key key 1%N in
  let uniqueKey := default key r in
  let* _ := modify (fun g =>
              {| options := options g; usedKeys := {[uniqueKey]} ∪ usedKeys g |}) in
  ret uniqueKey.

(** The first loop of [calculateConfidence], with its [break]. *)
Fixpoint word_bonus (table : list (jsstring * jsstring)) (lowerOriginal : jsstring)
    (confidence : float) : float :=
  match table with
  | [] => confidence
  | (persian, _) :: rest =>
      if (1 <? len persian) && includes lowerOriginal (toLowerCase persian)
      then (confidence + 0.3)%float
      else word_bonus rest lowerOriginal confidence
  end.

(** [Math.max(0, Math.min(1, x))]. *)
Definition clamp01 (x : float) : float :=
  let m := if PrimFloat.ltb x 1 then x else 1%float in
  if PrimFloat.ltb 0 m then m else 0%float.

(** [calculateConfidence]. *)
Definition calculateConfidence (originalText generatedKey : jsstring) : float :=
  let confidence := 0.5%float in
  let confidence :=
    word_bonus TRANSLITERATION_MAP (toLowerCase originalText) confidence in
  let confidence :=
    if includes generatedKey [underscore] && (3 <? len generatedKey)
    then (confidence + 0.1)%float else confidence in
  let confidence :=
    if (len generatedKey <? 3)
       || bool_decide (generatedKey = lit "untranslated_text")
    then (confidence - 0.2)%float else confidence in
  clamp01 confidence.

(** [text.split(/\s+/)]. *)
Definition split_spaces (s : jsstring) : list jsstring :=
  split_on is_space (squeeze_spaces 32 s).

(** [parts.join('_')]. *)
Fixpoint join_underscore (parts : list jsstring) : jsstring :=
  match parts with
  | [] => []
  | [p] => p
  | p :: rest => p ++ underscore :: join_underscore rest
  end.

(** [generateAlternatives]. *)
Definition generateAlternatives (text : jsstring) (context : option jsstring)
  : list jsstring :=
  let normalizedText := normalizeText text in
  let simpleTransliteration :=
    trim_one_underscore
      (collapse_underscores
         (List.map (fun c => if is_lower c || is_digit c then c else underscore)
            (toLowerCase (transliterateText normalizedText)))) in
  let alternatives := push_if (truthy simpleTransliteration) simpleTransliteration in
  let alternatives :=
    match context with
    | Some ctx =>
        if truthy ctx
        then alternatives ++ [toLowerCase ctx ++ underscore :: simpleTransliteration]
        else alternatives
    | None => alternatives
    end in
  let words := split_spaces normalizedText in
  let abbreviated :=
    join_underscore (List.map (fun word => firstn 1 (transliterateText word)) words) in
  let alternatives :=
    if (1 <? length words)%nat && (1 <? len abbreviated)
    then alternatives ++ [abbreviated] else alternatives in
  firstn 3 alternatives.

(** [generateKey]. *)
Definition generateKey (text : jsstring) (context : option jsstring)
  : State KeyGenerator GeneratedKey :=
  let* o := gets options in
  let normalizedText := normalizeText text in
  let transliteratedText := transliterateText normalizedText in
  let semanticKey := createSemanticKey o transliteratedText context in
  let* finalKey := ensureUniqueness semanticKey in
  ret {| key := finalKey;
         originalText := text;
         confidence := calculateConfidence text finalKey;
         suggestions := generateAlternatives text context |}.

(** [resetUsedKeys] and [addExistingKeys]. *)
Definition resetUsedKeys : State KeyGenerator unit :=
  modify (fun g => {| options := options g; usedKeys := ∅ |}).

Definition addExistingKeys (keys : list jsstring) : State KeyGenerator unit :=
  modify (fun g =>
    {| options := options g; usedKeys := list_to_set keys ∪ usedKeys g |}).

End Generator.

(** * The in-memory duplicate detector ([DuplicateDetector]) *)

Module Detector.

(** [translationData]: locale -> key -> value; [valueToKeys]: locale ->
    normalized value -> keys. *)
Record DuplicateDetector : Type := {
  translationData : gmap jsstring (gmap jsstring jsstring);
  valueToKeys : gmap jsstring (gmap jsstring (list jsstring))
}.

(** The detector after [initializeMaps]. *)
Definition empty : DuplicateDetector :=
  {| translationData := ∅; valueToKeys := ∅ |}.

(** A [DuplicateCheckResult]. Its [similarKeys], suggestions found by edit
    distance that no operation of the tool reads back, are not part of the
    model. *)
Record DuplicateCheckResult : Type := {
  isDuplicate : bool;
  existingKey : option jsstring
}.

(** [normalizeValue]. *)
Definition normalizeValue (value : jsstring) : jsstring :=
  List.filter is_text_unit (squeeze_spaces 32 (toLowerCase (trim value))).

(** One round of the inner loop of [loadTranslationData], also the body of
    [addTranslationEntry]: record the key and file it under its normalized
    value. *)
Definition add_key (key value : jsstring)
    (maps : gmap jsstring jsstring * gmap jsstring (list jsstring))
  : gmap jsstring jsstring * gmap jsstring (list jsstring) :=
  let normalizedValue := normalizeValue value in
  (<[key := value]> (fst maps),
   <[normalizedValue := default [] (snd maps !! normalizedValue) ++ [key]]>
     (snd maps)).

(** [loadTranslationData]: the argument lists, per locale, the entries of
    the locale's translations. *)
Definition loadTranslationData
    (data : list (jsstring * list (jsstring * jsstring)))
  : State DuplicateDetector unit :=
  modify (fun _ =>
    fold_left
      (fun d (entry : jsstring * list (jsstring * jsstring)) =>
         let maps :=
           fold_left (fun m kv => add_key (fst kv) (snd kv) m) (snd entry) (∅, ∅) in
         {| translationData := <[fst entry := fst maps]> (translationData d);
            valueToKeys := <[fst entry := snd maps]> (valueToKeys d) |})
      data empty).

(** [addTranslationEntry]. *)
Definition addTranslationEntry (key value locale : jsstring)
  : State DuplicateDetector unit :=
  modify (fun d =>
    let maps :=
      add_key key value
        (default ∅ (translationData d !! locale),
         default ∅ (valueToKeys d !! locale)) in
    {| translationData := <[locale := fst maps]> (translationData d);
       valueToKeys := <[locale := snd maps]> (valueToKeys d) |}).

(** [localeData && localeData.has(key)]. *)
Definition has_key (d : DuplicateDetector) (locale key : jsstring) : bool :=
  match translationData d !! locale with
  | Some localeData => bool_decide (is_Some (localeData !! key))
  | None => false
  end.

(** [checkKeyDuplicate]: with a locale the key is looked up there, without
    one (or with the empty string) in every locale. *)
Definition checkKeyDuplicate (key : jsstring) (locale : option jsstring)
  : State DuplicateDetector DuplicateCheckResult :=
  gets (fun d =>
    let locales :=
      match locale with
      | Some loc =>
          if truthy loc then [loc]
          else List.map fst (map_to_list (translationData d))
      | None => List.map fst (map_to_list (translationData d))
      end in
    let found := existsb (fun loc => has_key d loc key) locales in
    {| isDuplicate := found;
       existingKey := if found then Some key else None |}).

(** [checkValueDuplicate]. *)
Definition checkValueDuplicate (value locale : jsstring)
  : State DuplicateDetector DuplicateCheckResult :=
  gets (fun d =>
    match valueToKeys d !! locale ≫= (.!! normalizeValue value) with
    | Some existingKeys =>
        {| isDuplicate := true; existingKey := head existingKeys |}
    | None => {| isDuplicate := false; existingKey := None |}
    end).

(** [generateContextualSuffix]. *)
Definition generateContextualSuffix (baseKey context : jsstring) : jsstring :=
  let contextSuffix :=
    trim_one_underscore
      (collapse_underscores
         (List.map (fun c => if is_lower c || is_digit c then c else underscore)
            (toLowerCase context))) in
  if truthy contextSuffix then baseKey ++ underscore :: contextSuffix
  else baseKey ++ lit "_alt".

(** [clear]. *)
Definition clear : State DuplicateDetector unit := modify (fun _ => empty).

(** ** Statistics

    An entry of the record [getDuplicateStats] returns. *)
Record DuplicateStats : Type := {
  totalKeys : nat;
  duplicateValues : nat;
  duplicateKeys : nat
}.

(** One round of its inner loop, on the counters [duplicateValues] and
    [duplicateKeys]. *)
Definition count_group (keys : list jsstring) (counters : nat * nat) : nat * nat :=
  if (1 <? length keys)%nat
  then (S (fst counters), (snd counters + (length keys - 1))%nat)
  else counters.

(** [getDuplicateStats]: the record, by locale. *)
Definition getDuplicateStats
  : State DuplicateDetector (gmap jsstring DuplicateStats) :=
  gets (fun d =>
    map_imap
      (fun locale valueMap =>
         let totalKeys :=
           match translationData d !! locale with
           | Some localeData => size localeData
           | None => 0%nat
           end in
         let counters :=
           map_fold (fun _ keys => count_group keys) (0%nat, 0%nat) valueMap in
         Some {| totalKeys := totalKeys;
                 duplicateValues := fst counters;
                 duplicateKeys := snd counters |})
      (valueToKeys d)).

(** ** The edit distance behind [calculateSimilarity]

    The matrix of [calculateSimilarity] is filled row by row, and a row needs
    the row above it only. [fill_row] is the inner loop for the row of the
    code unit [c] of [str1]: [above] holds the cells above the ones still to
    be filled, [diag] the cell above the last filled one and [left] the last
    filled one. *)
Fixpoint fill_row (c : N) (str2 : jsstring) (above : list Z) (diag left : Z)
  : list Z :=
  match str2, above with
  | c2 :: str2', up :: above' =>
      let cost := if (c =? c2)%N then 0 else 1 in
      let cell := Z.min (Z.min (up + 1) (left + 1)) (diag + cost) in
      cell :: fill_row c str2' above' up cell
  | _, _ => []
  end.

(** Row [i], from [matrix[i] = [i]] and row [i - 1]. *)
Definition next_row (str2 : jsstring) (i : Z) (c : N) (above : list Z) : list Z :=
  match above with
  | diag :: above' => i :: fill_row c str2 above' diag i
  | [] => [i]
  end.

(** Row 0: [matrix[0][j] = j] for [j] from 0 to [len2]. *)
Definition first_row (str2 : jsstring) : list Z :=
  List.map Z.of_nat (seq 0 (S (length str2))).

(** The outer loop: the rows after row [i], one per code unit left of
    [str1]; the result is the last row. *)
Fixpoint fill_rows (str1 str2 : jsstring) (i : Z) (above : list Z) : list Z :=
  match str1 with
  | [] => above
  | c :: str1' => fill_rows str1' str2 (i + 1) (next_row str2 (i + 1) c above)
  end.

(** [matrix[len1][len2]]. *)
Definition editDistance (str1 str2 : jsstring) : Z :=
  List.last (fill_rows str1 str2 0 (first_row str2)) 0.

(** A count as a JavaScript number. *)
Definition number (n : Z) : float := PrimFloat.of_uint63 (Uint63.of_Z n).

(** [calculateSimilarity]. *)
Definition calculateSimilarity (str1 str2 : jsstring) : float :=
  let len1 := len str1 in
  let len2 := len str2 in
  if len1 =? 0 then (if len2 =? 0 then 1%float else 0%float)
  else if len2 =? 0 then 0%float
  else
    let maxLen := Z.max len1 len2 in
    (1 - number (editDistance str1 str2) / number maxLen)%float.

End Detector.

(** * The key manager ([KeyManager]) *)

Module Manager.

Record KeyManager : Type := {
  keyGenerator : Generator.KeyGenerator;
  duplicateDetector : Detector.DuplicateDetector;
  keyValidator : Validator.KeyValidator
}.

(** [new KeyManager(generationOptions, validationRules)]. *)
Definition newKeyManager (o : Generator.KeyGenerationOptions)
    (r : Validator.KeyValidationRules) : KeyManager :=
  {| keyGenerator := Generator.newKeyGenerator o;
     duplicateDetector := Detector.empty;
     keyValidator := Validator.newKeyValidator r |}.

(** A method of one of the three components, run on the manager's copy. *)
Definition onGenerator {A} (m : State Generator.KeyGenerator A) : State KeyManager A :=
  fun km =>
    let (a, g) := m (keyGenerator km) in
    (a, {| keyGenerator := g;
           duplicateDetector := duplicateDetector km;
           keyValidator := keyValidator km |}).

Definition onDetector {A} (m : State Detector.DuplicateDetector A) : State KeyManager A :=
  fun km =>
    let (a, d) := m (duplicateDetector km) in
    (a, {| keyGenerator := keyGenerator km;
           duplicateDetector := d;
           keyValidator := keyValidator km |}).

Definition onValidator {A} (m : State Validator.KeyValidator A) : State KeyManager A :=
  fun km =>
    let (a, v) := m (keyValidator km) in
    (a, {| keyGenerator := keyGenerator km;
           duplicateDetector := duplicateDetector km;
           keyValidator := v |}).

(** The numbering loop of [handleKeyDuplicate]:
    [while (this.keyValidator.isKeyUsed(alternativeKey)) { counter++; alternativeKey = `${key}_${counter}` }],
    entered with [counter = 1]. [None] when the fuel is used up. *)
Fixpoint alternative_loop (fuel : nat) (key : jsstring) (counter : N)
  : State Validator.KeyValidator (option jsstring) :=
  match fuel with
  | O => ret None
  | S fuel' =>
      let* used := Validator.isKeyUsed (numbered key counter) in
      if used : bool
      then alternative_loop fuel' key (counter + 1)%N
      else ret (Some (numbered key counter))
  end.

(** [handleKeyDuplicate]. The numbered candidates are pairwise different, so
    the loop ends within [size usedKeys + 1] rounds and the default is never
    taken ([handleKeyDuplicate_runs] below). *)
Definition handleKeyDuplicate (key : jsstring) (context : option jsstring)
  : State KeyManager jsstring :=
  let* contextual :=
    match context with
    | Some ctx =>
        if truthy ctx then
          let contextualKey := Detector.generateContextualSuffix key ctx in
          let* used := onValidator (Validator.isKeyUsed contextualKey) in
          ret (if used : bool then None else Some contextualKey)
        else ret None
    | None => ret None
    end in
  match contextual with
  | Some contextualKey => ret contextualKey
  | None =>
      let* n := gets (fun km => size (Validator.usedKeys (keyValidator km))) in
      let* r := onValidator (alternative_loop (S n) key 1%N) in
      ret (default (numbered key 1%N) r)
  end.

Record ProcessResult : Type := {
  generatedKey : Generator.GeneratedKey;
  validation : Validator.ValidationResult;
  duplicateCheck : Detector.DuplicateCheckResult;
  finalKey : jsstring
}.

(** [processTextForKey]. *)
Definition processTextForKey (text locale : jsstring) (context : option jsstring)
  : State KeyManager ProcessResult :=
  let* generated := onGenerator (Generator.generateKey text context) in
  let* validation :=
    onValidator (Validator.validateKey (Generator.key generated)) in
  let* finalKey :=
    if Validator.isValid validation then ret (Generator.key generated)
    else onValidator (Validator.normalizeKey (Generator.key generated)) in
  let* keyDuplicateCheck :=
    onDetector (Detector.checkKeyDuplicate finalKey (Some locale)) in
  let* valueDuplicateCheck :=
    onDetector (Detector.checkValueDuplicate text locale) in
  let* finalKey :=
    if Detector.isDuplicate keyDuplicateCheck
    then handleKeyDuplicate finalKey context
    else ret finalKey in
  let* _ := onValidator (Validator.markKeyAsUsed finalKey) in
  ret {| generatedKey :=
           {| Generator.key := finalKey;
              Generator.originalText := Generator.originalText generated;
              Generator.confidence := Generator.confidence generated;
              Generator.suggestions := Generator.suggestions generated |};
         validation := validation;
         duplicateCheck :=
           {| Detector.isDuplicate :=
                Detector.isDuplicate keyDuplicateCheck
                || Detector.isDuplicate valueDuplicateCheck;
              Detector.existingKey :=
                match Detector.existingKey keyDuplicateCheck with
                | Some k => if truthy k then Some k
                            else Detector.existingKey valueDuplicateCheck
                | None => Detector.existingKey valueDuplicateCheck
                end |};
         finalKey := finalKey |}.

(** An element of the array passed to [generateKeys]. *)
Record TextMatch : Type := {
  text : jsstring;
  filePath : jsstring;
  context : option jsstring
}.

(** [generateKeys], on an array of matches. Every step of
    [processTextForKey] is a total function of strings, so nothing is thrown
    inside the [try] and its [catch] is never entered. *)
Fixpoint generateKeys (matches : list TextMatch)
  : State KeyManager (list Generator.GeneratedKey) :=
  match matches with
  | [] => ret []
  | m :: rest =>
      let* result := processTextForKey (text m) (lit "en") (context m) in
      let* results := generateKeys rest in
      ret ({| Generator.key := finalKey result;
              Generator.originalText := text m;
              Generator.confidence := Generator.confidence (generatedKey result);
              Generator.suggestions := Generator.suggestions (generatedKey result) |}
           :: results)
  end.

(** [loadExistingTranslations]. *)
Definition loadExistingTranslations
    (data : list (jsstring * list (jsstring * jsstring)))
  : State KeyManager unit :=
  let* _ := onDetector (Detector.loadTranslationData data) in
  let allKeys := List.concat (List.map (fun e => List.map fst (snd e)) data) in
  let* _ := onValidator (Validator.addExistingKeys allKeys) in
  onGenerator (Generator.addExistingKeys allKeys).

(** [reset]. *)
Definition reset : State KeyManager unit :=
  let* _ := onGenerator Generator.resetUsedKeys in
  let* _ := onDetector Detector.clear in
  onValidator Validator.clearUsedKeys.

(** [addTranslationEntry]. *)
Definition addTranslationEntry (key value locale : jsstring)
  : State KeyManager unit :=
  let* _ := onDetector (Detector.addTranslationEntry key value locale) in
  onValidator (Validator.markKeyAsUsed key).

End Manager.

(** * The locale store ([JSONManager]) *)

Module Json.

(** A parsed locale file, [Record<string, string>]: its entries in the
    order [Object.entries] lists them, every key once. Keys are ordinary
    property names; array-index keys, which JavaScript lists first, are not
    told apart. *)
Abbreviation JSObject := (list (jsstring * jsstring)).

Fixpoint obj_get (o : JSObject) (k : jsstring) : option jsstring :=
  match o with
  | [] => None
  | (k', v) :: rest => if bool_decide (k' = k) then Some v else obj_get rest k
  end.

(** [o[k] = v]: an existing key keeps its place, a new one goes last. *)
Fixpoint obj_set (o : JSObject) (k v : jsstring) : JSObject :=
  match o with
  | [] => [(k, v)]
  | (k', v') :: rest =>
      if bool_decide (k' = k) then (k', v) :: rest
      else (k', v') :: obj_set rest k v
  end.

(** [delete o[k]]. *)
Definition obj_delete (o : JSObject) (k : jsstring) : JSObject :=
  List.filter (fun e => negb (bool_decide (fst e = k))) o.

(** An error object: the [code] of a file-system error ([None] for an error
    without one, such as a [SyntaxError] or a plain [Error]) and its message. *)
Record JsError : Type := { code : option jsstring; message : jsstring }.

(** [new Error(`${what}${error.message}`)]. *)
Definition wrap (what : string) (e : JsError) : JsError :=
  {| code := None; message := lit what ++ message e |}.

(** The text of a file, identified with what [JSON.parse] makes of it: the
    object it denotes, or the [SyntaxError] raised on it. *)
Inductive Content : Type :=
  | JsonText (o : JSObject)
  | Malformed (syntaxError : jsstring).

(** What is found at a path: a file, or something that cannot be opened
    (with the error the file system raises for it). A path not in the map
    does not exist. *)
Inductive Node : Type :=
  | File (c : Content)
  | Unreadable (e : JsError).

Abbreviation FileSystem := (gmap jsstring Node).

Record I18nIntegrationConfig : Type := {
  source : jsstring;        (* locales.source *)
  target : jsstring;        (* locales.target *)
  directory : jsstring      (* translationFiles.directory *)
}.

Definition ENOENT : jsstring := Eval cbv in lit "ENOENT".

(** [fs.readFile(path, 'utf-8')]. *)
Definition readFile (fs : FileSystem) (path : jsstring) : JsError + Content :=
  match fs !! path with
  | Some (File c) => inr c
  | Some (Unreadable e) => inl e
  | None => inl {| code := Some ENOENT;
                   message := lit "ENOENT: no such file or directory" |}
  end.

(** [JSON.parse(content)]. *)
Definition JSON_parse (c : Content) : JsError + JSObject :=
  match c with
  | JsonText o => inr o
  | Malformed msg => inl {| code := None; message := msg |}
  end.

(** [getTranslationFilePath]. *)
Definition getTranslationFilePath (cfg : I18nIntegrationConfig) (locale : jsstring)
  : jsstring :=
  directory cfg ++ lit "/" ++ locale ++ lit ".json".

(** [readTranslationFile]: [inl] is the error thrown to the caller. *)
Definition readTranslationFile (cfg : I18nIntegrationConfig) (fs : FileSystem)
    (locale : jsstring) : JsError + JSObject :=
  let filePath := getTranslationFilePath cfg locale in
  let attempt :=
    match readFile fs filePath with
    | inr content => JSON_parse content
    | inl e => inl e
    end in
  match attempt with
  | inr parsed => inr parsed
  | inl error =>
      if bool_decide (code error = Some ENOENT) then inr []
      else inl (wrap "Failed to read translation file: " error)
  end.

(** Code-unit order of strings, the order of [Array.prototype.sort()]. *)
Fixpoint lex_leb (a b : jsstring) : bool :=
  match a, b with
  | [], _ => true
  | _ :: _, [] => false
  | x :: a', y :: b' => (x <? y)%N || ((x =? y)%N && lex_leb a' b')
  end.

Fixpoint insert_sorted (e : jsstring * jsstring) (o : JSObject) : JSObject :=
  match o with
  | [] => [e]
  | e' :: rest =>
      if lex_leb (fst e) (fst e') then e :: o else e' :: insert_sorted e rest
  end.

(** [sortTranslations]. *)
Definition sortTranslations (translations : JSObject) : JSObject :=
  fold_right insert_sorted [] translations.

(** [fs.writeFile(path, content, 'utf-8')]: a path that cannot be opened
    raises its error, any other path holds the content afterwards. *)
Definition writeFile (fs : FileSystem) (path : jsstring) (c : Content)
  : JsError + FileSystem :=
  match fs !! path with
  | Some (Unreadable e) => inl e
  | _ => inr (<[path := File c]> fs)
  end.

(** [writeTranslationFile]: the text written is the [JSON.stringify] of the
    sorted object. The directory is taken to exist or to be created without
    error. *)
Definition writeTranslationFile (cfg : I18nIntegrationConfig) (fs : FileSystem)
    (locale : jsstring) (translations : JSObject) : JsError + FileSystem :=
  let filePath := getTranslationFilePath cfg locale in
  match writeFile fs filePath (JsonText (sortTranslations translations)) with
  | inr fs' => inr fs'
  | inl error => inl (wrap "Failed to write translation file: " error)
  end.

(** [{ ...existingTranslations, ...newEntries }]: a fresh object that takes
    the entries of the first object and then those of the second one, each
    by an assignment. *)
Definition spread (existingTranslations newEntries : JSObject) : JSObject :=
  fold_left (fun o e => obj_set o (fst e) (snd e))
    (existingTranslations ++ newEntries) [].

(** [updateTranslationFile]: its [catch] throws the error on as it is. *)
Definition updateTranslationFile (cfg : I18nIntegrationConfig) (fs : FileSystem)
    (locale : jsstring) (newEntries : JSObject) : JsError + FileSystem :=
  match readTranslationFile cfg fs locale with
  | inr existingTranslations =>
      writeTranslationFile cfg fs locale (spread existingTranslations newEntries)
  | inl error => inl error
  end.

(** [addTranslationEntry], on the fields of the entry. *)
Definition addTranslationEntry (cfg : I18nIntegrationConfig) (fs : FileSystem)
    (key value locale : jsstring) : JsError + FileSystem :=
  updateTranslationFile cfg fs locale [(key, value)].

(** [getTranslationKeys] and [getTranslationValues]. *)
Definition getTranslationKeys (cfg : I18nIntegrationConfig) (fs : FileSystem)
    (locale : jsstring) : JsError + list jsstring :=
  match readTranslationFile cfg fs locale with
  | inr translations => inr (List.map fst translations)
  | inl error => inl error
  end.

Definition getTranslationValues (cfg : I18nIntegrationConfig) (fs : FileSystem)
    (locale : jsstring) : JsError + list jsstring :=
  match readTranslationFile cfg fs locale with
  | inr translations => inr (List.map snd translations)
  | inl error => inl error
  end.

(** The property names every object made by [JSON.parse] inherits from
    [Object.prototype]: the operator [in] finds them as well. *)
Definition OBJECT_PROTOTYPE_NAMES : list jsstring := Eval cbv in
  List.map lit
    ["constructor"; "hasOwnProperty"; "isPrototypeOf"; "propertyIsEnumerable";
     "toLocaleString"; "toString"; "valueOf"; "__proto__";
     "__defineGetter__"; "__defineSetter__"; "__lookupGetter__";
     "__lookupSetter__"]%string.

(** [key in translations]. *)
Definition has_property (translations : JSObject) (key : jsstring) : bool :=
  bool_decide (is_Some (obj_get translations key))
  || bool_decide (key ∈ OBJECT_PROTOTYPE_NAMES).

(** [keyExists]: a locale that cannot be read has no keys. *)
Definition keyExists (cfg : I18nIntegrationConfig) (fs : FileSystem)
    (locale key : jsstring) : bool :=
  match readTranslationFile cfg fs locale with
  | inr translations => has_property translations key
  | inl _ => false
  end.

End Json.

(** * The store-level duplicate scanner ([DuplicateValueDetector]) *)

Module Scanner.

Import Json.

Record DuplicateValue : Type := {
  value : jsstring;
  keys : list jsstring;
  locales : list jsstring
}.

Inductive Action : Type := consolidate | keep_separate | rename.

Record ConsolidationDecision : Type := {
  action : Action;
  targetKey : option jsstring;
  newKey : option jsstring
}.

(** A property name from an optional field read with [!]: a missing field
    is [undefined], which names the property ["undefined"]. *)
Definition property_name (k : option jsstring) : jsstring :=
  default (lit "undefined") k.

(** The [Map] from value to keys built by [findDuplicatesInLocale], in
    insertion order. [group_key] is one round of its loop. *)
Fixpoint group_key (valueMap : list (jsstring * list jsstring))
    (key value : jsstring) : list (jsstring * list jsstring) :=
  match valueMap with
  | [] => [(value, [key])]
  | (v, ks) :: rest =>
      if bool_decide (v = value) then (v, ks ++ [key]) :: rest
      else (v, ks) :: group_key rest key value
  end.

Definition group_by_value (translations : JSObject)
  : list (jsstring * list jsstring) :=
  fold_left (fun m e => group_key m (fst e) (snd e)) translations [].

(** [findDuplicatesInLocale]: a locale that cannot be read has no
    duplicates. *)
Definition findDuplicatesInLocale (cfg : I18nIntegrationConfig)
    (fs : FileSystem) (locale : jsstring) : list DuplicateValue :=
  match readTranslationFile cfg fs locale with
  | inr translations =>
      List.map
        (fun g => {| value := fst g; keys := snd g; locales := [locale] |})
        (List.filter (fun g => (1 <? length (snd g))%nat)
           (group_by_value translations))
  | inl _ => []
  end.

Inductive Suggestion : Type :=
  | FoundDuplicates (count : nat) (locale : jsstring)
  | ConsiderConsolidating.

Record DuplicateValueReport : Type := {
  totalDuplicates : nat;
  duplicatesByLocale : list (jsstring * list DuplicateValue);
  suggestions : list Suggestion
}.

(** [report.duplicatesByLocale[locale] = duplicates]. *)
Fixpoint set_locale (m : list (jsstring * list DuplicateValue))
    (locale : jsstring) (ds : list DuplicateValue)
  : list (jsstring * list DuplicateValue) :=
  match m with
  | [] => [(locale, ds)]
  | (l, ds') :: rest =>
      if bool_decide (l = locale) then (l, ds) :: rest
      else (l, ds') :: set_locale rest locale ds
  end.

(** [scanForDuplicateValues]. *)
Definition scanForDuplicateValues (cfg : I18nIntegrationConfig) (fs : FileSystem)
  : DuplicateValueReport :=
  let report :=
    fold_left
      (fun report locale =>
         let duplicates := findDuplicatesInLocale cfg fs locale in
         if (0 <? length duplicates)%nat
         then {| totalDuplicates := totalDuplicates report + length duplicates;
                 duplicatesByLocale :=
                   set_locale (duplicatesByLocale report) locale duplicates;
                 suggestions :=
                   suggestions report
                   ++ [FoundDuplicates (length duplicates) locale] |}
         else report)
      [source cfg; target cfg]
      {| totalDuplicates := 0%nat; duplicatesByLocale := []; suggestions := [] |} in
  if (0 <? totalDuplicates report)%nat
  then {| totalDuplicates := totalDuplicates report;
          duplicatesByLocale := duplicatesByLocale report;
          suggestions := suggestions report ++ [ConsiderConsolidating] |}
  else report.

(** [performConsolidation]. *)
Definition performConsolidation (cfg : I18nIntegrationConfig) (fs : FileSystem)
    (locale : jsstring) (translations : JSObject) (duplicateValue : DuplicateValue)
    (targetKey : jsstring) : JsError + FileSystem :=
  let translations := obj_set translations targetKey (value duplicateValue) in
  let translations :=
    fold_left
      (fun t key => if bool_decide (key = targetKey) then t else obj_delete t key)
      (keys duplicateValue) translations in
  writeTranslationFile cfg fs locale translations.

(** [performRename]. *)
Definition performRename (cfg : I18nIntegrationConfig) (fs : FileSystem)
    (locale : jsstring) (translations : JSObject) (duplicateValue : DuplicateValue)
    (newKey : jsstring) : JsError + FileSystem :=
  let translations := obj_set translations newKey (value duplicateValue) in
  let translations := fold_left obj_delete (keys duplicateValue) translations in
  writeTranslationFile cfg fs locale translations.

(** [consolidateDuplicates]: the file system afterwards, or the error
    thrown. *)
Definition consolidateDuplicates (cfg : I18nIntegrationConfig) (fs : FileSystem)
    (locale : jsstring) (duplicateValue : DuplicateValue)
    (decision : ConsolidationDecision) : JsError + FileSystem :=
  let outcome :=
    match readTranslationFile cfg fs locale with
    | inr translations =>
        match action decision with
        | consolidate =>
            performConsolidation cfg fs locale translations duplicateValue
              (property_name (targetKey decision))
        | rename =>
            performRename cfg fs locale translations duplicateValue
              (property_name (newKey decision))
        | keep_separate => inr fs
        end
    | inl e => inl e
    end in
  match outcome with
  | inr fs' => inr fs'
  | inl error => inl (wrap "Failed to consolidate duplicates: " error)
  end.

(** The [DuplicateCheckResult] of [checkValueExists]. *)
Record DuplicateCheckResult : Type := {
  isDuplicate : bool;
  existingKey : option jsstring;
  similarKeys : list jsstring
}.

(** [findSimilarValues]: the keys of the values that contain the target or
    are contained in it, both lowercased and trimmed, for values other than
    the target itself; five at most. *)
Definition findSimilarValues (cfg : I18nIntegrationConfig) (fs : FileSystem)
    (targetValue locale : jsstring) : list jsstring :=
  match readTranslationFile cfg fs locale with
  | inr translations =>
      let targetLower := trim (toLowerCase targetValue) in
      firstn 5
        (List.map fst
           (List.filter
              (fun e =>
                 let valueLower := trim (toLowerCase (snd e)) in
                 (includes valueLower targetLower || includes targetLower valueLower)
                 && negb (bool_decide (snd e = targetValue)))
              translations))
  | inl _ => []
  end.

(** [checkValueExists]. *)
Definition checkValueExists (cfg : I18nIntegrationConfig) (fs : FileSystem)
    (value locale : jsstring) : DuplicateCheckResult :=
  match readTranslationFile cfg fs locale with
  | inr translations =>
      let existingKeys :=
        List.map fst
          (List.filter (fun e => bool_decide (snd e = value)) translations) in
      let similarKeys := findSimilarValues cfg fs value locale in
      {| isDuplicate := (0 <? length existingKeys)%nat;
         existingKey := head existingKeys;
         similarKeys :=
           List.filter (fun key => negb (bool_decide (key ∈ existingKeys)))
             similarKeys |}
  | inl _ => {| isDuplicate := false; existingKey := None; similarKeys := [] |}
  end.

End Scanner.

(** * The backup system ([BackupSystem]) *)

Module Backup.

(** A manifest [backup-info.json]. The [timestamp], an ISO date in the file,
    is kept as the number [new Date(timestamp).getTime()] reads from it. *)
Record BackupInfo : Type := {
  id : jsstring;
  timestamp : Z;
  files : list jsstring;
  description : jsstring
}.

(** An entry of the [.backups] directory: a plain file, or a directory with
    its manifest ([None] when [backup-info.json] is missing or does not
    parse). *)
Inductive Entry : Type :=
  | PlainFile
  | Directory (manifest : option BackupInfo).

(** The [.backups] directory: entry names and entries in the order [readdir]
    returns them, every name once. A missing directory has no entries. *)
Abbreviation BackupDir := (list (jsstring * Entry)).

(** One step of the stable sort behind
    [backups.sort((a, b) => time(b) - time(a))]: [b] goes in front of the
    first backup that is not newer. *)
Fixpoint insert_newest_first (b : BackupInfo) (sorted : list BackupInfo)
  : list BackupInfo :=
  match sorted with
  | [] => [b]
  | b' :: rest =>
      if timestamp b' <=? timestamp b then b :: sorted
      else b' :: insert_newest_first b rest
  end.

Definition sort_newest_first (backups : list BackupInfo) : list BackupInfo :=
  fold_right insert_newest_first [] backups.

(** The manifests [listBackups] collects before it sorts them. *)
Definition manifests (dir : BackupDir) : list BackupInfo :=
  List.concat
    (List.map
       (fun e => match snd e with
                 | Directory (Some info) => [info]
                 | _ => []
                 end)
       dir).

(** [listBackups]. *)
Definition listBackups (dir : BackupDir) : list BackupInfo :=
  sort_newest_first (manifests dir).

Inductive DeleteError : Type :=
  | BackupNotFound
  | FailedToDelete.

(** [deleteBackup]: a directory of that name is removed with all it holds;
    no entry of that name is [ENOENT]; a plain file of that name cannot be
    listed as a directory. *)
Definition deleteBackup (dir : BackupDir) (backupId : jsstring)
  : DeleteError + BackupDir :=
  match List.find (fun e => bool_decide (fst e = backupId)) dir with
  | Some (_, Directory _) =>
      inr (List.filter (fun e => negb (bool_decide (fst e = backupId))) dir)
  | Some (_, PlainFile) => inl FailedToDelete
  | None => inl BackupNotFound
  end.

(** [cleanupOldBackups(keepCount)], for a count [keepCount]: a failed
    deletion is logged and the loop goes on. *)
Definition cleanupOldBackups (dir : BackupDir) (keepCount : nat) : BackupDir :=
  let backups := listBackups dir in
  if (length backups <=? keepCount)%nat then dir
  else
    fold_left
      (fun dir backup =>
         match deleteBackup dir (id backup) with
         | inr dir' => dir'
         | inl _ => dir
         end)
      (skipn keepCount backups) dir.

(** ** Snapshots: [createBackup] and [restoreBackup]

    What a file holds, as far as the backup system can tell: the JSON text
    of a manifest, or any other text, which has no list of files to go
    through. *)
Inductive Data : Type :=
  | ManifestText (info : BackupInfo)
  | OtherText (text : jsstring).

(** An entry of the translation directory other than [.backups]: a regular
    file, a regular file that cannot be opened (reading or writing it raises
    the error), or a directory. *)
Inductive Item : Type :=
  | Regular (data : Data)
  | Locked (e : Json.JsError)
  | Folder.

(** An entry of [.backups] with what it holds: a plain file, or a directory
    with its regular files by name. *)
Inductive Stored : Type :=
  | StoredFile
  | StoredDir (content : gmap jsstring Data).

(** The translation directory and, inside it, [.backups]. File names are
    taken to be base names: none has a path separator in it. *)
Record Disk : Type := {
  translationDir : gmap jsstring Item;
  backupDir : gmap jsstring Stored
}.

Definition MANIFEST : jsstring := Eval cbv in lit "backup-info.json".

(** What [listBackups] and [deleteBackup] see of [.backups]: [readdir] lists
    the entries in the order of the map. *)
Definition manifest_of (content : gmap jsstring Data) : option BackupInfo :=
  match content !! MANIFEST with
  | Some (ManifestText info) => Some info
  | _ => None
  end.

Definition entry_of (s : Stored) : Entry :=
  match s with
  | StoredFile => PlainFile
  | StoredDir content => Directory (manifest_of content)
  end.

Definition listing (d : Disk) : BackupDir :=
  map_to_list (entry_of <$> backupDir d).

Inductive SnapshotError : Type :=
  | NoSuchBackup            (* Backup not found: ... *)
  | FailedToCreate          (* Failed to create backup: ... *)
  | FailedToRestore.        (* Failed to restore backup: ... *)

(** One round of the loops of [getTranslationFiles] and [createBackup]: a
    regular file whose name ends in [.json] is copied, replacing a file of
    that name already in the backup, and its name is recorded; one that
    cannot be copied is passed over; a directory is not listed. *)
Definition copy_step (fileName : jsstring) (item : Item)
    (acc : list jsstring * gmap jsstring Data)
  : list jsstring * gmap jsstring Data :=
  if endsWith fileName (lit ".json") then
    match item with
    | Regular data => (fst acc ++ [fileName], <[fileName := data]> (snd acc))
    | Locked _ => acc
    | Folder => acc
    end
  else acc.

(** [createBackup], for the identifier [generateBackupId] makes up and the
    time the clock gives: the disk afterwards, or the error thrown. An entry
    of [.backups] with that identifier is used as it is: files are copied
    into a directory, and nothing can be written under a plain file. *)
Definition createBackup (backupId : jsstring) (now : Z) (description : jsstring)
    (d : Disk) : SnapshotError + Disk :=
  match backupDir d !! backupId with
  | Some StoredFile => inl FailedToCreate
  | existing =>
      let content :=
        match existing with Some (StoredDir content) => content | _ => ∅ end in
      let copied := map_fold copy_step ([], content) (translationDir d) in
      let backupInfo :=
        {| id := backupId; timestamp := now; files := fst copied;
           description := description |} in
      inr {| translationDir := translationDir d;
             backupDir :=
               <[backupId :=
                   StoredDir (<[MANIFEST := ManifestText backupInfo]> (snd copied))]>
                 (backupDir d) |}
  end.

(** The loop of [restoreBackup]: a listed file that the backup does not hold
    stops it with [ENOENT], reported as a backup not found; one that cannot
    be written stops it with the error of the write. The files restored
    before stay restored. *)
Fixpoint restore_files (content : gmap jsstring Data) (fileNames : list jsstring)
    (dir : gmap jsstring Item) : option SnapshotError * gmap jsstring Item :=
  match fileNames with
  | [] => (None, dir)
  | fileName :: rest =>
      match content !! fileName with
      | None => (Some NoSuchBackup, dir)
      | Some data =>
          match dir !! fileName with
          | Some (Locked e) =>
              (Some (if bool_decide (Json.code e = Some Json.ENOENT)
                     then NoSuchBackup else FailedToRestore), dir)
          | Some Folder => (Some FailedToRestore, dir)
          | _ => restore_files content rest (<[fileName := Regular data]> dir)
          end
      end
  end.

(** [restoreBackup]: the error thrown, if any, and the disk afterwards. *)
Definition restoreBackup (backupId : jsstring) (d : Disk)
  : option SnapshotError * Disk :=
  match backupDir d !! backupId with
  | None => (Some NoSuchBackup, d)
  | Some StoredFile => (Some FailedToRestore, d)
  | Some (StoredDir content) =>
      match content !! MANIFEST with
      | None => (Some NoSuchBackup, d)
      | Some (OtherText _) => (Some FailedToRestore, d)
      | Some (ManifestText backupInfo) =>
          let restored :=
            restore_files content (files backupInfo) (translationDir d) in
          (fst restored,
           {| translationDir := snd restored; backupDir := backupDir d |})
      end
  end.

End Backup.

(** * Notions used to state the properties *)

(** The shape [sanitizeKey] leaves: characters of [[a-z0-9_]] only, no two
    underscores in a row, none at either end. *)
Definition key_shape (k : jsstring) : bool :=
  forallb key_char k
  && negb (Validator.has_double_underscore k)
  && negb (starts_underscore k)
  && negb (ends_underscore k).

(** A key the default rules can accept as far as its characters go: of the
    shape above, not empty and not made of digits only. *)
Definition proper_key (k : jsstring) : bool :=
  key_shape k && truthy k && negb (forallb is_digit k).

(** [calculateConfidence] adds 0.3 when the lowercased text contains a
    table entry of more than one character. *)
Definition contains_table_word (text : jsstring) : bool :=
  existsb
    (fun e => (1 <? len (fst e)) && includes (toLowerCase text) (toLowerCase (fst e)))
    Generator.TRANSLITERATION_MAP.

(** The text is itself a table entry of more than one character. *)
Definition is_table_word (text : jsstring) : bool :=
  existsb
    (fun e => (1 <? len (fst e))
              && bool_decide (toLowerCase text = toLowerCase (fst e)))
    Generator.TRANSLITERATION_MAP.

(** The score by a rule for the 0.3: 0.5, plus 0.3 under [bonus], plus 0.1
    for a key with an underscore and more than three characters, minus 0.2
    for a key of fewer than three characters or the fallback key, clamped to
    [0, 1]. *)
Definition confidence_formula (bonus : bool) (generatedKey : jsstring) : float :=
  let word := if bonus then 0.3%float else 0%float in
  let shape :=
    if includes generatedKey [underscore] && (3 <? len generatedKey)
    then 0.1%float else 0%float in
  let penalty :=
    if (len generatedKey <? 3)
       || bool_decide (generatedKey = lit "untranslated_text")
    then 0.2%float else 0%float in
  Generator.clamp01 (0.5 + word + shape - penalty)%float.


(** The keys of an object, in its order, whose value is exactly [v]. *)
Definition keys_with_value (o : Json.JSObject) (v : jsstring) : list jsstring :=
  List.map fst (List.filter (fun e => bool_decide (snd e = v)) o).

(** The keys of the entries, in their order, whose value has the normalized
    form [normalizedValue]. *)
Definition keys_with_normalized_value (entries : list (jsstring * jsstring))
    (normalizedValue : jsstring) : list jsstring :=
  List.map fst
    (List.filter
       (fun e => bool_decide (Detector.normalizeValue (snd e) = normalizedValue))
       entries).

(** The number of keys filed in a map from values to keys. *)
Definition filed_keys (valueMap : gmap jsstring (list jsstring)) : nat :=
  map_fold (fun _ keys n => (n + length keys)%nat) 0%nat valueMap.

(** The edit distance of two strings by its recurrence, on strings read
    from the end that the recurrence takes apart: removing, adding or
    replacing a code unit costs 1. *)
Fixpoint distance (s : jsstring) : jsstring -> Z :=
  fix inner (t : jsstring) : Z :=
    match s, t with
    | [], _ => len t
    | _, [] => len s
    | x :: s', y :: t' =>
        Z.min (Z.min (distance s' t + 1) (inner t' + 1))
              (distance s' t' + (if (x =? y)%N then 0 else 1))
    end.

(** The distances from [s] to [todo] read one code unit further at a time,
    after [read]. *)
Fixpoint distance_row (s read todo : jsstring) : list Z :=
  match todo with
  | [] => []
  | y :: todo' => distance s (y :: read) :: distance_row s (y :: read) todo'
  end.

(** [createBackup] copies the file of that name: a regular file that can
    be read, with a name that ends in [.json]. *)
Definition backed_up (dir : gmap jsstring Backup.Item) (name : jsstring) : bool :=
  match dir !! name with
  | Some (Backup.Regular _) => endsWith name (lit ".json")
  | _ => false
  end.

(** [copyFile] can write the file of that name: nothing in its place, or a
    regular file that can be opened. *)
Definition writable (dir : gmap jsstring Backup.Item) (name : jsstring) : bool :=
  match dir !! name with
  | Some (Backup.Locked _) | Some Backup.Folder => false
  | _ => true
  end.

(** * Sample data *)

Definition sample_config : Json.I18nIntegrationConfig :=
  {| Json.source := lit "fa"; Json.target := lit "en";
     Json.directory := lit "locales" |}.

(** The text "ذخیره" (save). *)
Definition zakhire : jsstring := [1584; 1582; 1740; 1585; 1607]%N.

(** The text "سلام دنیا" (hello world). *)
Definition salam_donya : jsstring :=
  [1587; 1604; 1575; 1605; 32; 1583; 1606; 1740; 1575]%N.

(** The locale file [{"save_btn": "ذخیره", "confirm_save": "ذخیره"}]. *)
Definition sample_store : Json.FileSystem :=
  {[ lit "locales/fa.json" :=
       Json.File (Json.JsonText [(lit "save_btn", zakhire);
                                 (lit "confirm_save", zakhire)]) ]}.

Definition sample_duplicate : Scanner.DuplicateValue :=
  {| Scanner.value := zakhire;
     Scanner.keys := [lit "save_btn"; lit "confirm_save"];
     Scanner.locales := [lit "fa"] |}.

(** The locale file [{"a": "Save", "b": "save "}]. *)
Definition sample_near_duplicates : Json.FileSystem :=
  {[ lit "locales/fa.json" :=
       Json.File (Json.JsonText [(lit "a", lit "Save"); (lit "b", lit "save ")]) ]}.

(** A [.backups] directory with three backups, one plain file and one
    directory without a manifest. *)
Definition sample_backup (name : string) (time : Z) : jsstring * Backup.Entry :=
  (lit name,
   Backup.Directory
     (Some {| Backup.id := lit name; Backup.timestamp := time;
              Backup.files := [lit "fa.json"];
              Backup.description := lit "Automatic backup" |})).

Definition sample_backups : Backup.BackupDir :=
  [ sample_backup "backup-b" 2000;
    (lit "notes.txt", Backup.PlainFile);
    sample_backup "backup-c" 3000;
    (lit "broken", Backup.Directory None);
    sample_backup "backup-a" 1000 ].

(** A key manager with the default options of the configuration
    ([maxLength = 50], [useContext = true]) and the default validation rules,
    after loading the translations [{"en": {"btn_save": "Save"}}]. *)
Definition sample_manager : Manager.KeyManager :=
  execState
    (Manager.loadExistingTranslations
       [(lit "en", [(lit "btn_save", lit "Save")])])
    (Manager.newKeyManager
       {| Generator.maxLength := 50;
          Generator.useContext := true;
          Generator.prefix := None |}
       Validator.DEFAULT_KEY_RULES).

(** A batch: the text "ذخیره" in two contexts and the text "سلام دنیا". *)
Definition sample_matches : list Manager.TextMatch :=
  [ {| Manager.text := zakhire; Manager.filePath := lit "pages/index.vue";
       Manager.context := Some (lit "btn") |};
    {| Manager.text := zakhire; Manager.filePath := lit "pages/about.vue";
       Manager.context := Some (lit "label") |};
    {| Manager.text := salam_donya;
       Manager.filePath := lit "pages/index.vue";
       Manager.context := None |} ].

(** The default rules on a validator that has ["hello_world"] in use. *)
Definition sample_validator : Validator.KeyValidator :=
  {| Validator.rules := Validator.DEFAULT_KEY_RULES;
     Validator.usedKeys := {[ lit "hello_world" ]} |}.

(** The default rules with [allowedCharacters = /^[a-z]+$/]. *)
Definition letters_only_rules : Validator.KeyValidationRules :=
  {| Validator.maxLength := 100;
     Validator.minLength := 2;
     Validator.allowedCharacters := fun k => truthy k && forallb is_lower k;
     Validator.forbiddenPatterns :=
       Validator.forbiddenPatterns Validator.DEFAULT_KEY_RULES;
     Validator.reservedWords := Validator.DEFAULT_RESERVED_WORDS;
     Validator.requirePrefix := None;
     Validator.requireSuffix := None;
     Validator.caseSensitive := false |}.

(** The default rules with [requireSuffix = "txt"], on a validator that has
    ["x_y_txt"] in use. *)
Definition suffix_validator : Validator.KeyValidator :=
  {| Validator.rules :=
       {| Validator.maxLength := 100;
          Validator.minLength := 2;
          Validator.allowedCharacters := Validator.only_key_chars;
          Validator.forbiddenPatterns :=
            Validator.forbiddenPatterns Validator.DEFAULT_KEY_RULES;
          Validator.reservedWords := Validator.DEFAULT_RESERVED_WORDS;
          Validator.requirePrefix := None;
          Validator.requireSuffix := Some (lit "txt");
          Validator.caseSensitive := false |};
     Validator.usedKeys := {[ lit "x_y_txt" ]} |}.

(** Generator options with the smallest length ceiling the configuration
    allows. *)
Definition sample_options : Generator.KeyGenerationOptions :=
  {| Generator.maxLength := 10;
     Generator.useContext := true;
     Generator.prefix := None |}.

(** Validation rules with the same ceiling. *)
Definition sample_rules : Validator.KeyValidationRules :=
  {| Validator.maxLength := 10;
     Validator.minLength := 2;
     Validator.allowedCharacters := Validator.only_key_chars;
     Validator.forbiddenPatterns :=
       Validator.forbiddenPatterns Validator.DEFAULT_KEY_RULES;
     Validator.reservedWords := Validator.DEFAULT_RESERVED_WORDS;
     Validator.requirePrefix := None;
     Validator.requireSuffix := None;
     Validator.caseSensitive := false |}.

(** A locale directory where [fa.json] does not parse. *)
Definition sample_malformed_store : Json.FileSystem :=
  {[ lit "locales/fa.json" :=
       Json.File (Json.Malformed (lit "Unexpected end of JSON input")) ]}.

(** A translation directory with two locale files, a text file and a
    directory, and no backups yet. *)
Definition sample_disk : Backup.Disk :=
  {| Backup.translationDir :=
       {[ lit "fa.json" := Backup.Regular (Backup.OtherText (lit "{'save': 'zakhire'}"));
          lit "en.json" := Backup.Regular (Backup.OtherText (lit "{'save': 'Save'}"));
          lit "notes.txt" := Backup.Regular (Backup.OtherText (lit "to do"));
          lit "drafts" := Backup.Folder ]};
     Backup.backupDir := ∅ |}.

(** The sample directory after [createBackup] has run at time 1000 with the
    identifier ["backup-a"]. *)
Definition sample_disk_backed_up : Backup.Disk :=
  match Backup.createBackup (lit "backup-a") 1000 (lit "Automatic backup")
          sample_disk with
  | inr d => d
  | inl _ => sample_disk
  end.

(** The sample directory after a second [createBackup], at time 2000 with
    the identifier ["backup-b"]. *)
Definition sample_disk_backed_up_twice : Backup.Disk :=
  match Backup.createBackup (lit "backup-b") 2000 (lit "Before writing fa")
          sample_disk_backed_up with
  | inr d => d
  | inl _ => sample_disk_backed_up
  end.

(** The sample directory after its first backup, once [fa.json] was
    overwritten and [de.json] was added. *)
Definition sample_disk_changed : Backup.Disk :=
  {| Backup.translationDir :=
       <[lit "fa.json" := Backup.Regular (Backup.OtherText (lit "{}"))]>
         (<[lit "de.json" := Backup.Regular (Backup.OtherText (lit "{}"))]>
            (Backup.translationDir sample_disk_backed_up));
     Backup.backupDir := Backup.backupDir sample_disk_backed_up |}.
(** * Properties *)

(** ** Strings *)

Lemma len_nonneg (s : jsstring) : 0 <= len s.
Proof. unfold len. lia. Qed.

Lemma len_app (a b : jsstring) : len (a ++ b) = len a + len b.
Proof. unfold len. rewrite length_app. lia. Qed.

Lemma len_cons (c : N) (s : jsstring) : len (c :: s) = 1 + len s.
Proof. unfold len. simpl length. lia. Qed.

Lemma truthy_true (s : jsstring) : truthy s = true <-> s <> [].
Proof. destruct s; simpl; split; congruence. Qed.

Lemma truthy_false (s : jsstring) : truthy s = false <-> s = [].
Proof. destruct s; simpl; split; congruence. Qed.

Lemma uint_units_inj (d d' : Decimal.uint) :
  uint_units d = uint_units d' -> d = d'.
Proof.
  revert d'. induction d; destruct d'; simpl; intros H;
    try discriminate; try reflexivity;
    injection H as H; f_equal; auto.
Qed.

Lemma decimal_inj (n m : N) : decimal n = decimal m -> n = m.
Proof.
  unfold decimal. intros H. apply uint_units_inj in H.
  now apply Unsigned.to_uint_inj.
Qed.

Lemma numbered_inj (key : jsstring) (n m : N) :
  numbered key n = numbered key m -> n = m.
Proof.
  unfold numbered. intros H. apply app_inv_head in H.
  injection H as H. now apply decimal_inj.
Qed.

Lemma numbered_longer (key : jsstring) (n : N) : len key < len (numbered key n).
Proof. unfold numbered. rewrite len_app, len_cons. pose proof (len_nonneg (decimal n)). lia. Qed.

Lemma numbered_neq (key : jsstring) (n : N) : numbered key n <> key.
Proof. intros H. pose proof (numbered_longer key n) as L. rewrite H in L. lia. Qed.

(** ** The uniqueness loops *)

(** The candidates a numbering loop goes through from [counter] on. *)
Lemma numbered_seq_NoDup (key : jsstring) (n : nat) (counter : N) :
  NoDup (List.map (fun i => numbered key (counter + N.of_nat i)%N) (seq 0 n)).
Proof.
  apply NoDup_fmap_2_strong.
  - intros i j _ _ H. apply numbered_inj in H. lia.
  - apply NoDup_ListNoDup, seq_NoDup.
Qed.

Lemma used_pigeonhole (used : gset jsstring) (l : list jsstring) :
  NoDup l -> (forall x, x ∈ l -> x ∈ used) -> (length l <= size used)%nat.
Proof.
  intros ND Hin.
  rewrite <- (size_list_to_set (C := gset jsstring) l) by exact ND.
  apply subseteq_size. intros x Hx. apply Hin. set_solver.
Qed.

Lemma first_unused_fresh (used : gset jsstring) (fuel : nat)
    (key u : jsstring) (c : N) (k : jsstring) :
  first_unused used fuel key u c = Some k -> k ∉ used.
Proof.
  revert u c. induction fuel as [|fuel IH]; simpl; intros u c H; [discriminate|].
  case_bool_decide; [eauto|]. now inversion H; subst.
Qed.

Lemma first_unused_None (used : gset jsstring) (fuel : nat) (key : jsstring) (c : N) :
  first_unused used fuel key (numbered key c) (c + 1)%N = None ->
  forall i, (i < fuel)%nat -> numbered key (c + N.of_nat i)%N ∈ used.
Proof.
  revert c. induction fuel as [|fuel IH]; simpl; intros c H i Hi; [lia|].
  case_bool_decide as Hc; [|discriminate].
  destruct i as [|i].
  - now replace (c + N.of_nat 0)%N with c by lia.
  - replace (c + N.of_nat (S i))%N with ((c + 1) + N.of_nat i)%N by lia.
    apply IH; [exact H | lia].
Qed.

Lemma first_unused_numbered_Some (used : gset jsstring) (key : jsstring) (c : N) (fuel : nat) :
  (size used < fuel)%nat ->
  is_Some (first_unused used fuel key (numbered key c) (c + 1)%N).
Proof.
  intros Hfuel.
  destruct (first_unused used fuel key (numbered key c) (c + 1)%N) eqn:E; [eauto|].
  exfalso.
  pose proof (first_unused_None _ _ _ _ E) as Hall.
  assert (length (List.map (fun i => numbered key (c + N.of_nat i)%N) (seq 0 fuel))
          <= size used)%nat as L.
  { apply used_pigeonhole; [apply numbered_seq_NoDup|].
    intros x Hx. apply list_elem_of_In, in_map_iff in Hx as (i & <- & Hi).
    apply in_seq in Hi. apply Hall. lia. }
  rewrite length_map, length_seq in L. lia.
Qed.

Lemma first_unused_Some (used : gset jsstring) (key : jsstring) :
  is_Some (first_unused used (S (size used)) key key 1%N).
Proof.
  destruct (first_unused used (S (size used)) key key 1%N) eqn:E; [eauto|].
  exfalso. simpl in E. case_bool_decide as Hk; [|discriminate].
  pose proof (first_unused_None _ _ _ _ E) as Hall.
  assert (length (key :: List.map (fun i => numbered key (1 + N.of_nat i)%N)
                           (seq 0 (size used))) <= size used)%nat as L.
  { apply used_pigeonhole.
    - constructor; [|apply numbered_seq_NoDup].
      intros Hin. apply list_elem_of_In, in_map_iff in Hin as (i & Hi & _).
      now apply numbered_neq in Hi.
    - intros x Hx. apply elem_of_cons in Hx as [->|Hx]; [exact Hk|].
      apply list_elem_of_In, in_map_iff in Hx as (i & <- & Hi).
      apply in_seq in Hi. apply Hall. lia. }
  simpl in L. rewrite length_map, length_seq in L. lia.
Qed.

Lemma first_unused_unused (used : gset jsstring) (fuel : nat)
    (key u : jsstring) (c : N) :
  u ∉ used -> first_unused used (S fuel) key u c = Some u.
Proof. intros H. simpl. now case_bool_decide. Qed.

(** The result of the search is the key itself or a numbered key. *)
Lemma first_unused_shape (used : gset jsstring) (fuel : nat)
    (key u : jsstring) (c : N) (k : jsstring) :
  first_unused used fuel key u c = Some k -> k = u \/ exists n, k = numbered key n.
Proof.
  revert u c. induction fuel as [|fuel IH]; simpl; intros u c H; [discriminate|].
  case_bool_decide.
  - apply IH in H as [->|H]; eauto.
  - inversion H; auto.
Qed.

(** ** The validator's loops and its state *)

Lemma V_unique_loop_run (fuel : nat) (key u : jsstring) (c : N)
    (v : Validator.KeyValidator) :
  Validator.unique_loop fuel key u c v
  = (first_unused (Validator.usedKeys v) fuel key u c, v).
Proof.
  revert u c. induction fuel as [|fuel IH]; intros u c; [reflexivity|].
  simpl. unfold bind, Validator.isKeyUsed, gets, ret.
  case_bool_decide; [apply IH | reflexivity].
Qed.

Lemma V_ensureUniqueness_run (key : jsstring) (v : Validator.KeyValidator) :
  Validator.ensureUniqueness key v
  = (default key (first_unused (Validator.usedKeys v)
                    (S (size (Validator.usedKeys v))) key key 1%N), v).
Proof.
  unfold Validator.ensureUniqueness, bind, gets, ret.
  now rewrite V_unique_loop_run.
Qed.

(** Enough fuel: the loop of [ensureUniqueness] ends, with the key that
    [ensureUniqueness] returns, and leaves the validator as it was. *)
Lemma ensureUniqueness_runs (key : jsstring) (v : Validator.KeyValidator) :
  Validator.unique_loop (S (size (Validator.usedKeys v))) key key 1%N v
  = (Some (evalState (Validator.ensureUniqueness key) v), v).
Proof.
  rewrite V_unique_loop_run. unfold evalState.
  rewrite V_ensureUniqueness_run. cbn [fst].
  destruct (first_unused_Some (Validator.usedKeys v) key) as [k Hk].
  now rewrite Hk.
Qed.

Lemma ensureUniqueness_fresh (key : jsstring) (v : Validator.KeyValidator) :
  evalState (Validator.ensureUniqueness key) v ∉ Validator.usedKeys v.
Proof.
  unfold evalState. rewrite V_ensureUniqueness_run. cbn [fst].
  destruct (first_unused_Some (Validator.usedKeys v) key) as [k Hk].
  rewrite Hk. cbn [default]. eapply first_unused_fresh, Hk.
Qed.

Lemma ensureUniqueness_unused (key : jsstring) (v : Validator.KeyValidator) :
  key ∉ Validator.usedKeys v ->
  evalState (Validator.ensureUniqueness key) v = key.
Proof.
  intros H. unfold evalState. rewrite V_ensureUniqueness_run. cbn [fst].
  now rewrite first_unused_unused.
Qed.

Lemma ensureUniqueness_shape (key : jsstring) (v : Validator.KeyValidator) :
  evalState (Validator.ensureUniqueness key) v = key
  \/ exists n, evalState (Validator.ensureUniqueness key) v = numbered key n.
Proof.
  unfold evalState. rewrite V_ensureUniqueness_run. cbn [fst].
  destruct (first_unused_Some (Validator.usedKeys v) key) as [k Hk].
  rewrite Hk. cbn [default]. apply first_unused_shape in Hk. exact Hk.
Qed.

Lemma normalizeKey_run (key : jsstring) (v : Validator.KeyValidator) :
  Validator.normalizeKey key v
  = (if truthy key
     then evalState (Validator.ensureUniqueness
                       (Validator.normalize_shape (Validator.rules v) key)) v
     else lit "invalid_key", v).
Proof.
  unfold Validator.normalizeKey. destruct (truthy key); simpl; [|reflexivity].
  unfold bind, gets, evalState. now rewrite V_ensureUniqueness_run.
Qed.

(** ** The shape of a sanitized key *)

(** Case analysis on the comparisons of a character class. *)
Ltac class_cases :=
  repeat match goal with
         | |- context [(?a <=? ?b)%N] => destruct (N.leb_spec a b)
         | H : context [(?a <=? ?b)%N] |- _ => destruct (N.leb_spec a b)
         | |- context [(?a =? ?b)%N] => destruct (N.eqb_spec a b)
         | H : context [(?a =? ?b)%N] |- _ => destruct (N.eqb_spec a b)
         end.

Lemma key_char_underscore : key_char underscore = true.
Proof. reflexivity. Qed.

Lemma is_underscore_eq (c : N) : is_underscore c = true -> c = underscore.
Proof. unfold is_underscore. now intros H%N.eqb_eq. Qed.

Lemma replace_invalid_chars (s : jsstring) :
  forallb key_char (replace_invalid s) = true.
Proof.
  induction s as [|c s IH]; [reflexivity|]. simpl.
  destruct (key_char c) eqn:E; simpl; now rewrite ?E, IH.
Qed.

Lemma replace_invalid_id (s : jsstring) :
  forallb key_char s = true -> replace_invalid s = s.
Proof.
  induction s as [|c s IH]; [reflexivity|]. simpl.
  intros [Hc Hs]%andb_true_iff. now rewrite Hc, IH.
Qed.

Lemma collapse_cons (c : N) (s : jsstring) :
  collapse_underscores (c :: s)
  = if is_underscore c
    then if starts_underscore s then collapse_underscores s
         else underscore :: collapse_underscores s
    else c :: collapse_underscores s.
Proof.
  unfold collapse_underscores. destruct s as [|c' s]; simpl;
    now destruct (is_underscore c).
Qed.

Lemma has_double_cons (c : N) (s : jsstring) :
  Validator.has_double_underscore (c :: s)
  = (is_underscore c && starts_underscore s)
    || Validator.has_double_underscore s.
Proof. destruct s; simpl; [now rewrite andb_false_r | reflexivity]. Qed.

Lemma ends_underscore_cons (c : N) (s : jsstring) :
  ends_underscore (c :: s)
  = if truthy s then ends_underscore s else is_underscore c.
Proof. now destruct s. Qed.

Lemma drop_trailing_cons (P : N -> bool) (c : N) (s : jsstring) :
  drop_trailing P (c :: s)
  = if truthy (drop_trailing P s) then c :: drop_trailing P s
    else if P c then [] else [c].
Proof. simpl. now destruct (drop_trailing P s). Qed.

Lemma collapse_chars (s : jsstring) :
  forallb key_char s = true ->
  forallb key_char (collapse_underscores s) = true.
Proof.
  induction s as [|c s IH]; [reflexivity|].
  intros [Hc Hs]%andb_true_iff. specialize (IH Hs). rewrite collapse_cons.
  destruct (is_underscore c), (starts_underscore s); simpl;
    now rewrite ?Hc, ?IH.
Qed.

Lemma collapse_head (s : jsstring) :
  starts_underscore (collapse_underscores s) = starts_underscore s.
Proof.
  induction s as [|c s IH]; [reflexivity|]. rewrite collapse_cons.
  destruct (is_underscore c) eqn:Ec; [|simpl; now rewrite Ec].
  destruct (starts_underscore s) eqn:Es; simpl; now rewrite ?IH, ?Ec.
Qed.

Lemma collapse_no_double (s : jsstring) :
  Validator.has_double_underscore (collapse_underscores s) = false.
Proof.
  induction s as [|c s IH]; [reflexivity|]. rewrite collapse_cons.
  destruct (is_underscore c) eqn:Ec.
  - destruct (starts_underscore s) eqn:Es; [exact IH|].
    now rewrite has_double_cons, collapse_head, Es, IH, andb_false_r.
  - now rewrite has_double_cons, Ec, IH.
Qed.

Lemma collapse_id (s : jsstring) :
  Validator.has_double_underscore s = false -> collapse_underscores s = s.
Proof.
  induction s as [|c s IH]; [reflexivity|].
  rewrite has_double_cons, collapse_cons.
  intros [H1 H2]%orb_false_iff. rewrite (IH H2).
  destruct (is_underscore c) eqn:Ec; [|reflexivity].
  rewrite andb_true_l in H1. rewrite H1. f_equal. symmetry.
  now apply is_underscore_eq.
Qed.

(** Dropping the leading run. *)
Lemma drop_leading_chars (P : N -> bool) (s : jsstring) :
  forallb P s = true -> forallb P (drop_leading is_underscore s) = true.
Proof.
  induction s as [|c s IH]; [reflexivity|]. simpl drop_leading.
  destruct (is_underscore c); [|easy].
  intros [_ Hs]%andb_true_iff. auto.
Qed.

Lemma drop_leading_no_double (s : jsstring) :
  Validator.has_double_underscore s = false ->
  Validator.has_double_underscore (drop_leading is_underscore s) = false.
Proof.
  induction s as [|c s IH]; [reflexivity|]. simpl drop_leading.
  destruct (is_underscore c); [|easy].
  rewrite has_double_cons. intros [_ H]%orb_false_iff. auto.
Qed.

Lemma drop_leading_head (s : jsstring) :
  starts_underscore (drop_leading is_underscore s) = false.
Proof.
  induction s as [|c s IH]; [reflexivity|]. simpl drop_leading.
  destruct (is_underscore c) eqn:Ec; [exact IH | exact Ec].
Qed.

Lemma drop_leading_id (s : jsstring) :
  starts_underscore s = false -> drop_leading is_underscore s = s.
Proof. destruct s as [|c s]; [reflexivity|]. simpl. now intros ->. Qed.

(** Dropping the trailing run. *)
Lemma drop_trailing_chars (P : N -> bool) (s : jsstring) :
  forallb P s = true -> forallb P (drop_trailing is_underscore s) = true.
Proof.
  induction s as [|c s IH]; [reflexivity|].
  intros [Hc Hs]%andb_true_iff. specialize (IH Hs). rewrite drop_trailing_cons.
  destruct (truthy _); [simpl; now rewrite Hc, IH|].
  destruct (is_underscore c); simpl; now rewrite ?Hc.
Qed.

Lemma drop_trailing_head (s : jsstring) :
  starts_underscore s = false ->
  starts_underscore (drop_trailing is_underscore s) = false.
Proof.
  destruct s as [|c s]; [reflexivity|]. intros Hc.
  change (is_underscore c = false) in Hc.
  rewrite drop_trailing_cons. destruct (truthy _); [exact Hc|].
  rewrite Hc. exact Hc.
Qed.

Lemma drop_trailing_starts (s : jsstring) :
  starts_underscore (drop_trailing is_underscore s) = true ->
  starts_underscore s = true.
Proof.
  destruct (starts_underscore s) eqn:E; [reflexivity|].
  now rewrite drop_trailing_head.
Qed.

Lemma drop_trailing_no_double (s : jsstring) :
  Validator.has_double_underscore s = false ->
  Validator.has_double_underscore (drop_trailing is_underscore s) = false.
Proof.
  induction s as [|c s IH]; [reflexivity|].
  rewrite has_double_cons. intros [H1 H2]%orb_false_iff. specialize (IH H2).
  rewrite drop_trailing_cons. destruct (truthy _).
  - rewrite has_double_cons, IH, orb_false_r.
    destruct (is_underscore c); [|reflexivity]. rewrite andb_true_l in *.
    destruct (starts_underscore (drop_trailing is_underscore s)) eqn:E;
      [|reflexivity].
    apply drop_trailing_starts in E. congruence.
  - now destruct (is_underscore c).
Qed.

Lemma drop_trailing_end (s : jsstring) :
  ends_underscore (drop_trailing is_underscore s) = false.
Proof.
  induction s as [|c s IH]; [reflexivity|]. rewrite drop_trailing_cons.
  destruct (truthy (drop_trailing is_underscore s)) eqn:E.
  - now rewrite ends_underscore_cons, E.
  - destruct (is_underscore c) eqn:Ec; [reflexivity|]. simpl. exact Ec.
Qed.

Lemma drop_trailing_id (s : jsstring) :
  ends_underscore s = false -> drop_trailing is_underscore s = s.
Proof.
  induction s as [|c s IH]; [reflexivity|].
  rewrite ends_underscore_cons, drop_trailing_cons.
  destruct s as [|c' s].
  - simpl. now intros ->.
  - cbn [truthy]. intros H. rewrite (IH H). reflexivity.
Qed.

(** A sanitized key: characters of the key alphabet, no run of
    underscores, no underscore at either end. *)
Lemma sanitizeKey_clean (s : jsstring) :
  key_shape (Validator.sanitizeKey s) = true.
Proof.
  unfold key_shape, Validator.sanitizeKey, trim_underscores.
  rewrite drop_trailing_chars, drop_trailing_no_double, drop_trailing_head,
    drop_trailing_end; try reflexivity.
  - apply drop_leading_head.
  - apply drop_leading_no_double, collapse_no_double.
  - apply drop_leading_chars, collapse_chars, replace_invalid_chars.
Qed.

Lemma key_shape_iff (k : jsstring) :
  key_shape k = true <->
  forallb key_char k = true /\ Validator.has_double_underscore k = false
  /\ starts_underscore k = false /\ ends_underscore k = false.
Proof.
  unfold key_shape. rewrite !andb_true_iff, !negb_true_iff. tauto.
Qed.

Lemma sanitizeKey_id (k : jsstring) :
  key_shape k = true -> Validator.sanitizeKey k = k.
Proof.
  intros (Hc & Hd & Hs & He)%key_shape_iff.
  unfold Validator.sanitizeKey, trim_underscores.
  rewrite replace_invalid_id, collapse_id, drop_leading_id, drop_trailing_id;
    auto.
Qed.

Lemma lower_unit_key_char (c : N) : key_char c = true -> lower_unit c = c.
Proof.
  unfold key_char, lower_unit, is_lower, is_digit, is_underscore, is_upper,
    underscore.
  intros H. class_cases; simpl in *; try reflexivity; try discriminate; lia.
Qed.

Lemma toLowerCase_id (k : jsstring) :
  forallb key_char k = true -> toLowerCase k = k.
Proof.
  induction k as [|c k IH]; [reflexivity|]. simpl.
  intros [Hc Hk]%andb_true_iff. now rewrite lower_unit_key_char, IH.
Qed.

(** ** What [validateKey] accepts *)

Lemma push_if_nil {A} (b : bool) (a : A) : push_if b a = [] <-> b = false.
Proof. destruct b; simpl; split; congruence. Qed.

Lemma isValid_iff (v : Validator.KeyValidator) (k : jsstring) :
  Validator.isValid (Validator.validated v k) = true <->
  truthy k = true
  /\ (len k <? Validator.minLength (Validator.rules v)) = false
  /\ (Validator.maxLength (Validator.rules v) <? len k) = false
  /\ Validator.allowedCharacters (Validator.rules v) k = true
  /\ List.filter (fun p => Validator.pattern_test p k)
       (Validator.forbiddenPatterns (Validator.rules v)) = []
  /\ Validator.is_reserved (Validator.rules v) k = false
  /\ k ∉ Validator.usedKeys v.
Proof.
  unfold Validator.validated, evalState, Validator.validateKey.
  destruct (truthy k) eqn:Ek; simpl.
  2:{ split; [discriminate | intros (? & _); discriminate]. }
  unfold bind, gets, Validator.isKeyUsed, ret. simpl.
  rewrite Nat.eqb_eq, length_zero_iff_nil.
  rewrite !app_nil.
  rewrite !push_if_nil, negb_false_iff, bool_decide_eq_false.
  split.
  - intros (H1 & H2 & H3 & H4 & H5 & H6). repeat split; auto.
    now apply map_eq_nil in H4.
  - intros (_ & H1 & H2 & H3 & H4 & H5 & H6). repeat split; auto.
    now rewrite H4.
Qed.

(** ** Keys joined by an underscore *)

Lemma starts_underscore_app (a b : jsstring) :
  a <> [] -> starts_underscore (a ++ b) = starts_underscore a.
Proof. now destruct a. Qed.

Lemma ends_underscore_app (a b : jsstring) :
  b <> [] -> ends_underscore (a ++ b) = ends_underscore b.
Proof.
  intros Hb. induction a as [|c a IH]; [reflexivity|].
  simpl app. rewrite ends_underscore_cons, IH.
  destruct (a ++ b) eqn:E; [|reflexivity].
  now apply app_eq_nil in E as [_ ->].
Qed.

Lemma has_double_app (a b : jsstring) :
  Validator.has_double_underscore a = false ->
  Validator.has_double_underscore b = false ->
  ends_underscore a && starts_underscore b = false ->
  Validator.has_double_underscore (a ++ b) = false.
Proof.
  intros Ha Hb Hab. induction a as [|c a IH]; [exact Hb|].
  simpl app. rewrite has_double_cons in Ha |- *.
  apply orb_false_iff in Ha as [Ha1 Ha2].
  rewrite ends_underscore_cons in Hab.
  destruct a as [|c' a].
  - simpl in *. now rewrite Hab, Hb.
  - cbn [truthy] in Hab. rewrite (IH Ha2 Hab), orb_false_r.
    simpl app. exact Ha1.
Qed.

Lemma key_shape_join (a b : jsstring) :
  key_shape a = true -> key_shape b = true -> a <> [] -> b <> [] ->
  key_shape (a ++ underscore :: b) = true.
Proof.
  intros (Ha1 & Ha2 & Ha3 & Ha4)%key_shape_iff
         (Hb1 & Hb2 & Hb3 & Hb4)%key_shape_iff Ha Hb.
  apply key_shape_iff. repeat split.
  - rewrite forallb_app. simpl. now rewrite Ha1, Hb1.
  - apply has_double_app; auto.
    + rewrite has_double_cons, Hb3, Hb2. now rewrite andb_false_r.
    + now rewrite Ha4.
  - now rewrite starts_underscore_app.
  - rewrite ends_underscore_app by discriminate.
    rewrite ends_underscore_cons. destruct b; [contradiction|]. exact Hb4.
Qed.

Lemma join_not_digits (a b : jsstring) :
  forallb is_digit (a ++ underscore :: b) = false.
Proof. rewrite forallb_app. simpl. now rewrite andb_false_r. Qed.

Lemma proper_key_iff (k : jsstring) :
  proper_key k = true <->
  key_shape k = true /\ k <> [] /\ forallb is_digit k = false.
Proof.
  unfold proper_key.
  rewrite !andb_true_iff, negb_true_iff, truthy_true. tauto.
Qed.

Lemma proper_key_join (a b : jsstring) :
  key_shape a = true -> key_shape b = true -> a <> [] -> b <> [] ->
  proper_key (a ++ underscore :: b) = true.
Proof.
  intros. apply proper_key_iff. repeat split.
  - now apply key_shape_join.
  - now destruct a.
  - apply join_not_digits.
Qed.

(** A string without underscores, such as a number or a word. *)
Lemma plain_key_shape (k : jsstring) :
  forallb (fun c => key_char c && negb (is_underscore c)) k = true ->
  key_shape k = true.
Proof.
  intros H. apply key_shape_iff.
  assert (forall s, forallb (fun c => key_char c && negb (is_underscore c)) s = true ->
            forallb key_char s = true /\ Validator.has_double_underscore s = false
            /\ starts_underscore s = false /\ ends_underscore s = false) as G.
  { induction s as [|c s IH]; [easy|]. simpl forallb.
    intros [[Hc Hu%negb_true_iff]%andb_true_iff Hs]%andb_true_iff.
    destruct (IH Hs) as (I1 & I2 & I3 & I4).
    rewrite has_double_cons, ends_underscore_cons, Hc, I1, I2, Hu.
    repeat split; auto. now destruct (truthy s). }
  now apply G.
Qed.

Lemma forallb_weaken (P Q : N -> bool) (s : jsstring) :
  (forall c, P c = true -> Q c = true) ->
  forallb P s = true -> forallb Q s = true.
Proof.
  intros HPQ. induction s as [|c s IH]; [reflexivity|]. simpl.
  intros [Hc Hs]%andb_true_iff. now rewrite (HPQ c Hc), IH.
Qed.

Lemma digit_plain (c : N) :
  is_digit c = true -> key_char c && negb (is_underscore c) = true.
Proof.
  unfold key_char, is_lower, is_digit, is_underscore, underscore. intros H.
  class_cases; simpl in *; try reflexivity; try discriminate; lia.
Qed.

Lemma digits_key_shape (k : jsstring) :
  forallb is_digit k = true -> key_shape k = true.
Proof.
  intros H. apply plain_key_shape.
  eapply forallb_weaken; [exact digit_plain | exact H].
Qed.

Lemma firstn_forallb (P : N -> bool) (n : nat) (s : jsstring) :
  forallb P s = true -> forallb P (firstn n s) = true.
Proof.
  revert n. induction s as [|c s IH]; intros [|n]; try reflexivity.
  simpl. intros [Hc Hs]%andb_true_iff. now rewrite Hc, IH.
Qed.

Lemma decimal_digits (n : N) : forallb is_digit (decimal n) = true.
Proof.
  unfold decimal. induction (N.to_uint n); simpl; auto.
Qed.

Lemma decimal_nonempty (n : N) : decimal n <> [].
Proof.
  unfold decimal. intros E.
  pose proof (Unsigned.of_to n) as H.
  destruct (N.to_uint n) eqn:En; try discriminate E.
  destruct n; [discriminate En | discriminate H].
Qed.

(** [key_N] for a proper key. *)
Lemma numbered_proper (k : jsstring) (n : N) :
  proper_key k = true -> proper_key (numbered k n) = true.
Proof.
  intros (Hs & Hne & _)%proper_key_iff. unfold numbered.
  apply proper_key_join; auto using digits_key_shape, decimal_digits,
    decimal_nonempty.
Qed.

(** ** The default rules *)

Lemma reserved_words_plain :
  Forall (fun w => forallb (fun c => negb (is_underscore c)) w = true)
    Validator.DEFAULT_RESERVED_WORDS.
Proof. repeat constructor. Qed.

Lemma with_underscore_not_reserved (a b : jsstring) :
  forallb key_char (a ++ underscore :: b) = true ->
  Validator.is_reserved Validator.DEFAULT_KEY_RULES (a ++ underscore :: b) = false.
Proof.
  intros Hc. unfold Validator.is_reserved. simpl.
  rewrite (toLowerCase_id _ Hc). apply bool_decide_eq_false. intros Hin.
  pose proof reserved_words_plain as F.
  rewrite Forall_forall in F. apply F in Hin.
  rewrite forallb_app in Hin. simpl in Hin.
  now rewrite andb_false_r in Hin.
Qed.

Lemma key_shape_chars (k : jsstring) :
  key_shape k = true -> forallb key_char k = true.
Proof. now intros (H & _)%key_shape_iff. Qed.

Lemma proper_key_shape (k : jsstring) : proper_key k = true -> key_shape k = true.
Proof. now intros (H & _)%proper_key_iff. Qed.

(** ** [normalizeKey] under the default rules *)

Lemma split_on_plain (P : N -> bool) (s : jsstring) :
  forallb (fun c => negb (P c)) s = true -> split_on P s = [s].
Proof.
  induction s as [|c s IH]; [reflexivity|]. simpl.
  intros [Hc%negb_true_iff Hs]%andb_true_iff. now rewrite Hc, IH.
Qed.

Lemma split_on_app (P : N -> bool) (a b : jsstring) (sep : N) :
  forallb (fun c => negb (P c)) a = true -> P sep = true ->
  split_on P (a ++ sep :: b) = a :: split_on P b.
Proof.
  intros Ha Hsep. induction a as [|c a IH]; simpl.
  - now rewrite Hsep.
  - simpl in Ha. apply andb_true_iff in Ha as [Hc%negb_true_iff Ha].
    now rewrite Hc, IH.
Qed.

Lemma digit_not_underscore (c : N) :
  is_digit c = true -> negb (is_underscore c) = true.
Proof. intros H%digit_plain. now apply andb_true_iff in H. Qed.

Lemma fix_forbidden_default (k : jsstring) :
  key_shape k = true -> k <> [] ->
  Validator.fix_forbidden
    (Validator.forbiddenPatterns Validator.DEFAULT_KEY_RULES) k
  = if forallb is_digit k then lit "key_" ++ k else k.
Proof.
  intros Hk Hne. pose proof Hk as (H1 & H2 & H3 & H4)%key_shape_iff.
  assert (forallb is_underscore k = false) as Hu.
  { destruct k as [|c k]; [contradiction|]. simpl in H3 |- *. now rewrite H3. }
  pose proof Hne as Ht%truthy_true.
  unfold Validator.fix_forbidden.
  cbn [fold_left Validator.forbiddenPatterns Validator.DEFAULT_KEY_RULES].
  cbn [Validator.pattern_test]. rewrite Ht, Hu. cbn [andb].
  destruct (forallb is_digit k) eqn:Hd.
  - cbn [Validator.fixForbiddenPattern Validator.pattern_test].
    assert (key_shape (lit "key" ++ underscore :: k) = true) as Hj.
    { apply key_shape_join; auto; try reflexivity; discriminate. }
    change (lit "key_" ++ k) with (lit "key" ++ underscore :: k).
    apply key_shape_iff in Hj as (J1 & J2 & J3 & J4).
    rewrite Ht. cbn [andb]. now rewrite J2, J3, J4.
  - cbn [Validator.pattern_test]. rewrite Ht. cbn [andb].
    now rewrite H2, H3, H4.
Qed.

Lemma truncate_key_digits (d : jsstring) :
  forallb is_digit d = true -> 100 < 4 + len d ->
  Validator.truncateKey Validator.DEFAULT_KEY_RULES (lit "key_" ++ d)
  = lit "key" ++ underscore :: firstn 96 d.
Proof.
  intros Hd Hlen. unfold Validator.truncateKey.
  change (lit "key_" ++ d) with (lit "key" ++ underscore :: d).
  assert (len (lit "key" ++ underscore :: d) = 4 + len d) as L.
  { rewrite len_app, len_cons. change (len (lit "key")) with 3. lia. }
  rewrite L. simpl Validator.maxLength.
  destruct (Z.leb_spec (4 + len d) 100) as [|_]; [lia|].
  unfold split_underscore.
  rewrite split_on_app, split_on_plain; try reflexivity.
  2:{ eapply forallb_weaken; [exact digit_not_underscore | exact Hd]. }
  cbn [length Nat.eqb Validator.truncate_parts].
  change (len [] + len (lit "key") + 1 <=? 100) with true. cbv iota.
  change (Validator.append_part [] (lit "key")) with (lit "key").
  change (len (lit "key")) with 3.
  destruct (Z.leb_spec (3 + len d + 1) 100) as [|_]; [lia|].
  reflexivity.
Qed.

Lemma reserved_words_short :
  Forall (fun w => len w <= 9) Validator.DEFAULT_RESERVED_WORDS.
Proof. repeat constructor; cbv; discriminate. Qed.

Lemma reserved_short (k : jsstring) :
  forallb key_char k = true ->
  Validator.is_reserved Validator.DEFAULT_KEY_RULES k = true -> len k <= 9.
Proof.
  intros Hc. unfold Validator.is_reserved. simpl.
  rewrite (toLowerCase_id _ Hc). intros Hin%bool_decide_eq_true.
  pose proof reserved_words_short as F. rewrite Forall_forall in F.
  now apply F.
Qed.

Lemma padKey_default_short (k : jsstring) :
  len k < 2 ->
  Validator.padKey Validator.DEFAULT_KEY_RULES k = k ++ underscore :: lit "key".
Proof.
  intros H. unfold Validator.padKey. simpl Validator.minLength.
  destruct (Z.leb_spec 2 (len k)) as [|_]; [lia|].
  rewrite len_app, len_cons. change (len (lit "key")) with 3.
  pose proof (len_nonneg k).
  destruct (Z.leb_spec 2 (len k + (1 + 3))) as [_|]; [reflexivity | lia].
Qed.

Lemma normalize_shape_default_eq (s : jsstring) :
  Validator.normalize_shape Validator.DEFAULT_KEY_RULES s
  = let n3 := Validator.fix_forbidden
                (Validator.forbiddenPatterns Validator.DEFAULT_KEY_RULES)
                (Validator.sanitizeKey (toLowerCase s)) in
    let n4 := if 100 <? len n3
              then Validator.truncateKey Validator.DEFAULT_KEY_RULES n3
              else n3 in
    let n5 := if len n4 <? 2
              then Validator.padKey Validator.DEFAULT_KEY_RULES n4
              else n4 in
    if Validator.is_reserved Validator.DEFAULT_KEY_RULES n5
    then n5 ++ lit "_key" else n5.
Proof. reflexivity. Qed.

Lemma key_suffix_proper (k : jsstring) :
  key_shape k = true -> k <> [] ->
  proper_key (k ++ lit "_key") = true
  /\ Validator.is_reserved Validator.DEFAULT_KEY_RULES (k ++ lit "_key") = false
  /\ len (k ++ lit "_key") = len k + 4.
Proof.
  intros Hk Hne. change (k ++ lit "_key") with (k ++ underscore :: lit "key").
  assert (proper_key (k ++ underscore :: lit "key") = true) as Hp.
  { apply proper_key_join; auto; try reflexivity; discriminate. }
  repeat split; [exact Hp | |].
  - apply with_underscore_not_reserved, key_shape_chars, proper_key_shape, Hp.
  - rewrite len_app, len_cons. change (len (lit "key")) with 3. lia.
Qed.

(** The key [normalizeKey] hands to its uniqueness loop, under the default
    rules, when sanitizing leaves something and no more than [maxLength]. *)
Lemma normalize_shape_default (s : jsstring) :
  Validator.sanitizeKey (toLowerCase s) <> [] ->
  len (Validator.sanitizeKey (toLowerCase s)) <= 100 ->
  proper_key (Validator.normalize_shape Validator.DEFAULT_KEY_RULES s) = true
  /\ 2 <= len (Validator.normalize_shape Validator.DEFAULT_KEY_RULES s) <= 100
  /\ Validator.is_reserved Validator.DEFAULT_KEY_RULES
       (Validator.normalize_shape Validator.DEFAULT_KEY_RULES s) = false.
Proof.
  intros Hne Hlen. rewrite normalize_shape_default_eq.
  pose proof (sanitizeKey_clean (toLowerCase s)) as Hk.
  set (k0 := Validator.sanitizeKey (toLowerCase s)) in *.
  rewrite (fix_forbidden_default k0 Hk Hne). cbv zeta.
  pose proof (len_nonneg k0) as Hpos.
  destruct (forallb is_digit k0) eqn:Hd.
  - (* digits only: prefixed with key_, cut to length if need be *)
    assert (len (lit "key_" ++ k0) = 4 + len k0) as L.
    { rewrite len_app. change (len (lit "key_")) with 4. lia. }
    assert (exists d, forallb is_digit d = true /\ d <> [] /\ len d <= 96
              /\ (if 100 <? len (lit "key_" ++ k0)
                  then Validator.truncateKey Validator.DEFAULT_KEY_RULES
                         (lit "key_" ++ k0)
                  else lit "key_" ++ k0) = lit "key" ++ underscore :: d)
      as (d & Dd & Dne & Dlen & ->).
    { rewrite L. destruct (Z.ltb_spec 100 (4 + len k0)).
      - exists (firstn 96 k0). rewrite truncate_key_digits by (auto; lia).
        repeat split; auto using firstn_forallb.
        + intros E. apply (f_equal (@length N)) in E.
          rewrite firstn_length_le in E by (unfold len in *; lia).
          discriminate E.
        + unfold len. rewrite firstn_length_le by (unfold len in *; lia). lia.
      - exists k0. repeat split; auto. lia. }
    assert (len (lit "key" ++ underscore :: d) = 4 + len d) as Ld.
    { rewrite len_app, len_cons. change (len (lit "key")) with 3. lia. }
    pose proof (len_nonneg d). rewrite Ld.
    destruct (Z.ltb_spec (4 + len d) 2); [lia|].
    assert (proper_key (lit "key" ++ underscore :: d) = true) as Hp.
    { apply proper_key_join; auto using digits_key_shape; try reflexivity;
        try discriminate. }
    rewrite with_underscore_not_reserved
      by apply key_shape_chars, proper_key_shape, Hp.
    rewrite Ld. repeat split; auto; lia.
  - (* not digits only: no cut *)
    destruct (Z.ltb_spec 100 (len k0)); [lia|].
    destruct (Z.ltb_spec (len k0) 2).
    + rewrite padKey_default_short by lia.
      change (k0 ++ underscore :: lit "key") with (k0 ++ lit "_key").
      destruct (key_suffix_proper k0 Hk Hne) as (P1 & P2 & P3).
      rewrite P2, P3. repeat split; auto; lia.
    + destruct (Validator.is_reserved Validator.DEFAULT_KEY_RULES k0) eqn:Hr.
      * destruct (key_suffix_proper k0 Hk Hne) as (P1 & P2 & P3).
        pose proof (reserved_short k0 (key_shape_chars _ Hk) Hr).
        rewrite P3. repeat split; auto; lia.
      * repeat split; auto; try lia.
        apply proper_key_iff. auto.
Qed.

Lemma numbered_not_reserved (k : jsstring) (n : N) :
  proper_key k = true ->
  Validator.is_reserved Validator.DEFAULT_KEY_RULES (numbered k n) = false.
Proof.
  intros Hp. unfold numbered. apply with_underscore_not_reserved.
  apply key_shape_chars, proper_key_shape.
  change (proper_key (numbered k n) = true). now apply numbered_proper.
Qed.

(** ** A validator with the default rules *)

Section DefaultRules.

Variable v : Validator.KeyValidator.
Hypothesis default_rules : Validator.rules v = Validator.DEFAULT_KEY_RULES.

(** What the default rules accept. *)
Lemma default_valid_iff (k : jsstring) :
  Validator.isValid (Validator.validated v k) = true <->
  proper_key k = true /\ 2 <= len k <= 100
  /\ Validator.is_reserved Validator.DEFAULT_KEY_RULES k = false
  /\ k ∉ Validator.usedKeys v.
Proof.
  rewrite isValid_iff, default_rules. simpl.
  rewrite proper_key_iff, key_shape_iff, truthy_true.
  unfold Validator.only_key_chars.
  rewrite !Z.ltb_ge.
  split.
  - intros (H1 & H2 & H3 & H4 & H5 & H6 & H7).
    apply truthy_true in H1. rewrite H1 in *. simpl in H4.
    destruct (forallb is_underscore k) eqn:E1; [discriminate|].
    destruct (forallb is_digit k) eqn:E2; [discriminate|].
    destruct (Validator.has_double_underscore k) eqn:E3; [discriminate|].
    destruct (starts_underscore k || ends_underscore k) eqn:E4; [discriminate|].
    apply orb_false_iff in E4 as [E4 E5].
    apply truthy_true in H1. repeat split; try assumption; try lia; auto.
  - intros (((H1 & H2 & H3 & H4) & H5 & H6) & H7 & H8 & H9).
    apply truthy_true in H5. rewrite H5, H1, H2, H3, H4, H6. simpl.
    assert (forallb is_underscore k = false) as ->.
    { destruct k as [|c k]; [discriminate|]. simpl in H3 |- *. now rewrite H3. }
    repeat split; try assumption; try lia; auto. now apply truthy_true.
Qed.

(** What [normalizeKey] returns under the default rules for a key that
    sanitizes to something of at most [maxLength] characters: a proper key
    of at least two characters, not a reserved word and not in use. *)
Lemma normalized_default_key (s : jsstring) :
  Validator.sanitizeKey (toLowerCase s) <> [] ->
  len (Validator.sanitizeKey (toLowerCase s)) <= 100 ->
  proper_key (Validator.normalized v s) = true
  /\ 2 <= len (Validator.normalized v s)
  /\ Validator.is_reserved Validator.DEFAULT_KEY_RULES (Validator.normalized v s)
     = false
  /\ Validator.normalized v s ∉ Validator.usedKeys v.
Proof.
  intros Hne Hlen.
  assert (truthy s = true) as Hs by (destruct s; [now elim Hne | reflexivity]).
  destruct (normalize_shape_default s Hne Hlen) as (Hp & Hl & Hres).
  unfold Validator.normalized, evalState.
  rewrite normalizeKey_run, Hs, default_rules. cbn [fst].
  set (k := Validator.normalize_shape Validator.DEFAULT_KEY_RULES s) in *.
  pose proof (ensureUniqueness_fresh k v) as Hfresh.
  destruct (ensureUniqueness_shape k v) as [E | [n E]]; rewrite E in *.
  - repeat split; auto; lia.
  - pose proof (numbered_longer k n).
    repeat split; auto using numbered_proper, numbered_not_reserved; lia.
Qed.

(** A key the default rules accept is left as it is by [normalizeKey]. *)
Lemma valid_normalized_fixed (k : jsstring) :
  Validator.isValid (Validator.validated v k) = true ->
  Validator.normalized v k = k.
Proof.
  intros (Hp & Hl & Hres & Hun)%default_valid_iff.
  pose proof Hp as (Hk & Hne & Hd)%proper_key_iff.
  unfold Validator.normalized, evalState. rewrite normalizeKey_run, default_rules.
  apply truthy_true in Hne as Ht. rewrite Ht. cbn [fst].
  assert (Validator.normalize_shape Validator.DEFAULT_KEY_RULES k = k) as ->.
  { rewrite normalize_shape_default_eq.
    rewrite (toLowerCase_id _ (key_shape_chars _ Hk)), (sanitizeKey_id _ Hk).
    rewrite (fix_forbidden_default k Hk Hne), Hd. cbv zeta.
    destruct (Z.ltb_spec 100 (len k)); [lia|].
    destruct (Z.ltb_spec (len k) 2); [lia|].
    now rewrite Hres. }
  now apply ensureUniqueness_unused.
Qed.

(** C2, amended: under the default rules, for every set of used keys and
    every string whose lowercased and sanitized form is not empty and has at
    most [maxLength] characters, the key [normalizeKey] returns passes
    [validateKey] on the same validator, provided it has itself at most
    [maxLength] characters (it has whenever the uniqueness loop adds no
    suffix). *)
Theorem normalizeKey_valid (s : jsstring) :
  Validator.sanitizeKey (toLowerCase s) <> [] ->
  len (Validator.sanitizeKey (toLowerCase s))
    <= Validator.maxLength Validator.DEFAULT_KEY_RULES ->
  len (Validator.normalized v s)
    <= Validator.maxLength Validator.DEFAULT_KEY_RULES ->
  Validator.isValid (Validator.validated v (Validator.normalized v s)) = true.
Proof.
  intros Hne Hlen Hout. simpl in Hlen, Hout.
  destruct (normalized_default_key s Hne Hlen) as (Hp & Hl & Hres & Hfresh).
  apply default_valid_iff. repeat split; auto.
Qed.

(** C3, amended: under the default rules, for every set of used keys and
    every string whose lowercased and sanitized form is not empty and has at
    most [maxLength] characters, normalizing the result of [normalizeKey]
    again on the same validator returns it unchanged, provided that result
    has at most [maxLength] characters. *)
Theorem normalizeKey_idempotent (s : jsstring) :
  Validator.sanitizeKey (toLowerCase s) <> [] ->
  len (Validator.sanitizeKey (toLowerCase s))
    <= Validator.maxLength Validator.DEFAULT_KEY_RULES ->
  len (Validator.normalized v s)
    <= Validator.maxLength Validator.DEFAULT_KEY_RULES ->
  Validator.normalized v (Validator.normalized v s) = Validator.normalized v s.
Proof.
  intros Hne Hlen Hout. simpl in Hlen, Hout.
  destruct (normalized_default_key s Hne Hlen) as (Hp & Hl & Hres & Hfresh).
  apply valid_normalized_fixed.
  apply default_valid_iff. repeat split; auto.
Qed.

End DefaultRules.

(** ** Claims about the validator *)

(** C2, as stated, fails. Under the default rules and with no key in use,
    [normalizeKey("___")] is ["_key"], which [validateKey] rejects for its
    leading underscore. Under rules that allow lowercase letters only,
    [normalizeKey("save btn")] is ["save_btn"], which [validateKey] rejects
    for its underscore: the sanitizer works with the alphabet [[a-z0-9_]]
    whatever the rules say. *)
Lemma normalizeKey_result_invalid :
  Validator.normalized (Validator.newKeyValidator Validator.DEFAULT_KEY_RULES)
    (lit "___") = lit "_key"
  /\ Validator.isValid
       (Validator.validated (Validator.newKeyValidator Validator.DEFAULT_KEY_RULES)
          (Validator.normalized
             (Validator.newKeyValidator Validator.DEFAULT_KEY_RULES) (lit "___")))
     = false
  /\ Validator.normalized (Validator.newKeyValidator letters_only_rules)
       (lit "save btn") = lit "save_btn"
  /\ Validator.isValid
       (Validator.validated (Validator.newKeyValidator letters_only_rules)
          (Validator.normalized (Validator.newKeyValidator letters_only_rules)
             (lit "save btn")))
     = false.
Proof. repeat split; vm_compute; reflexivity. Qed.

Lemma normalizeKey_valid_witness :
  Validator.rules sample_validator = Validator.DEFAULT_KEY_RULES
  /\ Validator.sanitizeKey (toLowerCase (lit "Hello, World!")) <> []
  /\ len (Validator.sanitizeKey (toLowerCase (lit "Hello, World!"))) <= 100
  /\ Validator.normalized sample_validator (lit "Hello, World!")
     = lit "hello_world_1"
  /\ Validator.isValid
       (Validator.validated sample_validator
          (Validator.normalized sample_validator (lit "Hello, World!"))) = true.
Proof.
  split; [reflexivity|]. split; [discriminate|].
  split; [vm_compute; discriminate|]. split; [vm_compute; reflexivity|].
  apply (normalizeKey_valid sample_validator eq_refl (lit "Hello, World!"));
    [discriminate | vm_compute; discriminate | vm_compute; discriminate].
Defined.

(** C3, as stated, fails. Under the default rules and with no key in use,
    [normalizeKey("___")] is ["_key"] and normalizing that again gives
    ["key"]. Under rules that require the suffix ["txt"], with ["x_y_txt"]
    in use, [normalizeKey("x y")] is ["x_y_txt_1"], which no longer ends
    with the suffix, and normalizing it again gives ["x_y_txt_1_txt"]. *)
Lemma normalizeKey_not_idempotent :
  Validator.normalized (Validator.newKeyValidator Validator.DEFAULT_KEY_RULES)
    (lit "___") = lit "_key"
  /\ Validator.normalized (Validator.newKeyValidator Validator.DEFAULT_KEY_RULES)
       (lit "_key") = lit "key"
  /\ Validator.normalized suffix_validator (lit "x y") = lit "x_y_txt_1"
  /\ Validator.normalized suffix_validator (lit "x_y_txt_1")
     = lit "x_y_txt_1_txt".
Proof. repeat split; vm_compute; reflexivity. Qed.

Lemma normalizeKey_idempotent_witness :
  Validator.rules sample_validator = Validator.DEFAULT_KEY_RULES
  /\ Validator.sanitizeKey (toLowerCase (lit "Hello, World!")) <> []
  /\ len (Validator.sanitizeKey (toLowerCase (lit "Hello, World!"))) <= 100
  /\ len (Validator.normalized sample_validator (lit "Hello, World!")) <= 100
  /\ Validator.normalized sample_validator
       (Validator.normalized sample_validator (lit "Hello, World!"))
     = Validator.normalized sample_validator (lit "Hello, World!").
Proof.
  split; [reflexivity|]. split; [discriminate|].
  split; [vm_compute; discriminate|]. split; [vm_compute; discriminate|].
  apply (normalizeKey_idempotent sample_validator eq_refl (lit "Hello, World!"));
    [discriminate | vm_compute; discriminate | vm_compute; discriminate].
Defined.

(** C10: [normalizeKey] leaves the validator, and so its set of used keys,
    as it found it, and a second call with the same argument returns the
    same key. *)
Theorem normalizeKey_frame (v : Validator.KeyValidator) (key : jsstring) :
  execState (Validator.normalizeKey key) v = v
  /\ Validator.usedKeys (execState (Validator.normalizeKey key) v)
     = Validator.usedKeys v
  /\ evalState
       (let* first := Validator.normalizeKey key in
        let* second := Validator.normalizeKey key in
        ret (first, second)) v
     = (evalState (Validator.normalizeKey key) v,
        evalState (Validator.normalizeKey key) v).
Proof.
  unfold execState, evalState, bind, ret.
  rewrite !normalizeKey_run. cbv beta iota. cbn [fst snd].
  rewrite ?normalizeKey_run. auto.
Qed.

(** ** Claims about the key generator *)

(** The validator's [truncateKey] keeps to the length ceiling. *)
Lemma append_part_len (result part : jsstring) :
  len (Validator.append_part result part) <= len result + 1 + len part.
Proof.
  unfold Validator.append_part. rewrite !len_app.
  destruct (truthy result); unfold len; simpl; lia.
Qed.

Lemma substring0_len (s : jsstring) (n : Z) :
  0 <= n -> len (substring0 s n) <= n.
Proof.
  intros Hn. unfold substring0, len. rewrite length_firstn. lia.
Qed.

Lemma validator_truncate_parts_bound (maxLen : Z) (parts : list jsstring)
    (result : jsstring) :
  len result <= maxLen ->
  len (Validator.truncate_parts maxLen parts result) <= maxLen.
Proof.
  revert result. induction parts as [|part rest IH]; intros result Hr; [exact Hr|].
  simpl. destruct (Z.leb_spec (len result + len part + 1) maxLen).
  - apply IH. pose proof (append_part_len result part). lia.
  - destruct (Z.ltb_spec 0 (maxLen - len result - 1)); [|exact Hr].
    pose proof (append_part_len result
                  (substring0 part (maxLen - len result - 1))).
    pose proof (substring0_len part (maxLen - len result - 1)). lia.
Qed.

Lemma validator_truncateKey_bound (r : Validator.KeyValidationRules)
    (key : jsstring) :
  0 <= Validator.maxLength r ->
  len (Validator.truncateKey r key) <= Validator.maxLength r.
Proof.
  intros Hmax. unfold Validator.truncateKey.
  destruct (Z.leb_spec (len key) (Validator.maxLength r)); [assumption|].
  destruct (_ =? _)%nat; [now apply substring0_len|].
  destruct (truthy _); [|now apply substring0_len].
  apply validator_truncate_parts_bound. exact Hmax.
Qed.

(** Enough fuel: [padKey] returns a key of at least [minLength]
    characters, so the last round of its fallback loop was not cut short. *)
Lemma pad_loop_long_enough (fuel : nat) (minLen : Z) (key : jsstring) (counter : N) :
  minLen - len key <= Z.of_nat fuel ->
  minLen <= len (Validator.pad_loop fuel minLen key counter).
Proof.
  revert key counter. induction fuel as [|fuel IH]; intros key counter Hfuel; simpl.
  - lia.
  - destruct (Z.ltb_spec (len key) minLen); [|assumption].
    apply IH. pose proof (numbered_longer key counter). lia.
Qed.

Lemma padKey_long_enough (r : Validator.KeyValidationRules) (key : jsstring) :
  Validator.minLength r <= len (Validator.padKey r key).
Proof.
  unfold Validator.padKey.
  repeat match goal with
         | |- context [?a <=? ?b] => destruct (Z.leb_spec a b); [assumption|]
         end.
  apply pad_loop_long_enough. pose proof (len_nonneg key). lia.
Qed.

(** C6: the generator's [truncateKey] does not keep to the length ceiling.
    With [maxLength = 10] the key ["save_file_x"], of 11 characters, comes
    back whole: after ["save_file"] no room remains, and [Math.max(1, ...)]
    still takes one character of the next segment. [createSemanticKey]
    returns that key for the text ["save file x"]. The validator's
    [truncateKey] returns ["save_file"] for the same key and ceiling. *)
Theorem generator_truncateKey_exceeds_maxLength :
  Generator.maxLength sample_options = 10
  /\ len (lit "save_file_x") = 11
  /\ Generator.truncateKey sample_options (lit "save_file_x") = lit "save_file_x"
  /\ Generator.createSemanticKey sample_options (lit "save file x") None
     = lit "save_file_x"
  /\ Validator.truncateKey sample_rules (lit "save_file_x") = lit "save_file".
Proof. repeat split. Qed.

(** The loop of [calculateConfidence] adds its 0.3 exactly when the text
    contains a table entry of more than one character. *)
Lemma word_bonus_existsb (table : list (jsstring * jsstring))
    (lowerOriginal : jsstring) (confidence : float) :
  Generator.word_bonus table lowerOriginal confidence
  = if existsb (fun e => (1 <? len (fst e))
                         && includes lowerOriginal (toLowerCase (fst e))) table
    then (confidence + 0.3)%float else confidence.
Proof.
  induction table as [|[persian english] rest IH]; [reflexivity|].
  simpl. destruct (_ && _); [reflexivity | exact IH].
Qed.

(** C7, as stated, fails: the text "سلام دنیا" is not an entry of the table
    but contains the entry "سلام", and the score of its key ["hello_dnia"]
    is 0.9, not the 0.6 of the stated rule. *)
Lemma calculateConfidence_substring_bonus :
  is_table_word salam_donya = false
  /\ Generator.calculateConfidence salam_donya (lit "hello_dnia") = 0.9%float
  /\ confidence_formula (is_table_word salam_donya) (lit "hello_dnia")
     = 0.6%float.
Proof. repeat split; vm_compute; reflexivity. Qed.

(** C7, amended: the score is the clamp to [0, 1] of 0.5, plus 0.3 when the
    lowercased text contains a table entry of more than one character, plus
    0.1 when the key contains an underscore and has more than three
    characters, minus 0.2 when the key has fewer than three characters or is
    the fallback key. *)
Theorem calculateConfidence_formula (originalText generatedKey : jsstring) :
  Generator.calculateConfidence originalText generatedKey
  = confidence_formula (contains_table_word originalText) generatedKey.
Proof.
  unfold Generator.calculateConfidence, confidence_formula, contains_table_word.
  rewrite word_bonus_existsb.
  destruct (existsb _ _), (_ && _), (_ || _); vm_compute; reflexivity.
Qed.

(** ** Claims about the locale store *)

(** C8: reading a locale whose file does not exist returns the empty
    object, and reading a locale whose file exists but does not parse throws
    an error to the caller, with the parser's message in it. *)
Theorem readTranslationFile_missing_or_malformed
    (cfg : Json.I18nIntegrationConfig) (fs : Json.FileSystem) (locale : jsstring) :
  (fs !! Json.getTranslationFilePath cfg locale = None ->
   Json.readTranslationFile cfg fs locale = inr [])
  /\ (forall syntaxError,
        fs !! Json.getTranslationFilePath cfg locale
          = Some (Json.File (Json.Malformed syntaxError)) ->
        Json.readTranslationFile cfg fs locale
          = inl {| Json.code := None;
                   Json.message :=
                     lit "Failed to read translation file: " ++ syntaxError |}).
Proof.
  unfold Json.readTranslationFile, Json.readFile. split.
  - intros ->. reflexivity.
  - intros msg ->. reflexivity.
Qed.

Lemma readTranslationFile_missing_or_malformed_witness :
  (∅ : Json.FileSystem) !! Json.getTranslationFilePath sample_config (lit "fa") = None
  /\ Json.readTranslationFile sample_config ∅ (lit "fa") = inr []
  /\ sample_malformed_store !! Json.getTranslationFilePath sample_config (lit "fa")
     = Some (Json.File (Json.Malformed (lit "Unexpected end of JSON input")))
  /\ Json.readTranslationFile sample_config sample_malformed_store (lit "fa")
     = inl {| Json.code := None;
              Json.message :=
                lit "Failed to read translation file: "
                ++ lit "Unexpected end of JSON input" |}.
Proof.
  split; [reflexivity|]. split.
  - apply (proj1 (readTranslationFile_missing_or_malformed
                    sample_config ∅ (lit "fa"))).
    reflexivity.
  - split; [reflexivity|].
    apply (proj2 (readTranslationFile_missing_or_malformed
                    sample_config sample_malformed_store (lit "fa"))).
    reflexivity.
Defined.

(** ** Objects as key-value lists *)



Lemma obj_get_In (o : Json.JSObject) (k v : jsstring) :
  Json.obj_get o k = Some v -> In (k, v) o.
Proof.
  induction o as [|[k0 v0] o IH]; simpl; [discriminate|].
  case_bool_decide; [intros [= <-]; subst; auto | auto].
Qed.

Lemma obj_get_None (o : Json.JSObject) (k : jsstring) :
  Json.obj_get o k = None <-> ~ In k (List.map fst o).
Proof.
  induction o as [|[k0 v0] o IH]; simpl; [tauto|].
  case_bool_decide; [subst; split; [discriminate | tauto] |].
  rewrite IH. tauto.
Qed.

Lemma In_obj_get (o : Json.JSObject) (k v : jsstring) :
  List.NoDup (List.map fst o) -> In (k, v) o -> Json.obj_get o k = Some v.
Proof.
  induction o as [|[k0 v0] o IH]; simpl; [tauto|].
  intros ND [[= -> ->]|Hin].
  - now rewrite bool_decide_eq_true_2.
  - inversion ND; subst. case_bool_decide; [|auto].
    subst. exfalso. apply H1. apply in_map_iff. now exists (k, v).
Qed.















(** ** Claims about the store-level duplicate scanner *)

(** C4: renaming onto one of the listed keys loses the value. On the store
    [{"save_btn": "ذخیره", "confirm_save": "ذخیره"}], the decision
    [rename] with [newKey = "save_btn"] writes the value under ["save_btn"]
    and then deletes every listed key, ["save_btn"] among them: the store is
    left empty. The decision [consolidate] with [targetKey = "save_btn"]
    leaves [{"save_btn": "ذخیره"}]. *)
Theorem rename_onto_listed_key_loses_value :
  Scanner.consolidateDuplicates sample_config sample_store (lit "fa")
    sample_duplicate
    {| Scanner.action := Scanner.rename;
       Scanner.targetKey := None;
       Scanner.newKey := Some (lit "save_btn") |}
  = inr {[ lit "locales/fa.json" := Json.File (Json.JsonText []) ]}
  /\ Scanner.consolidateDuplicates sample_config sample_store (lit "fa")
       sample_duplicate
       {| Scanner.action := Scanner.consolidate;
          Scanner.targetKey := Some (lit "save_btn");
          Scanner.newKey := None |}
     = inr {[ lit "locales/fa.json" :=
                Json.File (Json.JsonText [(lit "save_btn", zakhire)]) ]}.
Proof. split; vm_compute; reflexivity. Qed.

(** ** Grouping keys by value *)

Lemma group_key_values (m : list (jsstring * list jsstring)) (k v v' : jsstring) :
  In v' (List.map fst (Scanner.group_key m k v))
  <-> v' = v \/ In v' (List.map fst m).
Proof.
  induction m as [|[v0 ks0] m IH]; simpl; [intuition|].
  case_bool_decide; simpl; [subst; intuition|]. rewrite IH. intuition.
Qed.

Lemma group_key_NoDup (m : list (jsstring * list jsstring)) (k v : jsstring) :
  List.NoDup (List.map fst m) ->
  List.NoDup (List.map fst (Scanner.group_key m k v)).
Proof.
  induction m as [|[v0 ks0] m IH]; simpl; intros ND.
  - constructor; [tauto | constructor].
  - inversion ND; subst. case_bool_decide; simpl; [now constructor|].
    constructor; [|auto]. rewrite group_key_values. intros [->|?]; tauto.
Qed.

Lemma group_key_In (m : list (jsstring * list jsstring)) (k v : jsstring)
    (v' : jsstring) (ks : list jsstring) :
  List.NoDup (List.map fst m) ->
  In (v', ks) (Scanner.group_key m k v) <->
  (v' <> v /\ In (v', ks) m)
  \/ (v' = v /\ exists ks0, ks = ks0 ++ [k]
                 /\ (In (v, ks0) m \/ (ks0 = [] /\ ~ In v (List.map fst m)))).
Proof.
  induction m as [|[v0 ks0] m IH]; intros ND; simpl.
  - split.
    + intros [[= -> ->]|[]]. right. split; [reflexivity|]. exists []. tauto.
    + intros [[_ []] | [-> (ks1 & -> & [[] | [-> _]])]]. now left.
  - inversion ND as [|? ? Hnotin ND']; subst. case_bool_decide as H0; simpl.
    + subst v0. split.
      * intros [[= <- <-] | Hin].
        -- right. split; [reflexivity|]. exists ks0. split; [reflexivity|].
           left. now left.
        -- left. split; [|now right]. intros ->. apply Hnotin.
           apply in_map_iff. now exists (v, ks).
      * intros [[Hne [[= -> ->] | Hin]] | [-> (ks1 & -> & [[[= ->] | Hin] | [_ Hn]])]];
          try tauto.
        -- exfalso. apply Hnotin. apply in_map_iff. now exists (v, ks1).
    + rewrite (IH ND'). split.
      * intros [[= -> ->] | [[Hne Hin] | [-> (ks1 & -> & [Hin | [-> Hn]])]]].
        -- left. split; [congruence | now left].
        -- left. split; [exact Hne | now right].
        -- right. split; [reflexivity|]. exists ks1. split; [reflexivity|].
           left. now right.
        -- right. split; [reflexivity|]. exists []. split; [reflexivity|].
           right. split; [reflexivity|]. intros [?|?]; tauto.
      * intros [[Hne [[= -> ->] | Hin]] | [-> (ks1 & -> & [[[= -> ->] | Hin] | [-> Hn]])]];
          try tauto.
        -- right. right. split; [reflexivity|]. exists ks1. tauto.
        -- right. right. split; [reflexivity|]. exists []. tauto.
Qed.

Lemma keys_with_value_cons (k v1 : jsstring) (o : Json.JSObject) (v : jsstring) :
  keys_with_value ((k, v1) :: o) v
  = if bool_decide (v1 = v) then k :: keys_with_value o v
    else keys_with_value o v.
Proof. unfold keys_with_value. simpl. now case_bool_decide. Qed.

(** The groups after the loop of [findDuplicatesInLocale], started from the
    groups [m], has gone through the entries [o]. *)
Lemma group_loop_In (o : Json.JSObject) (m : list (jsstring * list jsstring))
    (v : jsstring) (ks : list jsstring) :
  List.NoDup (List.map fst m) ->
  In (v, ks) (fold_left (fun m e => Scanner.group_key m (fst e) (snd e)) o m)
  <-> (exists ks0, In (v, ks0) m /\ ks = ks0 ++ keys_with_value o v)
      \/ (~ In v (List.map fst m) /\ ks = keys_with_value o v /\ ks <> []).
Proof.
  revert m. induction o as [|[k v1] o IH]; intros m ND.
  - simpl. unfold keys_with_value. simpl. split.
    + intros Hin. left. exists ks. now rewrite app_nil_r.
    + intros [(ks0 & Hin & ->) | (_ & -> & Hne)]; [|congruence].
      now rewrite app_nil_r.
  - cbn [fold_left fst snd]. rewrite (IH _ (group_key_NoDup m k v1 ND)).
    rewrite keys_with_value_cons, group_key_values.
    setoid_rewrite (group_key_In m k v1 v) ; [|exact ND].
    case_bool_decide as Hv.
    + subst v1. split.
      * intros [(ks0 & [[Hne _] | [_ (ks1 & -> & [Hin | [-> Hn]])]] & ->) | (Hn & _)];
          try tauto.
        -- left. exists ks1. split; [exact Hin|]. now rewrite <- app_assoc.
        -- right. split; [exact Hn|]. split; [reflexivity | discriminate].
      * intros [(ks0 & Hin & ->) | (Hn & -> & _)]; left.
        -- exists (ks0 ++ [k]). split; [|now rewrite <- app_assoc].
           right. split; [reflexivity|]. exists ks0. tauto.
        -- exists [k]. split; [|reflexivity].
           right. split; [reflexivity|]. exists []. tauto.
    + split.
      * intros [(ks0 & [[_ Hin] | [-> _]] & ->) | (Hn & -> & Hne)]; try congruence.
        -- left. now exists ks0.
        -- right. tauto.
      * intros [(ks0 & Hin & ->) | (Hn & -> & Hne)].
        -- left. exists ks0. split; [|reflexivity]. left. split; congruence.
        -- right. split; [|tauto]. intros [->|?]; tauto.
Qed.

Lemma group_by_value_In (o : Json.JSObject) (v : jsstring) (ks : list jsstring) :
  In (v, ks) (Scanner.group_by_value o)
  <-> ks = keys_with_value o v /\ ks <> [].
Proof.
  unfold Scanner.group_by_value. rewrite group_loop_In by constructor.
  simpl. split.
  - intros [(ks0 & [] & _) | (_ & H)]. exact H.
  - intros H. right. tauto.
Qed.

Lemma group_loop_NoDup (o : Json.JSObject) (m : list (jsstring * list jsstring)) :
  List.NoDup (List.map fst m) ->
  List.NoDup
    (List.map fst (fold_left (fun m e => Scanner.group_key m (fst e) (snd e)) o m)).
Proof.
  revert m. induction o as [|e o IH]; intros m ND; [exact ND|].
  simpl. apply IH, group_key_NoDup, ND.
Qed.


(** The report of [scanForDuplicateValues] holds, for the source and the
    target locale, the groups [findDuplicatesInLocale] finds there, when
    there are any. *)
Lemma scan_report_groups (cfg : Json.I18nIntegrationConfig) (fs : Json.FileSystem)
    (locale : jsstring) (groups : list Scanner.DuplicateValue) :
  In (locale, groups)
     (Scanner.duplicatesByLocale (Scanner.scanForDuplicateValues cfg fs))
  <-> (locale = Json.source cfg \/ locale = Json.target cfg)
      /\ groups = Scanner.findDuplicatesInLocale cfg fs locale
      /\ groups <> [].
Proof.
  unfold Scanner.scanForDuplicateValues.
  match goal with
  | |- context [if ?c then _ else ?r] =>
      replace (Scanner.duplicatesByLocale _)
        with (Scanner.duplicatesByLocale r) by (now destruct c)
  end.
  cbn [fold_left].
  set (ds := Scanner.findDuplicatesInLocale cfg fs (Json.source cfg)).
  set (dt := Scanner.findDuplicatesInLocale cfg fs (Json.target cfg)).
  assert (forall l : list Scanner.DuplicateValue,
            (0 <? length l)%nat = true <-> l <> []) as Hpos.
  { intros [|x l]; split; intros H; try discriminate; try reflexivity.
    now elim H. }
  assert (forall l : list Scanner.DuplicateValue,
            (0 <? length l)%nat = false <-> l = []) as Hzero.
  { intros [|x l]; split; intros H; try discriminate; reflexivity. }
  destruct (0 <? length ds)%nat eqn:Es, (0 <? length dt)%nat eqn:Et;
    cbn [Scanner.duplicatesByLocale Scanner.set_locale];
    try apply Hpos in Es; try apply Hpos in Et;
    try apply Hzero in Es; try apply Hzero in Et.
  - case_bool_decide as Hst; simpl.
    + assert (ds = dt) as Hd by (unfold ds, dt; now rewrite Hst).
      split.
      * intros [[= <- <-]|[]]. repeat split; auto.
      * intros ([Hl|Hl] & Hg & _); left; subst locale groups; unfold dt;
          now rewrite ?Hst.
    + split.
      * intros [[= <- <-]|[[= <- <-]|[]]]; repeat split; auto.
      * intros ([->| ->] & -> & _); auto.
  - simpl. split.
    + intros [[= <- <-]|[]]. repeat split; auto.
    + intros ([->| ->] & -> & Hne); [now left|]. fold dt in Hne. congruence.
  - simpl. split.
    + intros [[= <- <-]|[]]. repeat split; auto.
    + intros ([->| ->] & -> & Hne); [|now left]. fold ds in Hne. congruence.
  - simpl. split; [tauto|].
    intros ([->| ->] & -> & Hne); [fold ds in Hne | fold dt in Hne]; congruence.
Qed.

(** C5, as stated, fails: in the file [{"a": "Save", "b": "save "}] the
    two values have the same normalized form, and the scan reports no
    group. *)
Lemma scan_ignores_normalized_duplicates :
  Detector.normalizeValue (lit "Save") = Detector.normalizeValue (lit "save ")
  /\ Scanner.findDuplicatesInLocale sample_config sample_near_duplicates (lit "fa")
     = []
  /\ Scanner.totalDuplicates
       (Scanner.scanForDuplicateValues sample_config sample_near_duplicates)
     = 0%nat.
Proof. repeat split. Qed.

(** C5, amended: for every locale file, the scan reports exactly the groups
    of two or more keys whose values are the same string, without any
    normalization: one group per such value, listing the keys that hold it
    in the order of the file, and no group for a value held by one key. The
    report of the scan lists these groups for the source and the target
    locale. *)
Theorem findDuplicatesInLocale_exact (cfg : Json.I18nIntegrationConfig)
    (fs : Json.FileSystem) (locale : jsstring) (o : Json.JSObject) :
  Json.readTranslationFile cfg fs locale = inr o ->
  (forall g, In g (Scanner.findDuplicatesInLocale cfg fs locale)
     <-> exists v,
           g = {| Scanner.value := v;
                  Scanner.keys := keys_with_value o v;
                  Scanner.locales := [locale] |}
           /\ (2 <= length (keys_with_value o v))%nat)
  /\ List.NoDup
       (List.map Scanner.value (Scanner.findDuplicatesInLocale cfg fs locale))
  /\ (forall l groups,
        In (l, groups)
           (Scanner.duplicatesByLocale (Scanner.scanForDuplicateValues cfg fs))
        <-> (l = Json.source cfg \/ l = Json.target cfg)
            /\ groups = Scanner.findDuplicatesInLocale cfg fs l
            /\ groups <> []).
Proof.
  intros Hread. split; [|split; [|apply scan_report_groups]];
    unfold Scanner.findDuplicatesInLocale; rewrite Hread.
  - intros g. rewrite in_map_iff. split.
    + intros ([v ks] & <- & [Hin Hlen]%filter_In).
      apply group_by_value_In in Hin as [-> _]. simpl in *.
      exists v. split; [reflexivity|]. apply Nat.ltb_lt in Hlen. lia.
    + intros (v & -> & Hlen). exists (v, keys_with_value o v).
      split; [reflexivity|]. apply filter_In. split.
      * apply group_by_value_In. split; [reflexivity|].
        intros E. rewrite E in Hlen. simpl in Hlen. lia.
      * simpl. apply Nat.ltb_lt. lia.
  - rewrite map_map. simpl.
    assert (forall l : list (jsstring * list jsstring),
              List.NoDup (List.map fst l) ->
              List.NoDup
                (List.map fst
                   (List.filter (fun g => (1 <? length (snd g))%nat) l))) as F.
    { induction l as [|g l IH]; simpl; intros ND; [constructor|].
      inversion ND; subst. destruct (_ <? _)%nat; simpl; [|auto].
      constructor; [|auto]. intros Hin. apply H1.
      apply in_map_iff in Hin as (e & <- & He). apply filter_In in He as [He _].
      apply in_map_iff. now exists e. }
    apply F. unfold Scanner.group_by_value. apply group_loop_NoDup. constructor.
Qed.

Lemma findDuplicatesInLocale_exact_witness :
  Json.readTranslationFile sample_config sample_store (lit "fa")
    = inr [(lit "save_btn", zakhire); (lit "confirm_save", zakhire)]
  /\ In sample_duplicate
       (Scanner.findDuplicatesInLocale sample_config sample_store (lit "fa")).
Proof.
  split; [reflexivity|].
  apply (proj1 (findDuplicatesInLocale_exact sample_config sample_store (lit "fa")
                  [(lit "save_btn", zakhire); (lit "confirm_save", zakhire)]
                  eq_refl)).
  exists zakhire. split; [reflexivity | simpl; lia].
Defined.

(** ** Claims about the backup system *)

Lemma insert_newest_first_perm (b : Backup.BackupInfo) (l : list Backup.BackupInfo) :
  Permutation (b :: l) (Backup.insert_newest_first b l).
Proof.
  induction l as [|b' l IH]; simpl; [reflexivity|].
  destruct (_ <=? _); [reflexivity|].
  rewrite perm_swap. now constructor.
Qed.

Lemma sort_newest_first_perm (l : list Backup.BackupInfo) :
  Permutation l (Backup.sort_newest_first l).
Proof.
  unfold Backup.sort_newest_first. induction l as [|b l IH]; simpl; [reflexivity|].
  rewrite <- insert_newest_first_perm. now constructor.
Qed.

Lemma insert_newest_first_sorted (b : Backup.BackupInfo) (l : list Backup.BackupInfo) :
  StronglySorted (fun x y => Backup.timestamp y <= Backup.timestamp x) l ->
  StronglySorted (fun x y => Backup.timestamp y <= Backup.timestamp x)
    (Backup.insert_newest_first b l).
Proof.
  induction l as [|b' l IH]; simpl; intros S.
  - repeat constructor.
  - inversion S as [|? ? S' F]; subst.
    destruct (Z.leb_spec (Backup.timestamp b') (Backup.timestamp b)).
    + constructor; [exact S|]. constructor; [assumption|].
      eapply Forall_impl; [exact F|]. simpl. intros. lia.
    + constructor; [auto|].
      rewrite <- insert_newest_first_perm. constructor; [lia | exact F].
Qed.

Lemma sort_newest_first_sorted (l : list Backup.BackupInfo) :
  StronglySorted (fun x y => Backup.timestamp y <= Backup.timestamp x)
    (Backup.sort_newest_first l).
Proof.
  unfold Backup.sort_newest_first. induction l as [|b l IH]; simpl.
  - constructor.
  - now apply insert_newest_first_sorted.
Qed.

Lemma manifests_In (dir : Backup.BackupDir) (b : Backup.BackupInfo) :
  In b (Backup.manifests dir)
  <-> exists name, In (name, Backup.Directory (Some b)) dir.
Proof.
  unfold Backup.manifests. rewrite in_concat. split.
  - intros (l & Hl & Hb). apply in_map_iff in Hl as ([name e] & <- & He).
    simpl in Hb. destruct e as [|[info|]]; simpl in Hb; try contradiction.
    destruct Hb as [->|[]]. now exists name.
  - intros (name & Hin). exists [b]. split; [|now left].
    apply in_map_iff. now exists (name, Backup.Directory (Some b)).
Qed.

(** One deletion of the cleanup loop, failed or not, leaves the entries
    with another name, as long as the name is not that of a plain file. *)
Lemma delete_step_In (dir : Backup.BackupDir) (backupId : jsstring)
    (e : jsstring * Backup.Entry) :
  (forall e', In e' dir -> fst e' = backupId -> snd e' <> Backup.PlainFile) ->
  In e (match Backup.deleteBackup dir backupId with
        | inr dir' => dir'
        | inl _ => dir
        end)
  <-> In e dir /\ fst e <> backupId.
Proof.
  intros Hdir. unfold Backup.deleteBackup.
  destruct (List.find _ dir) as [[name entry]|] eqn:F.
  - apply find_some in F as [Hin Hname]. apply bool_decide_eq_true in Hname.
    simpl in Hname. subst name.
    destruct entry as [|m].
    + exfalso. now apply (Hdir _ Hin).
    + rewrite filter_In, negb_true_iff, bool_decide_eq_false. tauto.
  - split; [|tauto]. intros Hin. split; [exact Hin|]. intros Hname.
    pose proof (find_none _ _ F e Hin) as Hf. simpl in Hf.
    now apply bool_decide_eq_false in Hf.
Qed.

Lemma delete_loop_In (backups : list Backup.BackupInfo) (dir : Backup.BackupDir)
    (e : jsstring * Backup.Entry) :
  (forall b e', In b backups -> In e' dir -> fst e' = Backup.id b ->
                snd e' <> Backup.PlainFile) ->
  In e (fold_left
          (fun dir backup =>
             match Backup.deleteBackup dir (Backup.id backup) with
             | inr dir' => dir'
             | inl _ => dir
             end) backups dir)
  <-> In e dir /\ ~ In (fst e) (List.map Backup.id backups).
Proof.
  revert dir. induction backups as [|b backups IH]; intros dir Hdir; simpl.
  - tauto.
  - rewrite IH.
    + rewrite delete_step_In by (intros; eapply Hdir; eauto; now left).
      intuition congruence.
    + intros b' e' Hb' He' Hname.
      apply delete_step_In in He' as [He' _];
        [|intros; eapply Hdir; eauto; now left].
      eapply Hdir; eauto. now right.
Qed.

Lemma named_entry_unique (dir : Backup.BackupDir) (name : jsstring)
    (e1 e2 : Backup.Entry) :
  List.NoDup (List.map fst dir) ->
  In (name, e1) dir -> In (name, e2) dir -> e1 = e2.
Proof.
  induction dir as [|[n e] dir IH]; simpl; [tauto|].
  intros ND H1 H2. inversion ND as [|? ? Hn ND']; subst.
  assert (forall x, In (name, x) dir -> In name (List.map fst dir)) as Hk.
  { intros x Hx. apply in_map_iff. now exists (name, x). }
  destruct H1 as [[= -> ->]|H1], H2 as [[= <-]|H2]; auto;
    subst; exfalso; eauto.
Qed.

Lemma manifests_ids_NoDup (dir : Backup.BackupDir) :
  List.NoDup (List.map fst dir) ->
  (forall name info, In (name, Backup.Directory (Some info)) dir ->
                     Backup.id info = name) ->
  List.NoDup (List.map Backup.id (Backup.manifests dir)).
Proof.
  unfold Backup.manifests.
  induction dir as [|[name e] dir IH]; simpl; intros ND Hid; [constructor|].
  inversion ND as [|? ? Hn ND']; subst.
  assert (List.NoDup
            (List.map Backup.id
               (concat (List.map
                          (fun e => match snd e with
                                    | Backup.Directory (Some info) => [info]
                                    | _ => []
                                    end) dir)))) as IH'.
  { apply IH; [exact ND'|]. intros n i Hin. apply Hid. now right. }
  destruct e as [|[info|]]; simpl; try exact IH'.
  constructor; [|exact IH'].
  intros Hin. apply in_map_iff in Hin as (b & Hb & Hin).
  apply (manifests_In dir b) in Hin as (n & Hin).
  assert (Backup.id b = n) by (apply Hid; now right).
  assert (Backup.id info = name) by (apply Hid; now left).
  apply Hn. apply in_map_iff. exists (n, Backup.Directory (Some b)).
  split; [simpl; congruence | exact Hin].
Qed.

(** C9: [listBackups] sorts the backups by timestamp, newest first, and
    [cleanupOldBackups(keep)] deletes exactly the directories of the backups
    after the first [keep] of that list: the backups left are the [keep] most
    recent, every other entry is untouched, and nothing is deleted when there
    are at most [keep] backups. The directory is one as [createBackup] leaves
    it: entry names differ and a manifest names its own directory. *)
Theorem cleanupOldBackups_keeps_most_recent (dir : Backup.BackupDir) (keep : nat) :
  List.NoDup (List.map fst dir) ->
  (forall name info, In (name, Backup.Directory (Some info)) dir ->
                     Backup.id info = name) ->
  Permutation (Backup.manifests dir) (Backup.listBackups dir)
  /\ StronglySorted (fun x y => Backup.timestamp y <= Backup.timestamp x)
       (Backup.listBackups dir)
  /\ (forall e, In e (Backup.cleanupOldBackups dir keep)
        <-> In e dir
            /\ ~ In (fst e)
                 (List.map Backup.id (skipn keep (Backup.listBackups dir))))
  /\ (forall b, In b (Backup.listBackups (Backup.cleanupOldBackups dir keep))
        <-> In b (firstn keep (Backup.listBackups dir)))
  /\ ((length (Backup.listBackups dir) <= keep)%nat ->
      Backup.cleanupOldBackups dir keep = dir).
Proof.
  intros ND Hid.
  pose proof (sort_newest_first_perm (Backup.manifests dir)) as Hperm.
  fold (Backup.listBackups dir) in Hperm.
  assert (forall e, In e (Backup.cleanupOldBackups dir keep)
            <-> In e dir
                /\ ~ In (fst e)
                     (List.map Backup.id (skipn keep (Backup.listBackups dir))))
    as Hentries.
  { intros e. unfold Backup.cleanupOldBackups.
    destruct (Nat.leb_spec (length (Backup.listBackups dir)) keep) as [Hle|Hgt].
    - rewrite skipn_all2 by exact Hle. simpl. tauto.
    - apply delete_loop_In. intros b [n e'] Hb He' Hname Hplain.
      simpl in Hname, Hplain. subst.
      assert (In b (Backup.listBackups dir)) as Hb'.
      { rewrite <- (firstn_skipn keep (Backup.listBackups dir)).
        apply in_or_app. now right. }
      clear Hb. rename Hb' into Hb.
      apply (Permutation_in _ (Permutation_sym Hperm)) in Hb.
      apply manifests_In in Hb as (n & Hn).
      rewrite (Hid _ _ Hn) in He'.
      pose proof (named_entry_unique _ _ _ _ ND He' Hn). discriminate. }
  split; [exact Hperm|]. split; [apply sort_newest_first_sorted|].
  split; [exact Hentries|]. split; [intros b; split|].
  - (* a backup left is one of the first [keep] *)
    intros Hb.
    apply (Permutation_in _ (Permutation_sym (sort_newest_first_perm _))) in Hb.
    apply manifests_In in Hb as (n & Hn). apply Hentries in Hn as [Hn Hdel].
    simpl in Hdel.
    assert (In b (Backup.listBackups dir)) as Hl.
    { apply (Permutation_in _ Hperm). apply manifests_In. now exists n. }
    rewrite <- (firstn_skipn keep (Backup.listBackups dir)) in Hl.
    apply in_app_or in Hl as [Hl|Hl]; [exact Hl|].
    exfalso. apply Hdel. rewrite <- (Hid _ _ Hn). now apply in_map.
  - (* each of the first [keep] is left *)
    intros Hb.
    apply (Permutation_in _ (sort_newest_first_perm _)).
    assert (In b (Backup.manifests dir)) as Hm.
    { apply (Permutation_in _ (Permutation_sym Hperm)).
      rewrite <- (firstn_skipn keep (Backup.listBackups dir)).
      apply in_or_app. now left. }
    apply manifests_In in Hm as (n & Hn). apply manifests_In. exists n.
    apply Hentries. split; [exact Hn|]. simpl. intros Hdel.
    apply in_map_iff in Hdel as (b' & Hid' & Hb').
    pose proof (manifests_ids_NoDup dir ND Hid) as NDi.
    rewrite (Permutation_map Backup.id Hperm) in NDi.
    rewrite <- (firstn_skipn keep (Backup.listBackups dir)), map_app in NDi.
    apply NoDup_ListNoDup, NoDup_app in NDi as (_ & Hdisj & _).
    apply (Hdisj (Backup.id b)).
    + apply list_elem_of_In, in_map, Hb.
    + rewrite <- (Hid _ _ Hn) in Hid'. rewrite <- Hid'.
      apply list_elem_of_In, in_map, Hb'.
  - intros Hle. unfold Backup.cleanupOldBackups.
    now apply Nat.leb_le in Hle as ->.
Qed.

Lemma cleanupOldBackups_keeps_most_recent_witness :
  List.NoDup (List.map fst sample_backups)
  /\ List.map Backup.id (Backup.listBackups sample_backups)
     = [lit "backup-c"; lit "backup-b"; lit "backup-a"]
  /\ List.map fst (Backup.cleanupOldBackups sample_backups 2)
     = [lit "backup-b"; lit "notes.txt"; lit "backup-c"; lit "broken"]
  /\ forall b, In b (Backup.listBackups (Backup.cleanupOldBackups sample_backups 2))
       <-> In b (firstn 2 (Backup.listBackups sample_backups)).
Proof.
  assert (List.NoDup (List.map fst sample_backups)) as ND
    by (repeat constructor; simpl; intuition discriminate).
  split; [exact ND|]. split; [reflexivity|]. split; [reflexivity|].
  apply (cleanupOldBackups_keeps_most_recent sample_backups 2 ND).
  intros name info H. simpl in H.
  repeat destruct H as [H|H]; try discriminate; try contradiction;
    injection H as <- <-; reflexivity.
Defined.

(** ** The generator's key is not empty *)

Lemma substring0_nonempty (s : jsstring) (n : Z) :
  s <> [] -> 1 <= n -> substring0 s n <> [].
Proof.
  intros Hs Hn. unfold substring0.
  destruct s as [|c s]; [contradiction|].
  destruct (Z.to_nat n) eqn:E; [lia | discriminate].
Qed.

Lemma generator_truncateKey_nonempty (o : Generator.KeyGenerationOptions)
    (key : jsstring) :
  1 <= Generator.maxLength o -> key <> [] -> Generator.truncateKey o key <> [].
Proof.
  intros Hmax Hkey. unfold Generator.truncateKey.
  destruct (_ <=? _); [exact Hkey|].
  destruct (_ =? _)%nat; [now apply substring0_nonempty|].
  destruct (truthy _) eqn:E; [now apply truthy_true | now apply substring0_nonempty].
Qed.

Lemma createSemanticKey_nonempty (o : Generator.KeyGenerationOptions)
    (transliteratedText : jsstring) (context : option jsstring) :
  1 <= Generator.maxLength o ->
  Generator.createSemanticKey o transliteratedText context <> [].
Proof.
  intros Hmax. unfold Generator.createSemanticKey.
  match goal with
  | |- context [if truthy ?k then ?k else _] =>
      assert ((if truthy k then k else lit "untranslated_text") <> []) as Hk
        by (destruct (truthy k) eqn:E; [now apply truthy_true | discriminate]);
      generalize dependent (if truthy k then k else lit "untranslated_text")
  end.
  intros key Hk. cbv zeta.
  destruct (_ <? _); [now apply generator_truncateKey_nonempty | exact Hk].
Qed.

(** ** The generator's loop and its state *)

Lemma G_unique_loop_run (fuel : nat) (key u : jsstring) (c : N)
    (g : Generator.KeyGenerator) :
  Generator.unique_loop fuel key u c g
  = (first_unused (Generator.usedKeys g) fuel key u c, g).
Proof.
  revert u c. induction fuel as [|fuel IH]; intros u c; [reflexivity|].
  simpl. unfold bind, gets, ret.
  case_bool_decide; [apply IH | reflexivity].
Qed.

(** Enough fuel: the loop of the generator's [ensureUniqueness] ends. *)
Lemma generator_ensureUniqueness_runs (key : jsstring) (g : Generator.KeyGenerator) :
  exists uniqueKey,
    Generator.unique_loop (S (size (Generator.usedKeys g))) key key 1%N g
      = (Some uniqueKey, g)
    /\ Generator.ensureUniqueness key g
       = (uniqueKey,
          {| Generator.options := Generator.options g;
             Generator.usedKeys := {[uniqueKey]} ∪ Generator.usedKeys g |})
    /\ (uniqueKey = key \/ exists n, uniqueKey = numbered key n).
Proof.
  destruct (first_unused_Some (Generator.usedKeys g) key) as [k Hk].
  exists k. unfold Generator.ensureUniqueness, bind, gets, modify, ret.
  rewrite !G_unique_loop_run, Hk. repeat split.
  now apply first_unused_shape in Hk.
Qed.

Lemma generateKey_run (text : jsstring) (context : option jsstring)
    (g : Generator.KeyGenerator) :
  1 <= Generator.maxLength (Generator.options g) ->
  exists generated g',
    Generator.generateKey text context g = (generated, g')
    /\ Generator.key generated <> []
    /\ Generator.originalText generated = text
    /\ Generator.options g' = Generator.options g.
Proof.
  intros Hmax. unfold Generator.generateKey, bind, gets, ret.
  set (sk := Generator.createSemanticKey _ _ _).
  destruct (generator_ensureUniqueness_runs sk g) as (k & _ & -> & Hshape).
  eexists _, _. split; [reflexivity|]. cbn. repeat split.
  destruct Hshape as [-> | [n ->]].
  - now apply createSemanticKey_nonempty.
  - unfold numbered. now destruct sk.
Qed.

(** ** The key manager *)

Lemma validateKey_state (key : jsstring) (v : Validator.KeyValidator) :
  Validator.validateKey key v = (Validator.validated v key, v).
Proof.
  unfold Validator.validated, evalState, Validator.validateKey.
  destruct (negb (truthy key)); reflexivity.
Qed.

Lemma alternative_loop_run (fuel : nat) (key : jsstring) (c : N)
    (v : Validator.KeyValidator) :
  Manager.alternative_loop fuel key c v
  = (first_unused (Validator.usedKeys v) fuel key (numbered key c) (c + 1)%N, v).
Proof.
  revert c. induction fuel as [|fuel IH]; intros c; [reflexivity|].
  simpl. unfold bind, Validator.isKeyUsed, gets, ret.
  case_bool_decide; [apply IH | reflexivity].
Qed.

(** Enough fuel: [handleKeyDuplicate] ends, with a key that is not in use,
    and changes nothing. *)
Lemma handleKeyDuplicate_runs (key : jsstring) (context : option jsstring)
    (km : Manager.KeyManager) :
  exists k,
    Manager.handleKeyDuplicate key context km = (k, km)
    /\ (k ∉ Validator.usedKeys (Manager.keyValidator km))
    /\ (k = Detector.generateContextualSuffix key (default [] context)
        \/ Manager.alternative_loop
             (S (size (Validator.usedKeys (Manager.keyValidator km)))) key 1%N
             (Manager.keyValidator km)
           = (Some k, Manager.keyValidator km)).
Proof.
  assert (forall km' : Manager.KeyManager,
            {| Manager.keyGenerator := Manager.keyGenerator km';
               Manager.duplicateDetector := Manager.duplicateDetector km';
               Manager.keyValidator := Manager.keyValidator km' |} = km') as Eta
    by (now intros []).
  assert (exists k,
    (let* n := gets (fun km => size (Validator.usedKeys (Manager.keyValidator km))) in
     let* r := Manager.onValidator (Manager.alternative_loop (S n) key 1%N) in
     ret (default (numbered key 1%N) r)) km = (k, km)
    /\ (k ∉ Validator.usedKeys (Manager.keyValidator km))
    /\ Manager.alternative_loop
         (S (size (Validator.usedKeys (Manager.keyValidator km)))) key 1%N
         (Manager.keyValidator km)
       = (Some k, Manager.keyValidator km)) as (k & Hrun & Hfresh & Hloop).
  { unfold bind, gets, ret, Manager.onValidator.
    rewrite alternative_loop_run.
    destruct (first_unused_numbered_Some
                (Validator.usedKeys (Manager.keyValidator km)) key 1%N
                (S (size (Validator.usedKeys (Manager.keyValidator km)))))
      as [k Hk]; [lia|].
    exists k. rewrite Hk, Eta. repeat split.
    eapply first_unused_fresh, Hk. }
  unfold Manager.handleKeyDuplicate.
  destruct context as [ctx|]; [destruct (truthy ctx) eqn:Ectx|].
  - unfold bind at 1. unfold bind at 1.
    unfold Manager.onValidator at 1, Validator.isKeyUsed at 1, gets at 1.
    rewrite Eta. unfold ret at 1.
    case_bool_decide as Hused.
    + exists k. auto.
    + exists (Detector.generateContextualSuffix key ctx).
      unfold ret. auto.
  - exists k. unfold bind at 1, ret at 1. auto.
  - exists k. unfold bind at 1, ret at 1. auto.
Qed.

(** One item of the batch: the final key was not in use in the validator
    before, and is afterwards; the generator keeps its options. *)
Lemma processTextForKey_fresh (text locale : jsstring) (context : option jsstring)
    (km : Manager.KeyManager) :
  1 <= Generator.maxLength (Generator.options (Manager.keyGenerator km)) ->
  exists result km',
    Manager.processTextForKey text locale context km = (result, km')
    /\ (Manager.finalKey result ∉ Validator.usedKeys (Manager.keyValidator km))
    /\ Validator.usedKeys (Manager.keyValidator km')
       = {[Manager.finalKey result]} ∪ Validator.usedKeys (Manager.keyValidator km)
    /\ Generator.options (Manager.keyGenerator km')
       = Generator.options (Manager.keyGenerator km)
    /\ Generator.key (Manager.generatedKey result) = Manager.finalKey result.
Proof.
  intros Hmax. unfold Manager.processTextForKey.
  (* Step 1: generate *)
  unfold bind at 1. unfold Manager.onGenerator at 1.
  destruct (generateKey_run text context (Manager.keyGenerator km) Hmax)
    as (generated & g' & -> & Hne & _ & Hopt).
  set (km1 := {| Manager.keyGenerator := g';
                 Manager.duplicateDetector := Manager.duplicateDetector km;
                 Manager.keyValidator := Manager.keyValidator km |}).
  assert (forall km' : Manager.KeyManager,
            {| Manager.keyGenerator := Manager.keyGenerator km';
               Manager.duplicateDetector := Manager.duplicateDetector km';
               Manager.keyValidator := Manager.keyValidator km' |} = km') as Eta
    by (now intros []).
  (* Step 2: validate *)
  unfold bind at 1. unfold Manager.onValidator at 1.
  rewrite validateKey_state, Eta.
  set (v := Manager.keyValidator km).
  change (Manager.keyValidator km1) with v.
  (* Step 3: normalize when invalid *)
  assert (exists k1,
    (if Validator.isValid (Validator.validated v (Generator.key generated))
     then ret (Generator.key generated)
     else Manager.onValidator (Validator.normalizeKey (Generator.key generated)))
      km1 = (k1, km1)
    /\ k1 ∉ Validator.usedKeys v) as (k1 & Hk1 & Hfresh1).
  { destruct (Validator.isValid _) eqn:Hvalid.
    - exists (Generator.key generated). split; [reflexivity|].
      now apply isValid_iff in Hvalid.
    - eexists. unfold Manager.onValidator.
      rewrite normalizeKey_run, Eta.
      apply truthy_true in Hne. rewrite Hne. split; [reflexivity|].
      apply ensureUniqueness_fresh. }
  unfold bind at 1. rewrite Hk1.
  (* Step 4: the duplicate checks read the detector *)
  unfold bind at 1. unfold Manager.onDetector at 1, Detector.checkKeyDuplicate, gets.
  rewrite Eta.
  unfold bind at 1. unfold Manager.onDetector at 1, Detector.checkValueDuplicate, gets.
  rewrite Eta.
  (* Step 5: a duplicate key gets a suffix *)
  match goal with
  | |- context [Detector.isDuplicate ?r] =>
      generalize (Detector.isDuplicate r) as dup;
      generalize (Detector.existingKey r) as existing
  end.
  intros existing dup.
  assert (exists k2,
    (if dup then Manager.handleKeyDuplicate k1 context else ret k1) km1 = (k2, km1)
    /\ k2 ∉ Validator.usedKeys v) as (k2 & Hk2 & Hfresh2).
  { destruct dup.
    - destruct (handleKeyDuplicate_runs k1 context km1) as (k & Hk & Hf & _).
      exists k. auto.
    - exists k1. auto. }
  unfold bind at 1. rewrite Hk2.
  unfold bind, Manager.onValidator, Validator.markKeyAsUsed, modify, ret.
  eexists _, _. split; [reflexivity|]. cbn.
  repeat split; [exact Hfresh2 | exact Hopt].
Qed.

Lemma generateKeys_run (matches : list Manager.TextMatch) (km : Manager.KeyManager) :
  1 <= Generator.maxLength (Generator.options (Manager.keyGenerator km)) ->
  exists results km',
    Manager.generateKeys matches km = (results, km')
    /\ length results = length matches
    /\ List.map Generator.originalText results = List.map Manager.text matches
    /\ List.NoDup (List.map Generator.key results)
    /\ (forall k, In k (List.map Generator.key results) ->
                  k ∉ Validator.usedKeys (Manager.keyValidator km))
    /\ (forall k, k ∈ Validator.usedKeys (Manager.keyValidator km') <->
                  In k (List.map Generator.key results)
                  \/ k ∈ Validator.usedKeys (Manager.keyValidator km)).
Proof.
  revert km. induction matches as [|m rest IH]; intros km Hmax.
  - exists [], km. repeat split; simpl; try tauto; constructor.
  - cbn [Manager.generateKeys]. unfold bind at 1.
    destruct (processTextForKey_fresh (Manager.text m) (lit "en")
                (Manager.context m) km Hmax)
      as (result & km1 & -> & Hfresh & Hused & Hopt & _).
    unfold bind at 1.
    destruct (IH km1) as (results & km' & -> & Hlen & Htexts & ND & Hnew & Hall).
    { now rewrite Hopt. }
    unfold ret. eexists _, _. split; [reflexivity|]. cbn.
    repeat split.
    + now rewrite Hlen.
    + now rewrite Htexts.
    + constructor; [|exact ND]. intros Hin. apply Hnew in Hin.
      apply Hin. rewrite Hused. apply elem_of_union_l. now apply elem_of_singleton.
    + intros k [<-|Hin]; [exact Hfresh|].
      apply Hnew in Hin. intros Hk. apply Hin. rewrite Hused.
      now apply elem_of_union_r.
    + intros Hk. apply Hall in Hk as [Hk|Hk]; [tauto|].
      rewrite Hused in Hk. apply elem_of_union in Hk as [Hk%elem_of_singleton|Hk];
        [left; left; congruence | tauto].
    + intros [[<-|Hin]|Hk]; apply Hall.
      * right. rewrite Hused. apply elem_of_union_l. now apply elem_of_singleton.
      * now left.
      * right. rewrite Hused. now apply elem_of_union_r.
Qed.

(** ** Claims about the key manager *)

(** C1: with a length ceiling of at least 1 for generated keys (the
    configuration allows 10 to 200), [generateKeys] turns a batch of N
    matches, whatever their texts and whatever the manager has loaded or
    produced before, into N results, one per match and in order, whose keys
    are pairwise different. *)
Theorem generateKeys_distinct (km : Manager.KeyManager)
    (matches : list Manager.TextMatch) :
  1 <= Generator.maxLength (Generator.options (Manager.keyGenerator km)) ->
  length (evalState (Manager.generateKeys matches) km) = length matches
  /\ List.map Generator.originalText (evalState (Manager.generateKeys matches) km)
     = List.map Manager.text matches
  /\ List.NoDup
       (List.map Generator.key (evalState (Manager.generateKeys matches) km)).
Proof.
  intros Hmax.
  destruct (generateKeys_run matches km Hmax)
    as (results & km' & Hrun & Hlen & Htexts & ND & _).
  unfold evalState. rewrite Hrun. auto.
Qed.

Lemma generateKeys_distinct_witness :
  1 <= Generator.maxLength (Generator.options (Manager.keyGenerator sample_manager))
  /\ List.map Generator.key (evalState (Manager.generateKeys sample_matches) sample_manager)
     = [lit "btn_save_1"; lit "label_save"; lit "hello_dnia"]
  /\ List.NoDup
       (List.map Generator.key
          (evalState (Manager.generateKeys sample_matches) sample_manager)).
Proof.
  split; [vm_compute; discriminate|]. split; [vm_compute; reflexivity|].
  apply (generateKeys_distinct sample_manager sample_matches).
  vm_compute; discriminate.
Defined.

(** * Further properties of the key validator *)

(** ** The numbering loops take the least free counter *)

Lemma first_unused_least (used : gset jsstring) (fuel : nat)
    (key u : jsstring) (c : N) (k : jsstring) :
  first_unused used fuel key u c = Some k ->
  (k = u /\ u ∉ used)
  \/ (u ∈ used
      /\ exists n, (c <= n)%N /\ k = numbered key n /\ (k ∉ used)
                   /\ forall m, (c <= m < n)%N -> numbered key m ∈ used).
Proof.
  revert u c. induction fuel as [|fuel IH]; simpl; intros u c H; [discriminate|].
  case_bool_decide as Hu.
  - right. split; [exact Hu|].
    apply IH in H as [[-> Hfree] | (Hused & n & Hn & -> & Hfree & Hbelow)].
    + exists c. repeat split; [lia | exact Hfree | intros m Hm; lia].
    + exists n. repeat split; [lia | exact Hfree |].
      intros m Hm. destruct (N.eq_dec m c) as [->|Hne]; [exact Hused|].
      apply Hbelow. lia.
  - left. inversion H; subst. auto.
Qed.

Lemma numbering_loop_run (fuel : nat) (baseKey : jsstring) (c : N)
    (v : Validator.KeyValidator) :
  Validator.numbering_loop fuel baseKey c v
  = (first_unused (Validator.usedKeys v) fuel baseKey (numbered baseKey c)
       (c + 1)%N, v).
Proof.
  revert c. induction fuel as [|fuel IH]; intros c; [reflexivity|].
  simpl. unfold bind, Validator.isKeyUsed, gets, ret.
  case_bool_decide; [apply IH | reflexivity].
Qed.

(** X1: [ensureUniqueness] of the validator returns a key that is not in
    use: the key itself when it is free, and otherwise the key with the
    least counter, from 1 on, whose numbered form is free. *)
Theorem ensureUniqueness_least_counter (key : jsstring)
    (v : Validator.KeyValidator) :
  (evalState (Validator.ensureUniqueness key) v ∉ Validator.usedKeys v)
  /\ (key ∉ Validator.usedKeys v ->
      evalState (Validator.ensureUniqueness key) v = key)
  /\ (key ∈ Validator.usedKeys v ->
      exists n, (1 <= n)%N
        /\ evalState (Validator.ensureUniqueness key) v = numbered key n
        /\ forall m, (1 <= m < n)%N -> numbered key m ∈ Validator.usedKeys v).
Proof.
  unfold evalState. rewrite V_ensureUniqueness_run. cbn [fst].
  destruct (first_unused_Some (Validator.usedKeys v) key) as [k Hk].
  rewrite Hk. cbn [default].
  pose proof (first_unused_fresh _ _ _ _ _ _ Hk) as Hfree.
  apply first_unused_least in Hk as [[-> Hu] | (Hu & n & Hn & -> & _ & Hbelow)].
  - split; [exact Hfree|]. split; [reflexivity | tauto].
  - split; [exact Hfree|]. split; [tauto|]. intros _. exists n. auto.
Qed.

(** X2: [generateUniqueKey] never returns the base key: it returns the base
    key with the least counter, from 1 on, whose numbered form is not in
    use, and leaves the validator as it was. *)
Theorem generateUniqueKey_least_counter (baseKey : jsstring)
    (v : Validator.KeyValidator) :
  exists n, (1 <= n)%N
    /\ Validator.generateUniqueKey baseKey v = (numbered baseKey n, v)
    /\ (numbered baseKey n ∉ Validator.usedKeys v)
    /\ forall m, (1 <= m < n)%N -> numbered baseKey m ∈ Validator.usedKeys v.
Proof.
  unfold Validator.generateUniqueKey, bind, gets, ret.
  rewrite numbering_loop_run.
  destruct (first_unused_numbered_Some (Validator.usedKeys v) baseKey 1
              (S (size (Validator.usedKeys v)))) as [k Hk]; [lia|].
  rewrite Hk. cbn [default].
  pose proof (first_unused_fresh _ _ _ _ _ _ Hk) as Hfree.
  apply first_unused_least in Hk as [[-> Hu] | (Hu & n & Hn & -> & _ & Hbelow)].
  - exists 1%N. repeat split; [lia | exact Hu | intros m Hm; lia].
  - exists n. repeat split; [lia | exact Hfree |].
    intros m Hm. destruct (N.eq_dec m 1%N) as [->|Hne]; [exact Hu|].
    apply Hbelow. lia.
Qed.

(** ** Sanitizing, truncating and padding *)

(** X3: [sanitizeKey] returns, for every string, a key made of [[a-z0-9_]]
    only, without two underscores in a row and without an underscore at
    either end; sanitizing such a key again changes nothing. *)
Theorem sanitizeKey_shape_idempotent (key : jsstring) :
  forallb key_char (Validator.sanitizeKey key) = true
  /\ Validator.has_double_underscore (Validator.sanitizeKey key) = false
  /\ starts_underscore (Validator.sanitizeKey key) = false
  /\ ends_underscore (Validator.sanitizeKey key) = false
  /\ Validator.sanitizeKey (Validator.sanitizeKey key) = Validator.sanitizeKey key.
Proof.
  pose proof (sanitizeKey_clean key) as Hshape.
  pose proof (sanitizeKey_id _ Hshape) as Hid.
  apply key_shape_iff in Hshape as (Hc & Hd & Hs & He).
  repeat split; assumption.
Qed.

(** X4: with a length ceiling that is not negative, the validator's
    [truncateKey] returns a key of at most [maxLength] characters, and the
    key itself when it is short enough. *)
Theorem validator_truncateKey_within_maxLength (r : Validator.KeyValidationRules)
    (key : jsstring) :
  0 <= Validator.maxLength r ->
  len (Validator.truncateKey r key) <= Validator.maxLength r
  /\ (len key <= Validator.maxLength r -> Validator.truncateKey r key = key).
Proof.
  intros Hmax. split.
  - now apply validator_truncateKey_bound.
  - intros Hshort. unfold Validator.truncateKey.
    destruct (Z.leb_spec (len key) (Validator.maxLength r)); [reflexivity | lia].
Qed.

Lemma validator_truncateKey_within_maxLength_witness :
  0 <= Validator.maxLength sample_rules
  /\ Validator.truncateKey sample_rules (lit "save_file_x") = lit "save_file"
  /\ len (Validator.truncateKey sample_rules (lit "save_file_x"))
     <= Validator.maxLength sample_rules.
Proof.
  split; [vm_compute; discriminate|]. split; [vm_compute; reflexivity|].
  apply (validator_truncateKey_within_maxLength sample_rules (lit "save_file_x")).
  vm_compute; discriminate.
Defined.

Lemma pad_loop_extends (fuel : nat) (minLen : Z) (key : jsstring) (counter : N) :
  exists suffix, Validator.pad_loop fuel minLen key counter = key ++ suffix.
Proof.
  revert key counter. induction fuel as [|fuel IH]; intros key counter; simpl.
  - exists []. now rewrite app_nil_r.
  - destruct (len key <? minLen).
    + destruct (IH (numbered key counter) (counter + 1)%N) as [suffix ->].
      unfold numbered. rewrite <- app_assoc. eauto.
    + exists []. now rewrite app_nil_r.
Qed.

(** X5: [padKey] returns a key of at least [minLength] characters that
    starts with the key it was given; a key that is long enough comes back
    unchanged. *)
Theorem padKey_reaches_minLength (r : Validator.KeyValidationRules)
    (key : jsstring) :
  Validator.minLength r <= len (Validator.padKey r key)
  /\ (exists suffix, Validator.padKey r key = key ++ suffix)
  /\ (Validator.minLength r <= len key -> Validator.padKey r key = key).
Proof.
  split; [apply padKey_long_enough|]. split.
  - unfold Validator.padKey.
    destruct (_ <=? len key); [exists []; now rewrite app_nil_r|].
    repeat match goal with
           | |- context [if ?b then _ else _] => destruct b; [eauto|]
           end.
    apply pad_loop_extends.
  - intros Hlong. unfold Validator.padKey.
    destruct (Z.leb_spec (Validator.minLength r) (len key)); [reflexivity | lia].
Qed.

(** ** The set of used keys *)

(** X6: a key recorded by [markKeyAsUsed] or [addExistingKeys] is reported
    by [isKeyUsed] and rejected by [validateKey], with the error that it is
    already in use when it is not empty; after [clearUsedKeys] no key is in
    use. *)
Theorem used_key_is_rejected (v : Validator.KeyValidator) (key : jsstring)
    (keys : list jsstring) :
  evalState (Validator.isKeyUsed key) (execState (Validator.markKeyAsUsed key) v)
  = true
  /\ Validator.isValid
       (Validator.validated (execState (Validator.markKeyAsUsed key) v) key)
     = false
  /\ (key <> [] ->
      In Validator.AlreadyInUse
        (Validator.errors
           (Validator.validated (execState (Validator.markKeyAsUsed key) v) key)))
  /\ (In key keys ->
      evalState (Validator.isKeyUsed key)
        (execState (Validator.addExistingKeys keys) v) = true
      /\ Validator.isValid
           (Validator.validated (execState (Validator.addExistingKeys keys) v) key)
         = false)
  /\ (forall k, evalState (Validator.isKeyUsed k)
                  (execState Validator.clearUsedKeys v) = false).
Proof.
  assert (forall v' : Validator.KeyValidator, key ∈ Validator.usedKeys v' ->
            Validator.isValid (Validator.validated v' key) = false) as Hrejected.
  { intros v' Hused.
    destruct (Validator.isValid (Validator.validated v' key)) eqn:E; [|reflexivity].
    apply isValid_iff in E. exfalso. tauto. }
  assert (key ∈ Validator.usedKeys (execState (Validator.markKeyAsUsed key) v))
    as Hmarked by (cbn; apply elem_of_union_l; now apply elem_of_singleton).
  split; [cbn; now apply bool_decide_eq_true_2|].
  split; [now apply Hrejected|].
  split.
  - intros Hne. generalize dependent (execState (Validator.markKeyAsUsed key) v).
    intros v' Hused.
    unfold Validator.validated, evalState, Validator.validateKey.
    apply truthy_true in Hne. rewrite Hne. cbn [negb].
    cbv beta iota delta [bind gets Validator.isKeyUsed ret].
    cbn [fst Validator.errors].
    rewrite (bool_decide_eq_true_2 _ Hused).
    rewrite !in_app_iff. do 5 right. now left.
  - split.
    + intros Hin.
      assert (key ∈ Validator.usedKeys (execState (Validator.addExistingKeys keys) v))
        as Hadded.
      { cbn. apply elem_of_union_l, elem_of_list_to_set.
        now apply list_elem_of_In. }
      split; [cbn; now apply bool_decide_eq_true_2 | now apply Hrejected].
    + intros k. cbn. apply bool_decide_eq_false_2. apply not_elem_of_empty.
Qed.

(** X7: for every set of rules, [normalizeKey] of a string that is not empty
    returns a key that is not in use. *)
Theorem normalizeKey_unused (v : Validator.KeyValidator) (s : jsstring) :
  s <> [] -> Validator.normalized v s ∉ Validator.usedKeys v.
Proof.
  intros Hs. unfold Validator.normalized, evalState.
  rewrite normalizeKey_run. cbn [fst].
  apply truthy_true in Hs. rewrite Hs.
  apply ensureUniqueness_fresh.
Qed.

Lemma normalizeKey_unused_witness :
  lit "Hello World" <> []
  /\ Validator.normalized sample_validator (lit "Hello World") = lit "hello_world_1"
  /\ (Validator.normalized sample_validator (lit "Hello World")
      ∉ Validator.usedKeys sample_validator).
Proof.
  split; [vm_compute; discriminate|]. split; [vm_compute; reflexivity|].
  apply (normalizeKey_unused sample_validator (lit "Hello World")).
  vm_compute; discriminate.
Defined.

(** * Further properties of the key generator and the key manager *)

(** ** How far the generator's truncation can overshoot *)

Lemma generator_truncate_parts_overshoot (maxLen : Z) (parts : list jsstring)
    (result : jsstring) :
  len result <= maxLen ->
  len (Generator.truncate_parts maxLen parts result) <= maxLen + 2.
Proof.
  revert result. induction parts as [|part rest IH]; intros result Hr; [simpl; lia|].
  simpl. destruct (Z.leb_spec (len result + len part + 1) maxLen).
  - apply IH. pose proof (append_part_len result part). lia.
  - set (room := Z.max 1 (maxLen - len result - 1)).
    pose proof (substring0_len part room ltac:(unfold room; lia)) as Habbr.
    pose proof (append_part_len result (substring0 part room)) as Happ.
    destruct (0 <? len (substring0 part room)); unfold room in *; lia.
Qed.

(** X8: with a length ceiling of at least 1, the generator's [truncateKey]
    returns, for a key that is not empty, a key that is not empty and at
    most two characters longer than [maxLength]. *)
Theorem generator_truncateKey_overshoot (o : Generator.KeyGenerationOptions)
    (key : jsstring) :
  1 <= Generator.maxLength o -> key <> [] ->
  1 <= len (Generator.truncateKey o key) <= Generator.maxLength o + 2.
Proof.
  intros Hmax Hkey. split.
  - pose proof (generator_truncateKey_nonempty o key Hmax Hkey) as Hne.
    destruct (Generator.truncateKey o key); [contradiction|].
    rewrite len_cons. pose proof (len_nonneg l). lia.
  - unfold Generator.truncateKey.
    destruct (Z.leb_spec (len key) (Generator.maxLength o)); [lia|].
    pose proof (substring0_len key (Generator.maxLength o) ltac:(lia)).
    destruct (_ =? _)%nat; [lia|].
    destruct (truthy _); [|lia].
    apply generator_truncate_parts_overshoot. unfold len. simpl. lia.
Qed.

Lemma generator_truncateKey_overshoot_witness :
  1 <= Generator.maxLength sample_options
  /\ lit "save_file5_x" <> []
  /\ Generator.truncateKey sample_options (lit "save_file5_x") = lit "save_file5_x"
  /\ 1 <= len (Generator.truncateKey sample_options (lit "save_file5_x"))
       <= Generator.maxLength sample_options + 2.
Proof.
  split; [vm_compute; discriminate|]. split; [vm_compute; discriminate|].
  split; [vm_compute; reflexivity|].
  apply (generator_truncateKey_overshoot sample_options (lit "save_file5_x"));
    vm_compute; discriminate.
Defined.

(** ** The generator never hands out a key twice *)

Lemma generateKey_state (text : jsstring) (context : option jsstring)
    (g : Generator.KeyGenerator) :
  exists generated,
    Generator.generateKey text context g
    = (generated,
       {| Generator.options := Generator.options g;
          Generator.usedKeys :=
            {[Generator.key generated]} ∪ Generator.usedKeys g |})
    /\ (Generator.key generated ∉ Generator.usedKeys g).
Proof.
  unfold Generator.generateKey, bind, gets, ret.
  set (sk := Generator.createSemanticKey _ _ _).
  destruct (generator_ensureUniqueness_runs sk g) as (k & Hloop & -> & _).
  eexists (Generator.Build_GeneratedKey k _ _ _). split; [reflexivity|].
  cbn [Generator.key].
  rewrite G_unique_loop_run in Hloop.
  apply (f_equal fst) in Hloop. cbn [fst] in Hloop.
  eapply first_unused_fresh, Hloop.
Qed.

(** X9: [generateKey] returns a key that the generator has not handed out
    or been given before, and records it: the next call, whatever its text
    and context, returns another key, and no key given to [addExistingKeys]
    is ever returned. *)
Theorem generateKey_never_repeats (g : Generator.KeyGenerator)
    (text1 text2 : jsstring) (context1 context2 : option jsstring)
    (keys : list jsstring) :
  (Generator.key (evalState (Generator.generateKey text1 context1) g)
   ∉ Generator.usedKeys g)
  /\ Generator.key
       (evalState (Generator.generateKey text2 context2)
          (execState (Generator.generateKey text1 context1) g))
     <> Generator.key (evalState (Generator.generateKey text1 context1) g)
  /\ ~ In (Generator.key
             (evalState (Generator.generateKey text1 context1)
                (execState (Generator.addExistingKeys keys) g)))
          keys.
Proof.
  unfold evalState, execState.
  destruct (generateKey_state text1 context1 g) as (r1 & -> & Hfresh1).
  cbn [fst snd]. split; [exact Hfresh1|]. split.
  - match goal with
    | |- context [Generator.generateKey text2 context2 ?g1] =>
        destruct (generateKey_state text2 context2 g1) as (r2 & -> & Hfresh2)
    end.
    cbn [fst Generator.usedKeys] in *. intros Heq. apply Hfresh2.
    rewrite Heq. apply elem_of_union_l. now apply elem_of_singleton.
  - match goal with
    | |- context [Generator.generateKey text1 context1 ?g1] =>
        destruct (generateKey_state text1 context1 g1) as (r & -> & Hfresh)
    end.
    cbn [fst snd Generator.addExistingKeys modify Generator.usedKeys] in *.
    intros Hin. apply Hfresh.
    apply elem_of_union_l, elem_of_list_to_set. now apply list_elem_of_In.
Qed.

(** ** The key manager *)

Lemma generateContextualSuffix_extends (baseKey context : jsstring) :
  exists suffix,
    Detector.generateContextualSuffix baseKey context
    = baseKey ++ underscore :: suffix.
Proof.
  unfold Detector.generateContextualSuffix.
  destruct (truthy _); [eauto|]. now exists (lit "alt").
Qed.

(** X10: [handleKeyDuplicate] returns the key it was given followed by an
    underscore and a suffix, so another key, and one that is not in use; it
    changes nothing in the manager. *)
Theorem handleKeyDuplicate_fresh (key : jsstring) (context : option jsstring)
    (km : Manager.KeyManager) :
  exists suffix,
    Manager.handleKeyDuplicate key context km = (key ++ underscore :: suffix, km)
    /\ (key ++ underscore :: suffix
        ∉ Validator.usedKeys (Manager.keyValidator km))
    /\ key ++ underscore :: suffix <> key.
Proof.
  destruct (handleKeyDuplicate_runs key context km) as (k & Hrun & Hfree & Hshape).
  assert (exists suffix, k = key ++ underscore :: suffix) as [suffix ->].
  { destruct Hshape as [-> | Hloop].
    - apply generateContextualSuffix_extends.
    - rewrite alternative_loop_run in Hloop.
      apply (f_equal fst) in Hloop. cbn [fst] in Hloop.
      apply first_unused_shape in Hloop as [-> | [n ->]];
        unfold numbered; eauto. }
  exists suffix. repeat split; [exact Hrun | exact Hfree |].
  intros Heq. apply (f_equal (@length N)) in Heq.
  rewrite length_app in Heq. simpl in Heq. lia.
Qed.

Lemma loadExistingTranslations_state
    (data : list (jsstring * list (jsstring * jsstring)))
    (km : Manager.KeyManager) :
  Validator.usedKeys
    (Manager.keyValidator (execState (Manager.loadExistingTranslations data) km))
  = list_to_set (List.concat (List.map (fun e => List.map fst (snd e)) data))
    ∪ Validator.usedKeys (Manager.keyValidator km)
  /\ Generator.options
       (Manager.keyGenerator (execState (Manager.loadExistingTranslations data) km))
     = Generator.options (Manager.keyGenerator km).
Proof. split; reflexivity. Qed.

(** X11: with a length ceiling of at least 1 for generated keys, no key of
    the translations given to [loadExistingTranslations], and no key
    registered with [addTranslationEntry], is among the keys that a later
    [generateKeys] returns. *)
Theorem registered_keys_not_generated (km : Manager.KeyManager)
    (matches : list Manager.TextMatch)
    (data : list (jsstring * list (jsstring * jsstring)))
    (key value locale : jsstring) :
  1 <= Generator.maxLength (Generator.options (Manager.keyGenerator km)) ->
  (forall loc entries k v,
     In (loc, entries) data -> In (k, v) entries ->
     ~ In k (List.map Generator.key
               (evalState (Manager.generateKeys matches)
                  (execState (Manager.loadExistingTranslations data) km))))
  /\ ~ In key (List.map Generator.key
                 (evalState (Manager.generateKeys matches)
                    (execState (Manager.addTranslationEntry key value locale) km))).
Proof.
  intros Hmax. split.
  - intros loc entries k v Hdata Hentry Hin.
    destruct (loadExistingTranslations_state data km) as [Hused Hopt].
    destruct (generateKeys_run matches
                (execState (Manager.loadExistingTranslations data) km))
      as (results & km' & Hrun & _ & _ & _ & Hnew & _);
      [now rewrite Hopt|].
    unfold evalState in Hin. rewrite Hrun in Hin. cbn [fst] in Hin.
    apply (Hnew k Hin). rewrite Hused.
    apply elem_of_union_l, elem_of_list_to_set, list_elem_of_In, in_concat.
    exists (List.map fst entries). split.
    + apply in_map_iff. now exists (loc, entries).
    + apply in_map_iff. now exists (k, v).
  - intros Hin.
    destruct (generateKeys_run matches
                (execState (Manager.addTranslationEntry key value locale) km))
      as (results & km' & Hrun & _ & _ & _ & Hnew & _); [exact Hmax|].
    unfold evalState in Hin. rewrite Hrun in Hin. cbn [fst] in Hin.
    apply (Hnew key Hin). cbn.
    apply elem_of_union_l. now apply elem_of_singleton.
Qed.

Lemma registered_keys_not_generated_witness :
  1 <= Generator.maxLength (Generator.options (Manager.keyGenerator sample_manager))
  /\ List.map Generator.key
       (evalState (Manager.generateKeys sample_matches)
          (execState
             (Manager.addTranslationEntry (lit "label_save") zakhire (lit "en"))
             sample_manager))
     = [lit "btn_save_1"; lit "label_save_1"; lit "hello_dnia"]
  /\ ~ In (lit "label_save")
         (List.map Generator.key
            (evalState (Manager.generateKeys sample_matches)
               (execState
                  (Manager.addTranslationEntry (lit "label_save") zakhire (lit "en"))
                  sample_manager))).
Proof.
  split; [vm_compute; discriminate|]. split; [vm_compute; reflexivity|].
  apply (registered_keys_not_generated sample_manager sample_matches []
           (lit "label_save") zakhire (lit "en")).
  vm_compute; discriminate.
Defined.

(** * Further properties of the locale store *)

(** ** The order of the keys in a written file *)










(** ** Merging new entries into a file *)







(** ** Looking keys and values up in a file *)

Lemma obj_get_is_Some (o : Json.JSObject) (k : jsstring) :
  is_Some (Json.obj_get o k) <-> In k (List.map fst o).
Proof.
  destruct (Json.obj_get o k) eqn:E.
  - split; [intros _ | eauto]. apply obj_get_In in E.
    apply in_map_iff. now exists (k, l).
  - split; [intros [? ?]; discriminate|]. intros Hin.
    now apply obj_get_None in E.
Qed.


(** X14: [keyExists] answers true exactly when the locale can be read and
    the key is a key of its file or the name of a property that every
    object inherits, such as ["toString"]; for a locale that cannot be read
    it answers false, and for one without a file it still answers true on
    the inherited names. *)
Theorem keyExists_answers (cfg : Json.I18nIntegrationConfig)
    (fs : Json.FileSystem) (locale key : jsstring) :
  (Json.keyExists cfg fs locale key = true
   <-> exists translations,
         Json.readTranslationFile cfg fs locale = inr translations
         /\ (In key (List.map fst translations)
             \/ In key Json.OBJECT_PROTOTYPE_NAMES))
  /\ (fs !! Json.getTranslationFilePath cfg locale = None ->
      Json.keyExists cfg fs locale (lit "toString") = true).
Proof.
  split.
  - unfold Json.keyExists.
    destruct (Json.readTranslationFile cfg fs locale) as [e|translations].
    + split; [discriminate | intros (? & [=] & _)].
    + unfold Json.has_property.
      rewrite orb_true_iff, !bool_decide_eq_true, obj_get_is_Some, list_elem_of_In.
      split; [eauto | intros (? & [= <-] & H); exact H].
  - intros Hnone. unfold Json.keyExists, Json.readTranslationFile, Json.readFile.
    rewrite Hnone. reflexivity.
Qed.

Lemma keys_with_value_In (o : Json.JSObject) (v k : jsstring) :
  In k (keys_with_value o v) <-> In (k, v) o.
Proof.
  unfold keys_with_value. rewrite in_map_iff. split.
  - intros ([k' v'] & <- & [Hin Hv]%filter_In). simpl in *.
    apply bool_decide_eq_true in Hv. now subst.
  - intros Hin. exists (k, v). split; [reflexivity|].
    apply filter_In. split; [exact Hin|]. now apply bool_decide_eq_true.
Qed.

Lemma firstn_In (A : Type) (n : nat) (l : list A) (x : A) :
  In x (firstn n l) -> In x l.
Proof.
  intros Hin. rewrite <- (firstn_skipn n l). apply in_or_app. now left.
Qed.

Lemma filter_shorter (A : Type) (f : A -> bool) (l : list A) :
  (length (List.filter f l) <= length l)%nat.
Proof.
  induction l as [|a l IH]; simpl; [lia|]. destruct (f a); simpl; lia.
Qed.


(** X15: on a locale that can be read, [checkValueExists] reports a
    duplicate exactly when some key holds the very same string, and then
    names the first such key of the file; the similar keys it lists are at
    most five, each a key of the file that holds another string. On a
    locale that cannot be read it reports no duplicate. *)
Theorem checkValueExists_exact (cfg : Json.I18nIntegrationConfig)
    (fs : Json.FileSystem) (value locale : jsstring) :
  (forall translations,
     Json.readTranslationFile cfg fs locale = inr translations ->
     (Scanner.isDuplicate (Scanner.checkValueExists cfg fs value locale) = true
      <-> exists key, In (key, value) translations)
     /\ Scanner.existingKey (Scanner.checkValueExists cfg fs value locale)
        = head (keys_with_value translations value)
     /\ (length (Scanner.similarKeys (Scanner.checkValueExists cfg fs value locale))
         <= 5)%nat
     /\ (forall key,
           In key (Scanner.similarKeys (Scanner.checkValueExists cfg fs value locale)) ->
           exists other, In (key, other) translations /\ other <> value))
  /\ (forall error,
        Json.readTranslationFile cfg fs locale = inl error ->
        Scanner.checkValueExists cfg fs value locale
        = {| Scanner.isDuplicate := false; Scanner.existingKey := None;
             Scanner.similarKeys := [] |}).
Proof.
  split.
  - intros translations Hread.
    unfold Scanner.checkValueExists, Scanner.findSimilarValues. rewrite Hread.
    cbn [Scanner.isDuplicate Scanner.existingKey Scanner.similarKeys].
    fold (keys_with_value translations value).
    split; [|split; [reflexivity|split]].
    + rewrite Nat.ltb_lt. split.
      * destruct (keys_with_value translations value) as [|key ks] eqn:E;
          [simpl; lia|].
        intros _. exists key. apply keys_with_value_In. rewrite E. now left.
      * intros [key Hin%keys_with_value_In].
        destruct (keys_with_value translations value); [contradiction | simpl; lia].
    + etransitivity; [apply filter_shorter|].
      rewrite length_firstn. lia.
    + intros key [Hin _]%filter_In.
      apply firstn_In, in_map_iff in Hin
        as ([k other] & <- & [Hin Hother]%filter_In).
      exists other. split; [exact Hin|].
      apply andb_true_iff in Hother as [_ Hne]. simpl in Hne.
      apply negb_true_iff, bool_decide_eq_false in Hne. exact Hne.
  - intros error Hread. unfold Scanner.checkValueExists. now rewrite Hread.
Qed.



(** ** The store-level duplicate scanner *)

(** X17: the number of duplicates in the report of [scanForDuplicateValues]
    is the number of groups found in the source locale plus the number
    found in the target locale, so a locale that is both is counted twice;
    a locale that cannot be read adds nothing and raises no error. *)
Theorem scan_counts_groups (cfg : Json.I18nIntegrationConfig) (fs : Json.FileSystem) :
  Scanner.totalDuplicates (Scanner.scanForDuplicateValues cfg fs)
  = (length (Scanner.findDuplicatesInLocale cfg fs (Json.source cfg))
     + length (Scanner.findDuplicatesInLocale cfg fs (Json.target cfg)))%nat
  /\ (forall locale error,
        Json.readTranslationFile cfg fs locale = inl error ->
        Scanner.findDuplicatesInLocale cfg fs locale = []).
Proof.
  split.
  - unfold Scanner.scanForDuplicateValues. cbn [fold_left].
    destruct (Scanner.findDuplicatesInLocale cfg fs (Json.source cfg)) as [|g1 l1];
      destruct (Scanner.findDuplicatesInLocale cfg fs (Json.target cfg)) as [|g2 l2];
      cbn [length Nat.ltb Nat.leb Scanner.totalDuplicates Nat.add];
      lia.
  - intros locale error Hread. unfold Scanner.findDuplicatesInLocale.
    now rewrite Hread.
Qed.





(** * Further properties of the in-memory duplicate detector *)

(** ** Entries that were added are found *)

Lemma has_key_in_some_locale (d : Detector.DuplicateDetector)
    (locale key : jsstring) :
  Detector.has_key d locale key = true ->
  existsb (fun loc => Detector.has_key d loc key)
    (List.map fst (map_to_list (Detector.translationData d))) = true.
Proof.
  intros Hkey. apply existsb_exists. exists locale. split; [|exact Hkey].
  unfold Detector.has_key in Hkey.
  destruct (Detector.translationData d !! locale) as [localeData|] eqn:E;
    [|discriminate].
  apply in_map_iff. exists (locale, localeData). split; [reflexivity|].
  now apply list_elem_of_In, elem_of_map_to_list.
Qed.

Lemma checkKeyDuplicate_found (d : Detector.DuplicateDetector)
    (locale key : jsstring) (asked : option jsstring) :
  Detector.has_key d locale key = true ->
  asked = Some locale \/ asked = None ->
  evalState (Detector.checkKeyDuplicate key asked) d
  = {| Detector.isDuplicate := true; Detector.existingKey := Some key |}.
Proof.
  intros Hkey Hasked. unfold evalState, Detector.checkKeyDuplicate, gets.
  cbn [fst].
  match goal with
  | |- context [existsb ?f ?l] => assert (existsb f l = true) as ->
  end; [|reflexivity].
  destruct Hasked as [-> | ->]; [destruct (truthy locale)|];
    try now apply (has_key_in_some_locale d locale).
  simpl. now rewrite Hkey.
Qed.

(** X18: an entry added with [addTranslationEntry] is found again:
    [checkKeyDuplicate] reports its key, asked for the entry's locale or
    for no locale, and [checkValueDuplicate] reports in that locale every
    value with the same normalized form, naming the entry's key when no
    earlier key was filed under that form. *)
Theorem detector_entry_found (d : Detector.DuplicateDetector)
    (key value locale value' : jsstring) :
  evalState (Detector.checkKeyDuplicate key (Some locale))
    (execState (Detector.addTranslationEntry key value locale) d)
  = {| Detector.isDuplicate := true; Detector.existingKey := Some key |}
  /\ evalState (Detector.checkKeyDuplicate key None)
       (execState (Detector.addTranslationEntry key value locale) d)
     = {| Detector.isDuplicate := true; Detector.existingKey := Some key |}
  /\ (Detector.normalizeValue value' = Detector.normalizeValue value ->
      Detector.isDuplicate
        (evalState (Detector.checkValueDuplicate value' locale)
           (execState (Detector.addTranslationEntry key value locale) d))
      = true
      /\ (Detector.valueToKeys d !! locale ≫= (.!! Detector.normalizeValue value)
          = None ->
          Detector.existingKey
            (evalState (Detector.checkValueDuplicate value' locale)
               (execState (Detector.addTranslationEntry key value locale) d))
          = Some key)).
Proof.
  assert (Detector.has_key
            (execState (Detector.addTranslationEntry key value locale) d)
            locale key = true) as Hkey.
  { unfold Detector.has_key. cbn. rewrite lookup_insert_eq.
    apply bool_decide_eq_true. rewrite lookup_insert_eq. eauto. }
  split; [apply (checkKeyDuplicate_found _ locale); auto|].
  split; [apply (checkKeyDuplicate_found _ locale); auto|].
  intros Hsame. unfold evalState, Detector.checkValueDuplicate, gets.
  cbn [fst execState snd Detector.addTranslationEntry modify
       Detector.valueToKeys Detector.add_key].
  rewrite lookup_insert_eq. cbn [mbind option_bind]. rewrite Hsame.
  rewrite lookup_insert_eq. split; [reflexivity|].
  intros Hnone. cbn [Detector.existingKey].
  destruct (Detector.valueToKeys d !! locale) as [valueMap|]; cbn in *.
  - now rewrite Hnone.
  - now rewrite lookup_empty.
Qed.

(** ** What [loadTranslationData] files *)

Lemma add_keys_has (entries : list (jsstring * jsstring))
    (maps : gmap jsstring jsstring * gmap jsstring (list jsstring))
    (key : jsstring) :
  is_Some
    (fst (fold_left (fun m kv => Detector.add_key (fst kv) (snd kv) m) entries maps)
     !! key)
  <-> In key (List.map fst entries) \/ is_Some (fst maps !! key).
Proof.
  revert maps. induction entries as [|[k v] entries IH]; intros maps; simpl.
  - tauto.
  - rewrite IH. cbn [Detector.add_key fst].
    destruct (decide (k = key)) as [->|Hne].
    + rewrite lookup_insert_eq. split; eauto.
    + rewrite lookup_insert_ne by exact Hne. tauto.
Qed.

Lemma add_keys_groups (entries : list (jsstring * jsstring))
    (maps : gmap jsstring jsstring * gmap jsstring (list jsstring))
    (normalizedValue : jsstring) :
  snd (fold_left (fun m kv => Detector.add_key (fst kv) (snd kv) m) entries maps)
  !! normalizedValue
  = match keys_with_normalized_value entries normalizedValue with
    | [] => snd maps !! normalizedValue
    | ks => Some (default [] (snd maps !! normalizedValue) ++ ks)
    end.
Proof.
  revert maps. induction entries as [|[k v] entries IH]; intros maps;
    [reflexivity|].
  cbn [fold_left fst snd]. rewrite IH.
  unfold keys_with_normalized_value. cbn [List.filter snd Detector.add_key].
  case_bool_decide as Hv.
  - rewrite Hv. rewrite lookup_insert_eq. cbn [List.map fst default].
    destruct (List.map fst _); [reflexivity|].
    unfold id. now rewrite <- app_assoc.
  - rewrite lookup_insert_ne by exact Hv. reflexivity.
Qed.

Lemma load_locale (data : list (jsstring * list (jsstring * jsstring)))
    (d0 : Detector.DuplicateDetector) (locale : jsstring)
    (entries : list (jsstring * jsstring)) :
  List.NoDup (List.map fst data) -> In (locale, entries) data ->
  let loaded :=
    fold_left
      (fun d (entry : jsstring * list (jsstring * jsstring)) =>
         let maps :=
           fold_left (fun m kv => Detector.add_key (fst kv) (snd kv) m)
             (snd entry) (∅, ∅) in
         {| Detector.translationData :=
              <[fst entry := fst maps]> (Detector.translationData d);
            Detector.valueToKeys :=
              <[fst entry := snd maps]> (Detector.valueToKeys d) |})
      data d0 in
  let maps :=
    fold_left (fun m kv => Detector.add_key (fst kv) (snd kv) m) entries (∅, ∅) in
  Detector.translationData loaded !! locale = Some (fst maps)
  /\ Detector.valueToKeys loaded !! locale = Some (snd maps).
Proof.
  cbv zeta. revert d0. induction data as [|[loc es] data IH]; intros d0 ND Hin;
    [contradiction|].
  inversion ND as [|? ? Hfresh ND']; subst. cbn [fold_left fst snd].
  destruct Hin as [[= -> ->] | Hin]; [|now apply IH].
  clear IH ND. simpl in Hfresh.
  match goal with
  | |- context [fold_left ?f data ?d1] =>
      assert (Detector.translationData d1 !! locale
              = Some (fst (fold_left (fun m kv => Detector.add_key (fst kv) (snd kv) m)
                             entries (∅, ∅)))
              /\ Detector.valueToKeys d1 !! locale
                 = Some (snd (fold_left (fun m kv => Detector.add_key (fst kv) (snd kv) m)
                                entries (∅, ∅)))) as Hd1
        by (split; apply lookup_insert_eq);
      generalize dependent d1
  end.
  induction data as [|[loc es] data IH]; intros d1 Hd1; [exact Hd1|].
  cbn [fold_left fst snd]. simpl in Hfresh, ND'. inversion ND'; subst.
  apply IH; [tauto | assumption |].
  cbn [Detector.translationData Detector.valueToKeys].
  rewrite !lookup_insert_ne by tauto. exact Hd1.
Qed.

(** X19: after [loadTranslationData], for a locale of the data with its
    entries: [checkKeyDuplicate] finds exactly the keys of the entries, and
    [checkValueDuplicate] reports a value exactly when an entry has a value
    of the same normalized form, naming the first such key in the order of
    the entries. What the detector held before is gone. *)
Theorem loadTranslationData_lookup
    (data : list (jsstring * list (jsstring * jsstring)))
    (d0 : Detector.DuplicateDetector) (locale : jsstring)
    (entries : list (jsstring * jsstring)) (key value : jsstring) :
  List.NoDup (List.map fst data) -> In (locale, entries) data ->
  (Detector.has_key (execState (Detector.loadTranslationData data) d0) locale key
   = true <-> In key (List.map fst entries))
  /\ (Detector.isDuplicate
        (evalState (Detector.checkValueDuplicate value locale)
           (execState (Detector.loadTranslationData data) d0)) = true
      <-> exists k v, In (k, v) entries
                      /\ Detector.normalizeValue v = Detector.normalizeValue value)
  /\ Detector.existingKey
       (evalState (Detector.checkValueDuplicate value locale)
          (execState (Detector.loadTranslationData data) d0))
     = head (keys_with_normalized_value entries (Detector.normalizeValue value)).
Proof.
  intros ND Hin.
  pose proof (load_locale data Detector.empty locale entries ND Hin) as Hloaded.
  cbv zeta in Hloaded.
  change (fold_left ?f data Detector.empty)
    with (execState (Detector.loadTranslationData data) d0) in Hloaded.
  destruct Hloaded as [Hdata Hvalues].
  assert (forall ks : list jsstring,
            keys_with_normalized_value entries (Detector.normalizeValue value) = ks ->
            ks <> [] <->
            exists k v, In (k, v) entries
                        /\ Detector.normalizeValue v = Detector.normalizeValue value)
    as Hgroup.
  { intros ks <-. unfold keys_with_normalized_value. split.
    - destruct (List.filter _ entries) as [|[k v] rest] eqn:E; [tauto|].
      intros _. exists k, v.
      assert (In (k, v) (List.filter
                (fun e => bool_decide (Detector.normalizeValue (snd e)
                                       = Detector.normalizeValue value)) entries))
        as [Hentry Hv%bool_decide_eq_true]%filter_In by (rewrite E; now left).
      auto.
    - intros (k & v & Hentry & Hv) Hnil.
      apply map_eq_nil in Hnil.
      assert (In (k, v) (List.filter
                (fun e => bool_decide (Detector.normalizeValue (snd e)
                                       = Detector.normalizeValue value)) entries))
        as Hf by (apply filter_In; split; [exact Hentry | now apply bool_decide_eq_true]).
      now rewrite Hnil in Hf. }
  split; [|split].
  - unfold Detector.has_key. rewrite Hdata, bool_decide_eq_true, add_keys_has.
    cbn [fst]. rewrite lookup_empty. split; [intros [H|[? [=]]]; exact H | auto].
  - unfold evalState, Detector.checkValueDuplicate, gets. cbn [fst].
    rewrite Hvalues. cbn [mbind option_bind]. rewrite add_keys_groups.
    cbn [snd]. rewrite lookup_empty.
    rewrite <- (Hgroup _ eq_refl).
    destruct (keys_with_normalized_value entries _); cbn; split;
      congruence.
  - unfold evalState, Detector.checkValueDuplicate, gets. cbn [fst].
    rewrite Hvalues. cbn [mbind option_bind]. rewrite add_keys_groups.
    cbn [snd]. rewrite lookup_empty.
    now destruct (keys_with_normalized_value entries _).
Qed.

Lemma loadTranslationData_lookup_witness :
  List.NoDup (List.map fst [(lit "en", [(lit "btn_save", lit "Save");
                                        (lit "save_label", lit " save  ")])])
  /\ In (lit "en", [(lit "btn_save", lit "Save"); (lit "save_label", lit " save  ")])
        [(lit "en", [(lit "btn_save", lit "Save"); (lit "save_label", lit " save  ")])]
  /\ Detector.existingKey
       (evalState (Detector.checkValueDuplicate (lit "SAVE") (lit "en"))
          (execState
             (Detector.loadTranslationData
                [(lit "en", [(lit "btn_save", lit "Save");
                             (lit "save_label", lit " save  ")])])
             Detector.empty))
     = Some (lit "btn_save").
Proof.
  assert (List.NoDup
            (List.map fst [(lit "en", [(lit "btn_save", lit "Save");
                                       (lit "save_label", lit " save  ")])]))
    as ND by (repeat constructor; simpl; tauto).
  split; [exact ND|]. split; [now left|].
  destruct (loadTranslationData_lookup
              [(lit "en", [(lit "btn_save", lit "Save");
                           (lit "save_label", lit " save  ")])]
              Detector.empty (lit "en") _ (lit "btn_save") (lit "SAVE") ND
              (or_introl eq_refl)) as (_ & _ & ->).
  vm_compute. reflexivity.
Defined.

(** ** The matrix of [calculateSimilarity] holds edit distances *)

Lemma distance_nil_l (t : jsstring) : distance [] t = len t.
Proof. now destruct t. Qed.

Lemma distance_nil_r (s : jsstring) : distance s [] = len s.
Proof. now destruct s. Qed.

Lemma distance_cons (x y : N) (s t : jsstring) :
  distance (x :: s) (y :: t)
  = Z.min (Z.min (distance s (y :: t) + 1) (distance (x :: s) t + 1))
          (distance s t + (if (x =? y)%N then 0 else 1)).
Proof. reflexivity. Qed.

Lemma fill_row_distances (c : N) (s read todo : jsstring) :
  Detector.fill_row c todo (distance_row s read todo)
    (distance s read) (distance (c :: s) read)
  = distance_row (c :: s) read todo.
Proof.
  revert read. induction todo as [|y todo IH]; intros read; [reflexivity|].
  cbn [distance_row Detector.fill_row]. rewrite <- distance_cons.
  f_equal. apply IH.
Qed.

Lemma first_row_distances (read todo : jsstring) :
  distance_row [] read todo
  = List.map Z.of_nat (seq (S (length read)) (length todo)).
Proof.
  revert read. induction todo as [|y todo IH]; intros read; [reflexivity|].
  cbn [distance_row length seq List.map]. rewrite distance_nil_l, IH.
  reflexivity.
Qed.

Lemma fill_rows_distances (str1 str2 s : jsstring) :
  Detector.fill_rows str1 str2 (distance s [])
    (distance s [] :: distance_row s [] str2)
  = distance (rev str1 ++ s) [] :: distance_row (rev str1 ++ s) [] str2.
Proof.
  revert s. induction str1 as [|c str1 IH]; intros s; [reflexivity|].
  cbn [Detector.fill_rows Detector.next_row rev].
  replace (distance s [] + 1) with (distance (c :: s) [])
    by (rewrite !distance_nil_r, len_cons; lia).
  rewrite fill_row_distances, <- app_assoc. apply IH.
Qed.

Lemma last_distance (s read todo : jsstring) (d : Z) :
  List.last (distance s read :: distance_row s read todo) d
  = distance s (rev todo ++ read).
Proof.
  revert read. induction todo as [|y todo IH]; intros read; [reflexivity|].
  cbn [distance_row rev]. rewrite <- app_assoc. cbn [app].
  rewrite <- IH. reflexivity.
Qed.

Lemma editDistance_distance (str1 str2 : jsstring) :
  Detector.editDistance str1 str2 = distance (rev str1) (rev str2).
Proof.
  unfold Detector.editDistance, Detector.first_row.
  cbn [seq List.map].
  pose proof (first_row_distances [] str2) as Hrow. cbn [length] in Hrow.
  rewrite <- Hrow.
  change 0 with (distance [] []) at 1. change (Z.of_nat 0) with (distance [] []).
  rewrite (fill_rows_distances str1 str2 []), last_distance.
  now rewrite !app_nil_r.
Qed.

Lemma distance_sym (s t : jsstring) : distance s t = distance t s.
Proof.
  revert t. induction s as [|x s IHs]; intros t.
  - now rewrite distance_nil_l, distance_nil_r.
  - induction t as [|y t IHt]; [now rewrite distance_nil_l, distance_nil_r|].
    rewrite !distance_cons, IHt, (IHs (y :: t)), (IHs t), (N.eqb_sym y x). lia.
Qed.

Lemma distance_bounds (s t : jsstring) :
  0 <= distance s t <= Z.max (len s) (len t).
Proof.
  revert t. induction s as [|x s IHs]; intros t.
  - rewrite distance_nil_l. pose proof (len_nonneg t). unfold len at 3. simpl. lia.
  - induction t as [|y t IHt].
    + rewrite distance_nil_r. pose proof (len_nonneg (x :: s)).
      unfold len at 4. simpl. lia.
    + rewrite distance_cons, !len_cons.
      pose proof (IHs (y :: t)). pose proof (IHs t). rewrite len_cons in *.
      destruct (x =? y)%N; lia.
Qed.

Lemma distance_zero (s t : jsstring) : distance s t = 0 <-> s = t.
Proof.
  revert t. induction s as [|x s IHs]; intros t.
  - rewrite distance_nil_l. destruct t; [tauto|].
    rewrite len_cons. pose proof (len_nonneg t). split; [lia | discriminate].
  - induction t as [|y t IHt].
    + rewrite distance_nil_r, len_cons. pose proof (len_nonneg s).
      split; [lia | discriminate].
    + rewrite distance_cons.
      pose proof (distance_bounds s (y :: t)).
      pose proof (distance_bounds (x :: s) t).
      pose proof (distance_bounds s t).
      destruct (N.eqb_spec x y) as [->|Hne]; split.
      * intros H2. f_equal. apply IHs. lia.
      * intros [= ->]. assert (distance t t = 0) as -> by now apply IHs. lia.
      * intros H2. lia.
      * intros [= -> ->]. contradiction.
Qed.

(** X20: the cell [matrix[len1][len2]] that [calculateSimilarity] computes
    is an edit distance: it is 0 exactly for two equal strings, it is the
    same in both directions, and it lies between 0 and the length of the
    longer string. *)
Theorem editDistance_is_a_distance (str1 str2 : jsstring) :
  (Detector.editDistance str1 str2 = 0 <-> str1 = str2)
  /\ Detector.editDistance str1 str2 = Detector.editDistance str2 str1
  /\ 0 <= Detector.editDistance str1 str2 <= Z.max (len str1) (len str2).
Proof.
  rewrite !editDistance_distance. split; [|split].
  - rewrite distance_zero. split; [|now intros ->].
    intros H. apply (f_equal (@rev N)) in H. now rewrite !rev_involutive in H.
  - apply distance_sym.
  - pose proof (distance_bounds (rev str1) (rev str2)) as H.
    unfold len in *. now rewrite !length_rev in H.
Qed.

(** X21: [calculateSimilarity] gives the same number for two strings in
    either order. *)
Theorem calculateSimilarity_symmetric (str1 str2 : jsstring) :
  Detector.calculateSimilarity str1 str2 = Detector.calculateSimilarity str2 str1.
Proof.
  unfold Detector.calculateSimilarity.
  rewrite !editDistance_distance, (distance_sym (rev str2)),
    (Z.max_comm (len str2)).
  destruct (len str1 =? 0), (len str2 =? 0); reflexivity.
Qed.

(** * Further properties of the backup system *)

(** ** What [createBackup] copies *)

Lemma copy_loop_spec (dir : gmap jsstring Backup.Item)
    (content : gmap jsstring Backup.Data) :
  (forall name,
     In name (fst (map_fold Backup.copy_step ([], content) dir))
     <-> backed_up dir name = true)
  /\ List.NoDup (fst (map_fold Backup.copy_step ([], content) dir))
  /\ (forall name,
        snd (map_fold Backup.copy_step ([], content) dir) !! name
        = match dir !! name with
          | Some (Backup.Regular data) =>
              if endsWith name (lit ".json") then Some data else content !! name
          | _ => content !! name
          end).
Proof.
  apply (map_fold_weak_ind
           (fun (r : list jsstring * gmap jsstring Backup.Data)
                (m : gmap jsstring Backup.Item) =>
              (forall name, In name (fst r) <-> backed_up m name = true)
              /\ List.NoDup (fst r)
              /\ (forall name,
                    snd r !! name
                    = match m !! name with
                      | Some (Backup.Regular data) =>
                          if endsWith name (lit ".json") then Some data
                          else content !! name
                      | _ => content !! name
                      end))).
  - split; [|split; [constructor|]].
    + intros name. unfold backed_up. rewrite lookup_empty. simpl.
      split; [tauto | discriminate].
    + intros name. now rewrite lookup_empty.
  - intros i x m r Hfresh (Hnames & ND & Hcopies).
    assert (backed_up m i = false) as Hi by (unfold backed_up; now rewrite Hfresh).
    assert (forall name, name <> i ->
              backed_up (<[i:=x]> m) name = backed_up m name) as Hother.
    { intros name Hne. unfold backed_up. now rewrite lookup_insert_ne. }
    unfold Backup.copy_step.
    destruct (endsWith i (lit ".json")) eqn:Hjson;
      [destruct x as [data|e|]|]; cbn [fst snd].
    + split; [|split].
      * intros name. rewrite in_app_iff, Hnames. simpl.
        destruct (decide (name = i)) as [->|Hne].
        -- unfold backed_up at 2. rewrite lookup_insert_eq, Hjson. tauto.
        -- rewrite Hother by exact Hne. intuition congruence.
      * apply NoDup_ListNoDup, NoDup_app.
        split; [now apply NoDup_ListNoDup|]. split; [|apply NoDup_singleton].
        intros name Hin%list_elem_of_In%Hnames ->%list_elem_of_singleton.
        congruence.
      * intros name. destruct (decide (name = i)) as [->|Hne].
        -- now rewrite !lookup_insert_eq, Hjson.
        -- rewrite !lookup_insert_ne by congruence. apply Hcopies.
    + split; [|split; [exact ND|]].
      * intros name. rewrite Hnames. destruct (decide (name = i)) as [->|Hne].
        -- unfold backed_up at 2. rewrite lookup_insert_eq. now rewrite Hi.
        -- now rewrite Hother.
      * intros name. rewrite Hcopies. destruct (decide (name = i)) as [->|Hne].
        -- now rewrite lookup_insert_eq, Hfresh.
        -- now rewrite lookup_insert_ne by congruence.
    + split; [|split; [exact ND|]].
      * intros name. rewrite Hnames. destruct (decide (name = i)) as [->|Hne].
        -- unfold backed_up at 2. rewrite lookup_insert_eq. now rewrite Hi.
        -- now rewrite Hother.
      * intros name. rewrite Hcopies. destruct (decide (name = i)) as [->|Hne].
        -- now rewrite lookup_insert_eq, Hfresh.
        -- now rewrite lookup_insert_ne by congruence.
    + split; [|split; [exact ND|]].
      * intros name. rewrite Hnames. destruct (decide (name = i)) as [->|Hne].
        -- unfold backed_up at 2. rewrite lookup_insert_eq, Hi.
           destruct x; now rewrite ?Hjson.
        -- now rewrite Hother.
      * intros name. rewrite Hcopies. destruct (decide (name = i)) as [->|Hne].
        -- rewrite lookup_insert_eq, Hfresh. destruct x; now rewrite ?Hjson.
        -- now rewrite lookup_insert_ne by congruence.
Qed.

Lemma listing_names_NoDup (d : Backup.Disk) :
  List.NoDup (List.map fst (Backup.listing d)).
Proof.
  unfold Backup.listing.
  replace (List.map fst (map_to_list (Backup.entry_of <$> Backup.backupDir d)))
    with ((map_to_list (Backup.entry_of <$> Backup.backupDir d)).*1).
  - apply NoDup_ListNoDup, NoDup_fst_map_to_list.
  - generalize (map_to_list (Backup.entry_of <$> Backup.backupDir d)) as l.
    induction l as [|e l IH]; [reflexivity|]. cbn. now rewrite IH.
Qed.

(** What [createBackup] leaves under its identifier. *)
Lemma createBackup_inr (backupId : jsstring) (now : Z) (description : jsstring)
    (d d1 : Backup.Disk) :
  Backup.createBackup backupId now description d = inr d1 ->
  exists (existing : gmap jsstring Backup.Data) (backedUpFiles : list jsstring)
         (copies : gmap jsstring Backup.Data),
    map_fold Backup.copy_step ([], existing) (Backup.translationDir d)
    = (backedUpFiles, copies)
    /\ d1 = {| Backup.translationDir := Backup.translationDir d;
               Backup.backupDir :=
                 <[backupId :=
                     Backup.StoredDir
                       (<[Backup.MANIFEST :=
                            Backup.ManifestText
                              {| Backup.id := backupId; Backup.timestamp := now;
                                 Backup.files := backedUpFiles;
                                 Backup.description := description |}]> copies)]>
                   (Backup.backupDir d) |}.
Proof.
  unfold Backup.createBackup.
  destruct (Backup.backupDir d !! backupId) as [[|content]|]; [discriminate| |];
    intros [= <-];
    match goal with
    | |- context [map_fold Backup.copy_step ?init ?dir] =>
        exists (snd init), (fst (map_fold Backup.copy_step init dir)),
               (snd (map_fold Backup.copy_step init dir))
    end; (split; [now destruct (map_fold _ _ _) | reflexivity]).
Qed.

(** X22: after [createBackup] has succeeded, the directory of the backup
    holds a manifest with the identifier, the time and the description
    given, which lists, each once, exactly the regular files of the
    translation directory whose name ends in [.json]; [listBackups] returns
    this manifest; the translation directory and the other backups are as
    before. *)
Theorem createBackup_manifest (backupId : jsstring) (now : Z)
    (description : jsstring) (d d1 : Backup.Disk) :
  Backup.createBackup backupId now description d = inr d1 ->
  exists content backedUpFiles,
    Backup.backupDir d1 !! backupId = Some (Backup.StoredDir content)
    /\ Backup.manifest_of content
       = Some {| Backup.id := backupId; Backup.timestamp := now;
                 Backup.files := backedUpFiles;
                 Backup.description := description |}
    /\ (forall name, In name backedUpFiles
                     <-> backed_up (Backup.translationDir d) name = true)
    /\ List.NoDup backedUpFiles
    /\ In {| Backup.id := backupId; Backup.timestamp := now;
             Backup.files := backedUpFiles;
             Backup.description := description |}
          (Backup.listBackups (Backup.listing d1))
    /\ Backup.translationDir d1 = Backup.translationDir d
    /\ (forall other, other <> backupId ->
                      Backup.backupDir d1 !! other = Backup.backupDir d !! other).
Proof.
  intros (existing & backedUpFiles & copies & Hfold & ->)%createBackup_inr.
  destruct (copy_loop_spec (Backup.translationDir d) existing)
    as (Hnames & ND & _).
  rewrite Hfold in Hnames, ND. cbn [fst] in Hnames, ND.
  eexists _, backedUpFiles. cbn [Backup.backupDir Backup.translationDir].
  split; [apply lookup_insert_eq|].
  split; [unfold Backup.manifest_of; now rewrite lookup_insert_eq|].
  split; [exact Hnames|]. split; [exact ND|].
  split; [|split; [reflexivity|]].
  - unfold Backup.listBackups.
    apply (Permutation_in _ (sort_newest_first_perm _)).
    apply manifests_In. exists backupId.
    unfold Backup.listing. cbn [Backup.backupDir].
    apply list_elem_of_In, elem_of_map_to_list.
    rewrite lookup_fmap, lookup_insert_eq. cbn.
    unfold Backup.manifest_of. now rewrite lookup_insert_eq.
  - intros other Hother. now apply lookup_insert_ne.
Qed.

Lemma createBackup_manifest_witness :
  Backup.createBackup (lit "backup-a") 1000 (lit "Automatic backup") sample_disk
  = inr sample_disk_backed_up
  /\ exists content backedUpFiles,
       Backup.backupDir sample_disk_backed_up !! lit "backup-a"
       = Some (Backup.StoredDir content)
       /\ (In (lit "fa.json") backedUpFiles /\ In (lit "en.json") backedUpFiles)
       /\ ~ In (lit "notes.txt") backedUpFiles.
Proof.
  assert (Backup.createBackup (lit "backup-a") 1000 (lit "Automatic backup")
            sample_disk = inr sample_disk_backed_up) as Hrun
    by (vm_compute; reflexivity).
  split; [exact Hrun|].
  destruct (createBackup_manifest _ _ _ _ _ Hrun)
    as (content & backedUpFiles & Hdir & _ & Hnames & _).
  exists content, backedUpFiles. split; [exact Hdir|]. split; [split|].
  - apply Hnames. vm_compute. reflexivity.
  - apply Hnames. vm_compute. reflexivity.
  - intros Hin%Hnames. revert Hin. vm_compute. discriminate.
Defined.

(** X23: [createBackup] keeps [.backups] fit for [cleanupOldBackups]: when
    every manifest on the disk names the directory it lies in, the same
    holds after a successful [createBackup], and the entries that
    [listBackups] reads have pairwise different names. *)
Theorem createBackup_keeps_manifests_named (backupId : jsstring) (now : Z)
    (description : jsstring) (d d1 : Backup.Disk) :
  Backup.createBackup backupId now description d = inr d1 ->
  (forall name info,
     In (name, Backup.Directory (Some info)) (Backup.listing d) ->
     Backup.id info = name) ->
  List.NoDup (List.map fst (Backup.listing d1))
  /\ (forall name info,
        In (name, Backup.Directory (Some info)) (Backup.listing d1) ->
        Backup.id info = name).
Proof.
  intros (existing & backedUpFiles & copies & Hfold & ->)%createBackup_inr Hnamed.
  split; [apply listing_names_NoDup|].
  intros name info Hin. unfold Backup.listing in *. cbn [Backup.backupDir] in Hin.
  apply list_elem_of_In, elem_of_map_to_list in Hin.
  rewrite lookup_fmap in Hin.
  destruct (decide (name = backupId)) as [->|Hne].
  - rewrite lookup_insert_eq in Hin. cbn in Hin.
    unfold Backup.manifest_of in Hin. rewrite lookup_insert_eq in Hin.
    now inversion Hin.
  - rewrite lookup_insert_ne in Hin by congruence.
    apply Hnamed. apply list_elem_of_In, elem_of_map_to_list.
    now rewrite lookup_fmap.
Qed.

Lemma createBackup_keeps_manifests_named_witness :
  Backup.createBackup (lit "backup-b") 2000 (lit "Before writing fa")
    sample_disk_backed_up
  = inr sample_disk_backed_up_twice
  /\ List.NoDup (List.map fst (Backup.listing sample_disk_backed_up_twice)).
Proof.
  assert (Backup.createBackup (lit "backup-b") 2000 (lit "Before writing fa")
            sample_disk_backed_up = inr sample_disk_backed_up_twice) as Hrun
    by (vm_compute; reflexivity).
  split; [exact Hrun|].
  apply (createBackup_keeps_manifests_named (lit "backup-b") 2000
           (lit "Before writing fa") sample_disk_backed_up
           sample_disk_backed_up_twice Hrun).
  assert (forallb
            (fun e : jsstring * Backup.Entry =>
               match snd e with
               | Backup.Directory (Some info) =>
                   bool_decide (Backup.id info = fst e)
               | _ => true
               end)
            (Backup.listing sample_disk_backed_up) = true) as Hnamed
    by (vm_compute; reflexivity).
  intros name info Hin.
  apply (proj1 (forallb_forall _ _) Hnamed), bool_decide_eq_true in Hin.
  exact Hin.
Defined.

(** ** What [restoreBackup] writes *)

Lemma restore_files_written (content : gmap jsstring Backup.Data)
    (fileNames : list jsstring) (dir : gmap jsstring Backup.Item) :
  (forall name, In name fileNames -> is_Some (content !! name)) ->
  (forall name, In name fileNames -> writable dir name = true) ->
  fst (Backup.restore_files content fileNames dir) = None
  /\ (forall name,
        snd (Backup.restore_files content fileNames dir) !! name
        = if bool_decide (name ∈ fileNames)
          then Backup.Regular <$> content !! name
          else dir !! name).
Proof.
  revert dir. induction fileNames as [|fileName rest IH]; intros dir Hheld Hwritable.
  - split; [reflexivity|]. intros name. rewrite bool_decide_eq_false_2; [reflexivity|].
    apply not_elem_of_nil.
  - cbn [Backup.restore_files].
    destruct (Hheld fileName (or_introl eq_refl)) as [data Hdata]. rewrite Hdata.
    assert (forall dir' : gmap jsstring Backup.Item,
              (forall name, In name rest -> writable dir' name = true) ->
              fst (Backup.restore_files content rest dir') = None
              /\ (forall name,
                    snd (Backup.restore_files content rest dir') !! name
                    = if bool_decide (name ∈ rest)
                      then Backup.Regular <$> content !! name
                      else dir' !! name)) as IH'
      by (intros dir' H'; apply IH; [intros; apply Hheld; now right | exact H']).
    assert (forall name, In name rest ->
              writable (<[fileName := Backup.Regular data]> dir) name = true)
      as Hrest.
    { intros name Hin. unfold writable.
      destruct (decide (name = fileName)) as [->|Hne].
      - now rewrite lookup_insert_eq.
      - rewrite lookup_insert_ne by congruence. apply Hwritable. now right. }
    destruct (IH' _ Hrest) as [Hnone Hlookup].
    pose proof (Hwritable fileName (or_introl eq_refl)) as Hw. unfold writable in Hw.
    assert (Backup.restore_files content rest (<[fileName := Backup.Regular data]> dir)
            = match dir !! fileName with
              | Some (Backup.Locked e) =>
                  (Some (if bool_decide (Json.code e = Some Json.ENOENT)
                         then Backup.NoSuchBackup else Backup.FailedToRestore), dir)
              | Some Backup.Folder => (Some Backup.FailedToRestore, dir)
              | _ => Backup.restore_files content rest
                       (<[fileName := Backup.Regular data]> dir)
              end) as <-
      by (destruct (dir !! fileName) as [[| |]|]; try discriminate; reflexivity).
    split; [exact Hnone|]. intros name. rewrite Hlookup.
    destruct (decide (name = fileName)) as [->|Hne].
    + rewrite (bool_decide_eq_true_2 (fileName ∈ fileName :: rest))
        by apply list_elem_of_here.
      case_bool_decide; [reflexivity|]. now rewrite lookup_insert_eq, Hdata.
    + rewrite lookup_insert_ne by congruence.
      repeat case_bool_decide; try reflexivity;
        match goal with
        | H : name ∈ _ :: _ |- _ => apply elem_of_cons in H as [?|?]; tauto
        | H : ~ name ∈ _ :: _ |- _ => exfalso; apply H; now apply list_elem_of_further
        end.
Qed.

(** X24: a backup can be restored. Let [createBackup] have succeeded, and
    let the disk then change in any way that leaves the directory of the
    backup as it is and leaves every file that was copied writable. Then
    [restoreBackup] succeeds; every file that was copied, other than one
    named like the manifest, holds again what it held when the backup was
    made; every file that was not copied, a file made after the backup
    among them, is left as it is; and [.backups] is untouched. *)
Theorem backup_round_trip (backupId : jsstring) (now : Z) (description : jsstring)
    (d d1 d2 : Backup.Disk) :
  Backup.createBackup backupId now description d = inr d1 ->
  Backup.backupDir d2 !! backupId = Backup.backupDir d1 !! backupId ->
  (forall name, backed_up (Backup.translationDir d) name = true ->
                writable (Backup.translationDir d2) name = true) ->
  exists d3,
    Backup.restoreBackup backupId d2 = (None, d3)
    /\ (forall name, backed_up (Backup.translationDir d) name = true ->
                     name <> Backup.MANIFEST ->
                     Backup.translationDir d3 !! name
                     = Backup.translationDir d !! name)
    /\ (forall name, backed_up (Backup.translationDir d) name = false ->
                     Backup.translationDir d3 !! name
                     = Backup.translationDir d2 !! name)
    /\ Backup.backupDir d3 = Backup.backupDir d2.
Proof.
  intros (existing & backedUpFiles & copies & Hfold & ->)%createBackup_inr
         Hsame Hwritable.
  destruct (copy_loop_spec (Backup.translationDir d) existing)
    as (Hnames & _ & Hcopies).
  rewrite Hfold in Hnames, Hcopies. cbn [fst snd] in Hnames, Hcopies.
  cbn [Backup.backupDir] in Hsame. rewrite lookup_insert_eq in Hsame.
  unfold Backup.restoreBackup. rewrite Hsame, lookup_insert_eq.
  cbn [Backup.files].
  match goal with
  | |- context [Backup.restore_files ?content _ _] => set (held := content)
  end.
  assert (forall name, In name backedUpFiles ->
            name <> Backup.MANIFEST ->
            Backup.Regular <$> held !! name = Backup.translationDir d !! name)
    as Hheld.
  { intros name Hin%Hnames Hne. unfold held.
    rewrite lookup_insert_ne by congruence. rewrite Hcopies.
    unfold backed_up in Hin.
    destruct (Backup.translationDir d !! name) as [[data|e|]|]; try discriminate.
    now rewrite Hin. }
  destruct (restore_files_written held backedUpFiles (Backup.translationDir d2))
    as [Hnone Hlookup].
  - intros name Hin. destruct (decide (name = Backup.MANIFEST)) as [->|Hne].
    + unfold held. rewrite lookup_insert_eq. eauto.
    + pose proof (Hheld name Hin Hne) as Hdata. apply Hnames in Hin.
      unfold backed_up in Hin.
      destruct (Backup.translationDir d !! name) as [[data|e|]|]; try discriminate.
      destruct (held !! name); [eauto | discriminate].
  - intros name Hin%Hnames. now apply Hwritable.
  - eexists. split; [f_equal; exact Hnone|].
    cbn [Backup.translationDir Backup.backupDir].
    split; [|split; [|reflexivity]].
    + intros name Hin Hne. rewrite Hlookup.
      rewrite bool_decide_eq_true_2
        by (now apply list_elem_of_In, Hnames).
      apply Hheld; [now apply Hnames | exact Hne].
    + intros name Hout. rewrite Hlookup.
      rewrite bool_decide_eq_false_2; [reflexivity|].
      intros Hin%list_elem_of_In%Hnames. congruence.
Qed.

Lemma sample_disk_writable (name : jsstring) :
  backed_up (Backup.translationDir sample_disk) name = true ->
  writable (Backup.translationDir sample_disk_changed) name = true.
Proof.
  intros Hcopied. unfold backed_up in Hcopied.
  destruct (decide (name = lit "fa.json")) as [->|Hfa]; [vm_compute; reflexivity|].
  destruct (decide (name = lit "en.json")) as [->|Hen]; [vm_compute; reflexivity|].
  destruct (decide (name = lit "notes.txt")) as [->|Hnotes];
    [revert Hcopied; vm_compute; discriminate|].
  destruct (decide (name = lit "drafts")) as [->|Hdrafts];
    [revert Hcopied; vm_compute; discriminate|].
  unfold sample_disk in Hcopied. cbn [Backup.translationDir] in Hcopied.
  rewrite !lookup_insert_ne in Hcopied by congruence.
  rewrite lookup_singleton_ne in Hcopied by congruence. discriminate.
Qed.

Lemma backup_round_trip_witness :
  Backup.createBackup (lit "backup-a") 1000 (lit "Automatic backup") sample_disk
  = inr sample_disk_backed_up
  /\ Backup.backupDir sample_disk_changed !! lit "backup-a"
     = Backup.backupDir sample_disk_backed_up !! lit "backup-a"
  /\ exists d3,
       Backup.restoreBackup (lit "backup-a") sample_disk_changed = (None, d3)
       /\ Backup.translationDir d3 !! lit "fa.json"
          = Backup.translationDir sample_disk !! lit "fa.json"
       /\ Backup.translationDir d3 !! lit "de.json"
          = Backup.translationDir sample_disk_changed !! lit "de.json".
Proof.
  assert (Backup.createBackup (lit "backup-a") 1000 (lit "Automatic backup")
            sample_disk = inr sample_disk_backed_up) as Hrun
    by (vm_compute; reflexivity).
  assert (Backup.backupDir sample_disk_changed !! lit "backup-a"
          = Backup.backupDir sample_disk_backed_up !! lit "backup-a") as Hsame
    by reflexivity.
  split; [exact Hrun|]. split; [exact Hsame|].
  destruct (backup_round_trip _ _ _ _ _ sample_disk_changed Hrun Hsame
              sample_disk_writable) as (d3 & Hrestore & Hback & Hkept & _).
  exists d3. split; [exact Hrestore|]. split.
  - apply Hback; [vm_compute; reflexivity | vm_compute; discriminate].
  - apply Hkept. vm_compute. reflexivity.
Defined.

Lemma restore_files_keeps (content : gmap jsstring Backup.Data)
    (fileNames : list jsstring) (dir : gmap jsstring Backup.Item) (name : jsstring) :
  (is_Some (dir !! name) ->
   is_Some (snd (Backup.restore_files content fileNames dir) !! name))
  /\ (~ In name fileNames ->
      snd (Backup.restore_files content fileNames dir) !! name = dir !! name).
Proof.
  revert dir. induction fileNames as [|fileName rest IH]; intros dir; [now split|].
  cbn [Backup.restore_files].
  destruct (content !! fileName) as [data|]; [|now split].
  assert (is_Some (dir !! name) ->
          is_Some (<[fileName := Backup.Regular data]> dir !! name)) as Hstays.
  { intros Hsome. destruct (decide (name = fileName)) as [->|Hne].
    - rewrite lookup_insert_eq. eauto.
    - now rewrite lookup_insert_ne by congruence. }
  destruct (IH (<[fileName := Backup.Regular data]> dir)) as [IH1 IH2].
  destruct (dir !! fileName) as [[other|e|]|] eqn:Hfile; cbn [snd];
    try (split; [tauto | reflexivity]);
    (split; [intros Hsome; apply IH1, Hstays, Hsome|];
     intros Hout; rewrite IH2 by (simpl in Hout; tauto);
     apply lookup_insert_ne; simpl in Hout; intros ->; tauto).
Qed.

(** X25: whatever it is asked and however it ends, [restoreBackup] changes
    nothing in [.backups], removes no entry of the translation directory
    and touches no file that the manifest of the backup does not list; for
    an identifier with no entry in [.backups] it reports that the backup was
    not found and changes nothing at all. *)
Theorem restoreBackup_only_writes_listed_files (backupId : jsstring)
    (d : Backup.Disk) :
  Backup.backupDir (snd (Backup.restoreBackup backupId d)) = Backup.backupDir d
  /\ (forall name,
        is_Some (Backup.translationDir d !! name) ->
        is_Some (Backup.translationDir (snd (Backup.restoreBackup backupId d))
                 !! name))
  /\ (forall content info name,
        Backup.backupDir d !! backupId = Some (Backup.StoredDir content) ->
        Backup.manifest_of content = Some info ->
        ~ In name (Backup.files info) ->
        Backup.translationDir (snd (Backup.restoreBackup backupId d)) !! name
        = Backup.translationDir d !! name)
  /\ (Backup.backupDir d !! backupId = None ->
      Backup.restoreBackup backupId d = (Some Backup.NoSuchBackup, d)).
Proof.
  unfold Backup.restoreBackup, Backup.manifest_of.
  destruct (Backup.backupDir d !! backupId) as [[|content]|] eqn:Hdir.
  - cbn [snd]. repeat split; try tauto; try discriminate.
  - destruct (content !! Backup.MANIFEST) as [[info|text]|] eqn:Hinfo;
      cbn [snd Backup.backupDir Backup.translationDir].
    + split; [reflexivity|]. split; [|split; [|discriminate]].
      * intros name. apply restore_files_keeps.
      * intros content' info' name [= <-]. rewrite Hinfo. intros [= <-].
        apply restore_files_keeps.
    + repeat split; try tauto; try discriminate;
        intros content' info' name [= <-]; rewrite Hinfo; discriminate.
    + repeat split; try tauto; try discriminate;
        intros content' info' name [= <-]; rewrite Hinfo; discriminate.
  - cbn [snd]. repeat split; try tauto; discriminate.
Qed.

(** * Repairs and scores *)

(** X26: each repair of [fixForbiddenPattern] removes the pattern it is
    for: a key that matches one of the four forbidden patterns of the
    default rules no longer matches that pattern once it is repaired. *)
Theorem fixForbiddenPattern_repairs (key : jsstring)
    (p : Validator.ForbiddenPattern) :
  In p (Validator.forbiddenPatterns Validator.DEFAULT_KEY_RULES) ->
  Validator.pattern_test p key = true ->
  Validator.pattern_test p (Validator.fixForbiddenPattern key p) = false.
Proof.
  intros Hdefault Hmatch.
  cbn [Validator.forbiddenPatterns Validator.DEFAULT_KEY_RULES In] in Hdefault.
  destruct Hdefault as [<-|[<-|[<-|[<-|[]]]]];
    cbn [Validator.fixForbiddenPattern Validator.pattern_test].
  - vm_compute. reflexivity.
  - unfold lit. simpl. reflexivity.
  - apply collapse_no_double.
  - unfold trim_underscores.
    rewrite drop_trailing_head by apply drop_leading_head.
    now rewrite drop_trailing_end.
Qed.

Lemma fixForbiddenPattern_repairs_witness :
  In Validator.EdgeUnderscore
     (Validator.forbiddenPatterns Validator.DEFAULT_KEY_RULES)
  /\ Validator.pattern_test Validator.EdgeUnderscore (lit "_save_") = true
  /\ Validator.fixForbiddenPattern (lit "_save_") Validator.EdgeUnderscore
     = lit "save"
  /\ Validator.pattern_test Validator.EdgeUnderscore
       (Validator.fixForbiddenPattern (lit "_save_") Validator.EdgeUnderscore)
     = false.
Proof.
  assert (In Validator.EdgeUnderscore
            (Validator.forbiddenPatterns Validator.DEFAULT_KEY_RULES)) as Hin
    by (simpl; tauto).
  split; [exact Hin|]. split; [vm_compute; reflexivity|].
  split; [vm_compute; reflexivity|].
  apply (fixForbiddenPattern_repairs (lit "_save_") Validator.EdgeUnderscore Hin).
  vm_compute. reflexivity.
Defined.

(** X27: the score of [calculateConfidence] lies strictly between 0 and 1,
    for every text and every key. *)
Theorem calculateConfidence_range (originalText generatedKey : jsstring) :
  PrimFloat.ltb 0 (Generator.calculateConfidence originalText generatedKey) = true
  /\ PrimFloat.ltb (Generator.calculateConfidence originalText generatedKey) 1
     = true.
Proof.
  unfold Generator.calculateConfidence.
  rewrite word_bonus_existsb.
  destruct (existsb _ _), (_ && _), (_ || _); vm_compute; split; reflexivity.
Qed.

(** ** The counters of [getDuplicateStats] *)

Lemma count_group_comm (ks1 ks2 : list jsstring) (counters : nat * nat) :
  Detector.count_group ks1 (Detector.count_group ks2 counters)
  = Detector.count_group ks2 (Detector.count_group ks1 counters).
Proof.
  unfold Detector.count_group.
  destruct (1 <? length ks1)%nat, (1 <? length ks2)%nat; cbn [fst snd];
    try reflexivity.
  f_equal. lia.
Qed.

(** In a map whose groups are not empty, the extra keys and the groups add
    up to the keys filed. *)
Lemma counters_and_groups (valueMap : gmap jsstring (list jsstring)) :
  (forall value keys, valueMap !! value = Some keys -> keys <> []) ->
  (snd (map_fold (fun _ keys => Detector.count_group keys) (0, 0) valueMap)
   + size valueMap = filed_keys valueMap)%nat
  /\ (fst (map_fold (fun _ keys => Detector.count_group keys) (0, 0) valueMap)
      <= snd (map_fold (fun _ keys => Detector.count_group keys) (0, 0) valueMap))%nat.
Proof.
  unfold filed_keys.
  induction valueMap as [|value keys valueMap Hfresh IH] using map_ind;
    intros Hgroups.
  - rewrite !map_fold_empty, map_size_empty. cbn. lia.
  - rewrite (map_fold_insert_L (fun _ keys => Detector.count_group keys));
      [|intros; apply count_group_comm | exact Hfresh].
    rewrite (map_fold_insert_L (fun _ keys n => (n + length keys)%nat));
      [|intros; lia | exact Hfresh].
    rewrite map_size_insert_None by exact Hfresh.
    destruct IH as [IH1 IH2].
    { intros v ks Hv. apply (Hgroups v). rewrite lookup_insert_ne; [exact Hv|].
      intros ->. congruence. }
    assert (keys <> []) as Hkeys by (apply (Hgroups value), lookup_insert_eq).
    generalize dependent (map_fold (fun _ ks => Detector.count_group ks)
                            (0%nat, 0%nat) valueMap).
    intros [dv dk]. cbn [fst snd]. intros IH1 IH2.
    unfold Detector.count_group.
    destruct keys as [|k1 [|k2 keys]]; [contradiction| |];
      cbn [length Nat.ltb Nat.leb fst snd]; lia.
Qed.

Lemma filed_keys_push (valueMap : gmap jsstring (list jsstring))
    (value key : jsstring) :
  filed_keys (<[value := default [] (valueMap !! value) ++ [key]]> valueMap)
  = S (filed_keys valueMap).
Proof.
  unfold filed_keys.
  destruct (valueMap !! value) as [keys|] eqn:Hold; cbn [default].
  - rewrite <- insert_delete_eq.
    rewrite map_fold_insert_L; [|intros; lia | apply lookup_delete_eq].
    rewrite (map_fold_delete_L _ _ value keys valueMap); [|intros; lia | exact Hold].
    rewrite length_app. simpl. unfold id. lia.
  - rewrite map_fold_insert_L; [|intros; lia | exact Hold]. simpl. lia.
Qed.

Lemma add_keys_filed (entries : list (jsstring * jsstring))
    (maps : gmap jsstring jsstring * gmap jsstring (list jsstring)) :
  filed_keys
    (snd (fold_left (fun m kv => Detector.add_key (fst kv) (snd kv) m) entries maps))
  = (filed_keys (snd maps) + length entries)%nat.
Proof.
  revert maps. induction entries as [|[k v] entries IH]; intros maps; simpl; [lia|].
  rewrite IH. cbn [Detector.add_key snd]. rewrite filed_keys_push. lia.
Qed.

Lemma add_keys_size (entries : list (jsstring * jsstring))
    (maps : gmap jsstring jsstring * gmap jsstring (list jsstring)) :
  List.NoDup (List.map fst entries) ->
  (forall key, In key (List.map fst entries) -> fst maps !! key = None) ->
  size (fst (fold_left (fun m kv => Detector.add_key (fst kv) (snd kv) m)
               entries maps))
  = (size (fst maps) + length entries)%nat.
Proof.
  revert maps. induction entries as [|[k v] entries IH]; intros maps ND Hfresh;
    simpl; [lia|].
  inversion ND as [|? ? Hk ND']; subst. rewrite IH; [|exact ND'|].
  - cbn [Detector.add_key fst].
    rewrite map_size_insert_None by (apply Hfresh; now left). lia.
  - intros key Hin. cbn [Detector.add_key fst].
    rewrite lookup_insert_ne by (intros ->; contradiction).
    apply Hfresh. now right.
Qed.

(** X30: after [loadTranslationData], the entry of [getDuplicateStats] for
    a locale of the data counts its keys, and the keys it counts as
    duplicates are the keys beyond the first of every normalized value:
    together with the number of distinct normalized values they add up to
    the number of keys. There are at least as many of them as values
    counted as duplicated. *)
Theorem getDuplicateStats_counts
    (data : list (jsstring * list (jsstring * jsstring)))
    (d0 : Detector.DuplicateDetector) (locale : jsstring)
    (entries : list (jsstring * jsstring)) :
  List.NoDup (List.map fst data) -> In (locale, entries) data ->
  List.NoDup (List.map fst entries) ->
  exists valueMap stats,
    Detector.valueToKeys (execState (Detector.loadTranslationData data) d0)
      !! locale = Some valueMap
    /\ (forall normalizedValue,
          is_Some (valueMap !! normalizedValue)
          <-> exists k v, In (k, v) entries
                          /\ Detector.normalizeValue v = normalizedValue)
    /\ evalState Detector.getDuplicateStats
         (execState (Detector.loadTranslationData data) d0) !! locale
       = Some stats
    /\ Detector.totalKeys stats = length entries
    /\ (Detector.duplicateKeys stats + size valueMap = length entries)%nat
    /\ (Detector.duplicateValues stats <= Detector.duplicateKeys stats)%nat.
Proof.
  intros ND Hin NDe.
  pose proof (load_locale data Detector.empty locale entries ND Hin) as Hloaded.
  cbv zeta in Hloaded.
  change (fold_left ?f data Detector.empty)
    with (execState (Detector.loadTranslationData data) d0) in Hloaded.
  destruct Hloaded as [Hdata Hvalues].
  set (maps := fold_left (fun m kv => Detector.add_key (fst kv) (snd kv) m)
                 entries (∅, ∅)) in *.
  assert (forall nv, snd maps !! nv
                     = match keys_with_normalized_value entries nv with
                       | [] => None
                       | ks => Some ks
                       end) as Hgroups.
  { intros nv. unfold maps. rewrite add_keys_groups. cbn [snd].
    rewrite lookup_empty. now destruct (keys_with_normalized_value entries nv). }
  destruct (counters_and_groups (snd maps)) as [Hsum Hle].
  { intros nv ks. rewrite Hgroups.
    destruct (keys_with_normalized_value entries nv); [discriminate|].
    intros [= <-]. discriminate. }
  exists (snd maps). eexists. split; [exact Hvalues|]. split; [|split].
  - intros nv. rewrite Hgroups. unfold keys_with_normalized_value. split.
    + destruct (List.filter _ entries) as [|[k v] rest] eqn:E;
        [intros [? [=]]|].
      intros _. exists k, v.
      assert (In (k, v) (List.filter
                (fun e => bool_decide (Detector.normalizeValue (snd e) = nv))
                entries)) as [Hentry Hv%bool_decide_eq_true]%filter_In
        by (rewrite E; now left).
      auto.
    + intros (k & v & Hentry & Hv).
      assert (In (k, v) (List.filter
                (fun e => bool_decide (Detector.normalizeValue (snd e) = nv))
                entries)) as Hf
        by (apply filter_In; split; [exact Hentry | now apply bool_decide_eq_true]).
      destruct (List.filter _ entries); [contradiction | cbn; eauto].
  - unfold evalState, Detector.getDuplicateStats, gets. cbn [fst].
    rewrite map_lookup_imap, Hvalues. cbn [mbind option_bind]. rewrite Hdata.
    reflexivity.
  - cbn [Detector.totalKeys Detector.duplicateKeys Detector.duplicateValues].
    split; [|split; [|exact Hle]].
    + unfold maps. rewrite add_keys_size; [cbn; rewrite map_size_empty; lia
                                          | exact NDe | intros; apply lookup_empty].
    + rewrite Hsum. unfold maps. rewrite add_keys_filed. cbn [snd].
      unfold filed_keys. now rewrite map_fold_empty.
Qed.

Lemma getDuplicateStats_counts_witness :
  List.NoDup (List.map fst [(lit "en", [(lit "btn_save", lit "Save");
                                        (lit "save_label", lit " save  ");
                                        (lit "cancel", lit "Cancel")])])
  /\ evalState Detector.getDuplicateStats
       (execState
          (Detector.loadTranslationData
             [(lit "en", [(lit "btn_save", lit "Save");
                          (lit "save_label", lit " save  ");
                          (lit "cancel", lit "Cancel")])])
          Detector.empty) !! lit "en"
     = Some {| Detector.totalKeys := 3; Detector.duplicateValues := 1;
               Detector.duplicateKeys := 1 |}
  /\ exists valueMap stats,
       Detector.valueToKeys
         (execState
            (Detector.loadTranslationData
               [(lit "en", [(lit "btn_save", lit "Save");
                            (lit "save_label", lit " save  ");
                            (lit "cancel", lit "Cancel")])])
            Detector.empty) !! lit "en" = Some valueMap
       /\ Detector.totalKeys stats = 3%nat
       /\ (Detector.duplicateKeys stats + size valueMap = 3)%nat.
Proof.
  assert (List.NoDup
            (List.map fst [(lit "en", [(lit "btn_save", lit "Save");
                                       (lit "save_label", lit " save  ");
                                       (lit "cancel", lit "Cancel")])]))
    as ND by (repeat constructor; simpl; tauto).
  assert (List.NoDup
            (List.map fst [(lit "btn_save", lit "Save");
                           (lit "save_label", lit " save  ");
                           (lit "cancel", lit "Cancel")])) as NDe.
  { apply NoDup_ListNoDup.
    apply (bool_decide_unpack _). vm_compute. reflexivity. }
  split; [exact ND|]. split; [vm_compute; reflexivity|].
  destruct (getDuplicateStats_counts _ Detector.empty (lit "en") _ ND
              (or_introl eq_refl) NDe)
    as (valueMap & stats & Hmap & _ & _ & Htotal & Hsum & _).
  exists valueMap, stats. auto.
Defined.
